(** * Candidate-selection pipeline of the masis extension

    A shallow embedding of the folder matcher (background/folder-matcher.js),
    the embedding cache (src/lib/clip/cache.ts), the similarity functions
    (src/lib/clip/similarity.ts), the CLIP filter (src/lib/clip/filter.ts),
    the unified selection route (Extension Unified Select API), the LRU
    cache of the background script (background/cache.js) and the provider
    clients (src/lib/clip/client.ts).

    JavaScript values are modelled as the engine has them: a string is its
    sequence of UTF-16 code units, a [number] is an IEEE-754 binary64 value
    (Rocq's primitive floats), a [Map] is an association list kept in
    insertion order, and [null]/[undefined] results are [option]s. *)

From Stdlib Require Import List ZArith NArith Bool Lia String Ascii Floats.
From Stdlib Require Import DecimalString.
From Stdlib Require Import Permutation Sorted.
Import ListNotations.

Set Implicit Arguments.

(* ================================================================= *)
(** * JavaScript strings and arrays *)

Module Js.

(** A JavaScript string: UTF-16 code units. *)
Definition jsstring := list N.

(** An ASCII literal of the source, as code units. *)
Definition lit (s : string) : jsstring :=
  List.map N_of_ascii (list_ascii_of_string s).

Fixpoint eqb (a b : jsstring) : bool :=
  match a, b with
  | [], [] => true
  | x :: a', y :: b' => N.eqb x y && eqb a' b'
  | _, _ => false
  end.

(** [s.startsWith(p)] *)
Fixpoint startsWith (s p : jsstring) : bool :=
  match p, s with
  | [], _ => true
  | x :: p', y :: s' => N.eqb x y && startsWith s' p'
  | _ :: _, [] => false
  end.

(** [s.includes(p)] on strings: [p] occurs as a contiguous run of [s]. *)
Fixpoint includes (s p : jsstring) : bool :=
  startsWith s p ||
  match s with
  | [] => false
  | _ :: s' => includes s' p
  end.

(** [arr.includes(w)] on an array of strings. *)
Definition array_includes (arr : list jsstring) (w : jsstring) : bool :=
  existsb (fun x => eqb x w) arr.

(** The code units matched by the regular expression class [\s]. *)
Definition is_space (c : N) : bool :=
  ((9 <=? c) && (c <=? 13) || (c =? 32) || (c =? 160) || (c =? 5760)
   || (8192 <=? c) && (c <=? 8202) || (c =? 8232) || (c =? 8233)
   || (c =? 8239) || (c =? 8287) || (c =? 12288) || (c =? 65279))%N.

(** [s.split(/\s+/)]: the fields between maximal runs of white space.  A
    leading or trailing run yields an empty first or last field, and the
    empty string splits to one empty field. *)
Fixpoint split_ws (s : jsstring) : list jsstring :=
  match s with
  | [] => [[]]
  | c :: s' =>
      if is_space c then
        match s' with
        | [] => [[]; []]
        | c' :: _ => if is_space c' then split_ws s' else [] :: split_ws s'
        end
      else
        match split_ws s' with
        | w :: ws => (c :: w) :: ws
        | [] => [[c]]
        end
  end.

(** [arr.join(sep)] *)
Fixpoint join (sep : jsstring) (arr : list jsstring) : jsstring :=
  match arr with
  | [] => []
  | [x] => x
  | x :: rest => x ++ sep ++ join sep rest
  end.

(** [arr.map((x, idx) => f(x, idx))], started at index [idx]. *)
Fixpoint mapi (A B : Type) (f : A -> nat -> B) (l : list A) (idx : nat)
  : list B :=
  match l with
  | [] => []
  | x :: l' => f x idx :: mapi f l' (S idx)
  end.

(** [String(n)] for a non-negative integer. *)
Definition of_nat (n : nat) : jsstring :=
  lit (NilEmpty.string_of_uint (Nat.to_uint n)).

(** Truthiness of a possibly missing string: [undefined] and [""] are
    falsy. *)
Definition truthy (s : option jsstring) : bool :=
  match s with
  | Some (_ :: _) => true
  | _ => false
  end.

(** [a || b] on possibly missing strings. *)
Definition or_else (a b : option jsstring) : option jsstring :=
  if truthy a then a else b.

(** A [${x}] hole of a template literal. *)
Definition template (s : option jsstring) : jsstring :=
  match s with
  | Some x => x
  | None => lit "undefined"
  end.

(** [String.prototype.toLowerCase] restricted to Basic Latin: the letters
    A-Z are mapped to a-z and every other code unit is kept.  It agrees
    with the engine on strings whose other code units have no case, such as
    Hangul syllables, digits and punctuation. *)
Definition lower_unit (c : N) : N :=
  if ((65 <=? c) && (c <=? 90))%N then (c + 32)%N else c.

Definition toLowerCase_latin (s : jsstring) : jsstring :=
  List.map lower_unit s.

(** [Array.prototype.sort(cmp)] is stable; for a comparator that orders the
    elements consistently its result is the stable arrangement in which [x]
    precedes [y] whenever [cmp(x, y) < 0].  [before y x] stands for
    [cmp(y, x) < 0].  The model inserts from the right, so that among
    elements that compare equal the original order is kept. *)
Section Sort.
Variable A : Type.
Variable before : A -> A -> bool.

Fixpoint sort_insert (x : A) (l : list A) : list A :=
  match l with
  | [] => [x]
  | y :: l' => if before y x then y :: sort_insert x l' else x :: l
  end.

Definition sort (l : list A) : list A :=
  fold_right sort_insert [] l.
End Sort.

End Js.

Import Js.

(* ================================================================= *)
(** * background/folder-matcher.js *)

Module FolderMatcher.

Record FolderInfo := {
  _id : jsstring;
  name : jsstring
}.

Section Matcher.

(** [String.prototype.toLowerCase] of the engine. *)
Variable toLowerCase : jsstring -> jsstring.

(** The words of [charWords] that occur among [folderWords]. *)
Definition matchedWords (lowerCharName lowerFolderName : jsstring)
  : list jsstring :=
  let charWords := split_ws lowerCharName in
  let folderWords := split_ws lowerFolderName in
  List.filter (fun word => array_includes folderWords word) charWords.

(** The score given to one folder inside [selectBestMatch]. *)
Definition folderScore (lowerCharName : jsstring) (folder : FolderInfo)
  : Z :=
  let lowerFolderName := toLowerCase (name folder) in
  let score :=
    (if Js.eqb lowerFolderName lowerCharName then 1000
     else if includes lowerFolderName lowerCharName then 900
     else if startsWith lowerFolderName lowerCharName then 850
     else 700
          + Z.of_nat (List.length (matchedWords lowerCharName
                                                lowerFolderName)) * 50)%Z in
  let lengthDiff :=
    Z.abs (Z.of_nat (List.length lowerFolderName)
           - Z.of_nat (List.length lowerCharName)) in
  (score - lengthDiff * 2)%Z.

(** [scored.sort((a, b) => b.score - a.score)]: [a] goes before [b] when
    [b.score - a.score < 0]. *)
Definition byScoreDesc (a b : FolderInfo * Z) : bool :=
  (snd b - snd a <? 0)%Z.

(** [folders] is [None] for a [null] argument; the result [None] is
    [null]. *)
Definition selectBestMatch (folders : option (list FolderInfo))
  (characterName : jsstring) : option FolderInfo :=
  match folders with
  | None => None
  | Some [] => None
  | Some fs =>
      let lowerCharName := toLowerCase characterName in
      let scored :=
        List.map (fun folder => (folder, folderScore lowerCharName folder))
                 fs in
      let scored := Js.sort byScoreDesc scored in
      match scored with
      | s0 :: _ => Some (fst s0)
      | [] => None
      end
  end.

(** The score of a folder for a query, as [selectBestMatch] computes
    it. *)
Definition score (characterName : jsstring) (folder : FolderInfo) : Z :=
  folderScore (toLowerCase characterName) folder.

End Matcher.


End FolderMatcher.

(* ================================================================= *)
(** * src/lib/clip/types.ts *)

(** [Embedding = number[]] *)
Definition Embedding := list float.

Module Types.

Inductive InputType := text | image.

Record CacheKey := {
  type : InputType;
  value : jsstring
}.

(** [createdAt] is a reading of [Date.now()] in milliseconds, [ttl] is in
    seconds; both are JavaScript numbers. *)
Record CacheEntry := {
  embedding : Embedding;
  createdAt : float;
  ttl : float
}.

Record EmbeddingRequest := {
  input : jsstring;
  req_type : InputType
}.

Record EmbeddingResponse := {
  success : bool;
  resp_embedding : option Embedding;
  error : option jsstring
}.

End Types.

Import Types.

(* ================================================================= *)
(** * The built-in [Map], in insertion order *)

Module JsMap.

Section Map.
Variable V : Type.

Definition t := list (jsstring * V).

Fixpoint get (m : t) (k : jsstring) : option V :=
  match m with
  | [] => None
  | (k', v) :: m' => if Js.eqb k' k then Some v else get m' k
  end.

Definition has (m : t) (k : jsstring) : bool :=
  match get m k with
  | Some _ => true
  | None => false
  end.

(** [m.set(k, v)]: an existing key keeps its place and takes the new value,
    a new key goes last. *)
Fixpoint set (m : t) (k : jsstring) (v : V) : t :=
  match m with
  | [] => [(k, v)]
  | (k', v') :: m' =>
      if Js.eqb k' k then (k', v) :: m' else (k', v') :: set m' k v
  end.

(** [m.delete(k)]: the entry of [k], if any, is removed.  The boolean
    that JavaScript returns is [has m k], taken before the call. *)
Fixpoint delete (m : t) (k : jsstring) : t :=
  match m with
  | [] => []
  | (k', v') :: m' => if Js.eqb k' k then m' else (k', v') :: delete m' k
  end.

(** [m.keys().next().value] *)
Definition firstKey (m : t) : option jsstring :=
  match m with
  | [] => None
  | (k, _) :: _ => Some k
  end.

Definition size (m : t) : nat := List.length m.

Definition keys (m : t) : list jsstring := List.map fst m.

End Map.

End JsMap.

(* ================================================================= *)
(** * src/lib/clip/cache.ts *)

Module Cache.

Definition typeName (ty : InputType) : jsstring :=
  match ty with
  | text => lit "text"
  | image => lit "image"
  end.

(** [`${key.type}:${key.value}`] *)
Definition createCacheKey (key : CacheKey) : jsstring :=
  typeName (type key) ++ lit ":" ++ value key.

Record CacheOptions := {
  opt_maxSize : option nat;
  opt_defaultTTL : option float
}.

(** The fields of an [EmbeddingCache] instance. *)
Record EmbeddingCache := {
  cache : JsMap.t CacheEntry;
  maxSize : nat;
  defaultTTL : float
}.

(** [options.maxSize || 1000]: a missing or zero size gives 1000. *)
Definition maxSizeOrDefault (o : option nat) : nat :=
  match o with
  | Some (S n) => S n
  | _ => 1000
  end.

(** [options.defaultTTL || 3600]: missing, zero and NaN give 3600. *)
Definition ttlOrDefault (o : option float) : float :=
  match o with
  | Some x => if (PrimFloat.eqb x 0 || PrimFloat.is_nan x)%bool
              then 3600%float else x
  | None => 3600%float
  end.

Definition new (options : CacheOptions) : EmbeddingCache :=
  {| cache := [];
     maxSize := maxSizeOrDefault (opt_maxSize options);
     defaultTTL := ttlOrDefault (opt_defaultTTL options) |}.

(** [age > entry.ttl] with [age = (now - entry.createdAt) / 1000]. *)
Definition expired (now : float) (entry : CacheEntry) : bool :=
  let age := ((now - createdAt entry) / 1000)%float in
  PrimFloat.ltb (ttl entry) age.

Definition withCache (c : EmbeddingCache) (m : JsMap.t CacheEntry)
  : EmbeddingCache :=
  {| cache := m; maxSize := maxSize c; defaultTTL := defaultTTL c |}.

(** [get(key)]; [now] is the reading of [Date.now()] taken when an entry
    is found.  The result [None] is [null]. *)
Definition get (c : EmbeddingCache) (now : float) (key : CacheKey)
  : option Embedding * EmbeddingCache :=
  let cacheKey := createCacheKey key in
  match JsMap.get (cache c) cacheKey with
  | None => (None, c)
  | Some entry =>
      if expired now entry then
        (None, withCache c (JsMap.delete (cache c) cacheKey))
      else
        let m := JsMap.delete (cache c) cacheKey in
        (Some (embedding entry), withCache c (JsMap.set m cacheKey entry))
  end.

(** [set(key, embedding, ttl)]; [now] is the reading of [Date.now()],
    [ttl0 = None] is an omitted argument. *)
Definition set (c : EmbeddingCache) (now : float) (key : CacheKey)
  (emb : Embedding) (ttl0 : option float) : EmbeddingCache :=
  let cacheKey := createCacheKey key in
  let m :=
    if maxSize c <=? JsMap.size (cache c) then
      let firstKey := JsMap.firstKey (cache c) in
      match firstKey with
      | Some k => if truthy firstKey then JsMap.delete (cache c) k
                  else cache c
      | None => cache c
      end
    else cache c in
  let entry :=
    {| embedding := emb;
       createdAt := now;
       ttl := match ttl0 with Some x => x | None => defaultTTL c end |} in
  withCache c (JsMap.set m cacheKey entry).

Definition delete (c : EmbeddingCache) (key : CacheKey)
  : bool * EmbeddingCache :=
  let cacheKey := createCacheKey key in
  (JsMap.has (cache c) cacheKey,
   withCache c (JsMap.delete (cache c) cacheKey)).

Definition clear (c : EmbeddingCache) : EmbeddingCache :=
  withCache c [].

Definition size (c : EmbeddingCache) : nat := JsMap.size (cache c).

Definition has (c : EmbeddingCache) (key : CacheKey) : bool :=
  JsMap.has (cache c) (createCacheKey key).

(** The calls a client can make, each with the clock reading it sees. *)
Inductive Op :=
| OpGet (now : float) (key : CacheKey)
| OpSet (now : float) (key : CacheKey) (emb : Embedding)
        (ttl0 : option float)
| OpDelete (key : CacheKey)
| OpClear.

Definition step (c : EmbeddingCache) (op : Op) : EmbeddingCache :=
  match op with
  | OpGet now key => snd (get c now key)
  | OpSet now key emb ttl0 => set c now key emb ttl0
  | OpDelete key => snd (delete c key)
  | OpClear => clear c
  end.

Definition run (c : EmbeddingCache) (ops : list Op) : EmbeddingCache :=
  fold_left step ops c.

(** One insertion of a run of [set] calls. *)
Record Insertion := {
  ins_now : float;
  ins_key : CacheKey;
  ins_embedding : Embedding;
  ins_ttl : option float
}.

Definition insert (c : EmbeddingCache) (i : Insertion) : EmbeddingCache :=
  set c (ins_now i) (ins_key i) (ins_embedding i) (ins_ttl i).

Definition insertAll (c : EmbeddingCache) (l : list Insertion)
  : EmbeddingCache :=
  fold_left insert l c.

(** The entry that [insert] stores. *)
Definition entryOf (c : EmbeddingCache) (i : Insertion)
  : jsstring * CacheEntry :=
  (createCacheKey (ins_key i),
   {| embedding := ins_embedding i;
      createdAt := ins_now i;
      ttl := match ins_ttl i with Some x => x | None => defaultTTL c end |}).

(** The representation invariant of an instance: the keys of the [Map] are
    pairwise different and come from [createCacheKey], so none is the
    empty string; the instance was built by the constructor, so its
    capacity is positive and its size within it. *)
Definition wf (c : EmbeddingCache) : Prop :=
  NoDup (JsMap.keys (cache c))
  /\ Forall (fun k => k <> []) (JsMap.keys (cache c))
  /\ 1 <= maxSize c
  /\ size c <= maxSize c.

End Cache.

(* ================================================================= *)
(** * src/lib/clip/similarity.ts *)

Module Similarity.

Inductive Error :=
| VectorDimensionsMustMatch (n1 n2 : nat)
| EmbeddingDimensionsMustMatch (n1 n2 : nat)
| ItemsAndScoresMustHaveSameLength.

(** The outcome of a call that may throw. *)
Inductive result (A : Type) :=
| Ok (a : A)
| Throw (e : Error).

Arguments Ok {A} a.
Arguments Throw {A} e.

(** [arr.reduce((acc, val, idx) => f(acc, val, idx), init)], started at
    index [idx]. *)
Fixpoint reduce_idx (A B : Type) (f : B -> A -> nat -> B) (l : list A)
  (idx : nat) (acc : B) : B :=
  match l with
  | [] => acc
  | x :: l' => reduce_idx f l' (S idx) (f acc x idx)
  end.

(** [v[idx]] inside an arithmetic expression: a missing element is
    [undefined], which arithmetic turns into NaN. *)
Definition at_index (v : Embedding) (idx : nat) : float :=
  nth idx v nan.

(** [Math.max(x, y)]: NaN if either argument is NaN, and [+0] is larger
    than [-0]. *)
Definition Math_max (x y : float) : float :=
  if (PrimFloat.is_nan x || PrimFloat.is_nan y)%bool then nan
  else if PrimFloat.ltb x y then y
  else if PrimFloat.ltb y x then x
  else if (PrimFloat.is_zero x && PrimFloat.get_sign x)%bool then y
  else x.

(** [Math.sqrt] is the correctly rounded square root of the engines. *)
Definition computeMagnitude (vector : Embedding) : float :=
  PrimFloat.sqrt
    (reduce_idx (fun sum val _ => (sum + val * val)%float) vector 0 0%float).

Definition computeDotProduct (vec1 vec2 : Embedding) : result float :=
  if negb (List.length vec1 =? List.length vec2) then
    Throw (VectorDimensionsMustMatch (List.length vec1) (List.length vec2))
  else
    Ok (reduce_idx (fun sum val idx => (sum + val * at_index vec2 idx)%float)
                   vec1 0 0%float).

Definition computeCosineSimilarity (embedding1 embedding2 : Embedding)
  : result float :=
  if negb (List.length embedding1 =? List.length embedding2) then
    Throw (EmbeddingDimensionsMustMatch (List.length embedding1)
                                        (List.length embedding2))
  else
    let mag1 := computeMagnitude embedding1 in
    let mag2 := computeMagnitude embedding2 in
    if (PrimFloat.eqb mag1 0 || PrimFloat.eqb mag2 0)%bool then Ok 0%float
    else
      match computeDotProduct embedding1 embedding2 with
      | Throw e => Throw e
      | Ok dotProduct =>
          let similarity := (dotProduct / (mag1 * mag2))%float in
          Ok (Math_max 0 similarity)
      end.

(** [(a, b) => b.score - a.score]: [a] goes before [b] when the difference
    is below zero; a NaN difference counts as zero. *)
Definition bySimilarityDesc (T : Type) (a b : T * float) : bool :=
  PrimFloat.ltb (snd b - snd a)%float 0%float.

Definition sortBySimilarity (T : Type) (items : list T) (scores : list float)
  : result (list (T * float)) :=
  if negb (List.length items =? List.length scores) then
    Throw ItemsAndScoresMustHaveSameLength
  else
    Ok (Js.sort (@bySimilarityDesc T)
          (mapi (fun item idx => (item, at_index scores idx)) items 0)).

End Similarity.

(* ================================================================= *)
(** * Gallery data, as the route and the filter receive it *)

Module Gallery.

(** A tag is an object with a [name] or a plain string. *)
Inductive Tag :=
| TagObject (name : jsstring)
| TagString (s : jsstring).

Record Image := {
  _id : jsstring;
  nsfwLevel : jsstring;
  tags : option (list Tag);
  imageUrl : option jsstring;
  thumbnail : option jsstring
}.

End Gallery.

Import Gallery.

(* ================================================================= *)
(** * src/lib/clip/filter.ts *)

Module ClipFilter.

Import Similarity.

Record ImageSimilarity := {
  imageId : jsstring;
  similarity : float;
  image : Image
}.

Record ClipFilterResult := {
  success : bool;
  topImages : list ImageSimilarity;
  totalProcessed : nat;
  cacheHits : nat;
  error : option Error
}.

Record FilterOptions := {
  topK : option nat;
  minSimilarity : option float
}.

(** What the filter shares with the rest of the process: the global
    embedding cache, how many readings of [Date.now()] were taken, and how
    many times a task was suspended at an [await]. *)
Record World := {
  w_cache : Cache.EmbeddingCache;
  w_tick : nat;
  w_awaits : nat
}.

Section Filter.

(** The successive readings of [Date.now()]. *)
Variable clock : nat -> float.

(** [client.getEmbedding] of the configured provider; it reports failure
    in its response and does not throw. *)
Variable client_getEmbedding : EmbeddingRequest -> EmbeddingResponse.

(** What the other tasks (the sibling folders of [Promise.all], other
    requests) do to the shared state while this task is suspended for the
    n-th time. *)
Variable others : nat -> World -> World.

(** An [await]: the task is suspended and the others run. *)
Definition suspend (w : World) : World :=
  let w' := others (w_awaits w) w in
  {| w_cache := w_cache w'; w_tick := w_tick w';
     w_awaits := S (w_awaits w) |}.

(** [this.cache.get(key)], reading the clock when an entry is found. *)
Definition cacheGet (key : CacheKey) (w : World)
  : option Embedding * World :=
  let (r, c) := Cache.get (w_cache w) (clock (w_tick w)) key in
  (r, {| w_cache := c;
         w_tick := if Cache.has (w_cache w) key then S (w_tick w)
                   else w_tick w;
         w_awaits := w_awaits w |}).

(** [this.cache.set(key, embedding)] *)
Definition cacheSet (key : CacheKey) (emb : Embedding) (w : World) : World :=
  {| w_cache := Cache.set (w_cache w) (clock (w_tick w)) key emb None;
     w_tick := S (w_tick w);
     w_awaits := w_awaits w |}.

(** The common body of [getTextEmbedding] and [getImageEmbedding]; the
    task is suspended while it awaits the provider. *)
Definition getEmbedding (ty : InputType) (content : jsstring) (w : World)
  : option Embedding * World :=
  let key := {| type := ty; value := content |} in
  match cacheGet key w with
  | (Some cached, w1) => (Some cached, w1)
  | (None, w1) =>
      let response :=
        client_getEmbedding {| input := content; req_type := ty |} in
      let w2 := suspend w1 in
      match Types.success response, resp_embedding response with
      | true, Some emb => (Some emb, cacheSet key emb w2)
      | _, _ => (None, w2)
      end
  end.

Definition getTextEmbedding (t : jsstring) : World -> option Embedding * World :=
  getEmbedding text t.

Definition getImageEmbedding (imageUrl : jsstring)
  : World -> option Embedding * World :=
  getEmbedding Types.image imageUrl.

(** The [for] loop over the images; [Throw] is the exception of
    [computeCosineSimilarity], raised at the first mismatching image.  The
    task is suspended at [await this.getImageEmbedding(imageUrl)]. *)
Fixpoint similarityLoop (textEmbedding : Embedding) (minSim : float)
  (images : list Image) (similarities : list ImageSimilarity)
  (hits : nat) (w : World)
  : result (list ImageSimilarity * nat) * World :=
  match images with
  | [] => (Ok (similarities, hits), w)
  | img :: rest =>
      match or_else (imageUrl img) (thumbnail img) with
      | Some url =>
          if truthy (Some url) then
            match getImageEmbedding url w with
            | (None, w1) =>
                similarityLoop textEmbedding minSim rest similarities hits
                               (suspend w1)
            | (Some imageEmbedding, w1) =>
                let (hit, w2) :=
                  cacheGet {| type := Types.image; value := url |}
                           (suspend w1) in
                let hits' :=
                  match hit with Some _ => S hits | None => hits end in
                match computeCosineSimilarity textEmbedding imageEmbedding with
                | Throw e => (Throw e, w2)
                | Ok sim =>
                    let similarities' :=
                      if PrimFloat.leb minSim sim then
                        similarities ++
                          [{| imageId := _id img; similarity := sim;
                              image := img |}]
                      else similarities in
                    similarityLoop textEmbedding minSim rest similarities'
                                   hits' w2
                end
            end
          else similarityLoop textEmbedding minSim rest similarities hits w
      | None => similarityLoop textEmbedding minSim rest similarities hits w
      end
  end.

Definition failed (e : option Error) : ClipFilterResult :=
  {| success := false; topImages := []; totalProcessed := 0;
     cacheHits := 0; error := e |}.

(** [filterImagesBySimilarity(sceneText, images, options)].  A failed text
    embedding is reported without an exception ([error = None] here stands
    for its fixed message); an exception inside the [try] block is
    caught and reported with its own message. *)
Definition filterImagesBySimilarity (sceneText : jsstring)
  (images : list Image) (options : FilterOptions) (w : World)
  : ClipFilterResult * World :=
  let k := match topK options with Some n => n | None => 10 end in
  let minSim :=
    match minSimilarity options with Some x => x | None => 0%float end in
  match getTextEmbedding sceneText w with
  | (None, w1) => (failed None, suspend w1)
  | (Some textEmbedding, w1) =>
      match similarityLoop textEmbedding minSim images [] 0 (suspend w1) with
      | (Throw e, w2) => (failed (Some e), w2)
      | (Ok (similarities, hits), w2) =>
          match sortBySimilarity (List.map image similarities)
                                 (List.map similarity similarities) with
          | Throw e => (failed (Some e), w2)
          | Ok sorted =>
              let top :=
                List.map (fun p => {| imageId := _id (fst p);
                                      similarity := snd p;
                                      image := fst p |})
                         (firstn k sorted) in
              ({| success := true; topImages := top;
                  totalProcessed := List.length similarities;
                  cacheHits := hits; error := None |}, w2)
          end
      end
  end.

End Filter.

End ClipFilter.

(* ================================================================= *)
(** * The unified selection route ([POST]) *)

Module UnifiedSelect.

Import ClipFilter.

(** One element of [characterFolders], with the fields that the route
    reads; the others are carried along untouched by the object spreads. *)
Record CharacterFolder := {
  name : jsstring;
  images : option (list Image)
}.

(** [{ ...folder, matchedCharacterName }] *)
Record MatchedFolder := {
  folder : CharacterFolder;
  matchedCharacterName : jsstring
}.

(** The parsed answer of Stage 1. *)
Record NsfwAnalysis := {
  characters : option (list jsstring);
  sceneSummary : option jsstring;
  clipQuery : option jsstring;
  appropriateNsfwLevel : option jsstring;
  reasoning : option jsstring
}.

(** The environment variables that Stage 2.5 reads. *)
Record Env := {
  CLIP_PROVIDER : option jsstring;
  LOCAL_CLIP_ENDPOINT : option jsstring;
  REPLICATE_API_KEY : option jsstring
}.

(** One element of the [characters] array that the Stage 3 model returns. *)
Record CharacterResult := {
  res_name : jsstring;
  res_folderName : jsstring;
  res_selectedImageId : option jsstring;
  res_status : jsstring
}.

(** What the Stage 3 call comes to, after [fetch], [JSON.parse] and the
    recovery attempt; [Malformed] is a body without [choices], on which
    the route throws into its outer [catch]. *)
Inductive Stage3Outcome :=
| HttpError (status : nat)
| Malformed
| Unparseable
| NoCharactersArray
| Characters (cs : list CharacterResult).

Inductive Response :=
| Success (characters : list CharacterResult)
| Failure (status : nat) (error : jsstring).

Definition withImages (f : MatchedFolder) (imgs : list Image) : MatchedFolder :=
  {| folder := {| name := name (folder f); images := Some imgs |};
     matchedCharacterName := matchedCharacterName f |}.

(** [folder.images || []] *)
Definition imagesOf (f : MatchedFolder) : list Image :=
  match images (folder f) with
  | Some l => l
  | None => []
  end.

(** The four labels. *)
Inductive NsfwLevel := general | sensitive | questionable | explicit.

Definition levelName (l : NsfwLevel) : jsstring :=
  match l with
  | general => lit "general"
  | sensitive => lit "sensitive"
  | questionable => lit "questionable"
  | explicit => lit "explicit"
  end.

(** The allowed set of a level, in the words of the specification: general
    and sensitive share one bucket, questionable and explicit are each
    their own. *)
Definition allowedSet (l : NsfwLevel) : list NsfwLevel :=
  match l with
  | general | sensitive => [general; sensitive]
  | questionable => [questionable]
  | explicit => [explicit]
  end.

(** An image label belongs to a set of levels. *)
Definition labelIn (s : list NsfwLevel) (label : jsstring) : bool :=
  existsb (fun l => Js.eqb (levelName l) label) s.

Section Route.

Variable toLowerCase : jsstring -> jsstring.
Variable clock : nat -> float.
Variable client_getEmbedding : EmbeddingRequest -> EmbeddingResponse.
Variable others : nat -> World -> World.

(** The Stage 3 collaborator, as a function of the prompt it is sent. *)
Variable stage3 : jsstring -> Stage3Outcome.

(** [nsfwAnalysis.appropriateNsfwLevel || 'general'] *)
Definition determinedLevel (a : NsfwAnalysis) : jsstring :=
  match or_else (appropriateNsfwLevel a) (Some (lit "general")) with
  | Some l => l
  | None => lit "general"
  end.

(** [nsfwAnalysis.characters || []] *)
Definition extractedCharacters (a : NsfwAnalysis) : list jsstring :=
  match characters a with
  | Some l => l
  | None => []
  end.

(** Stage 2-1: the folders that some extracted character matches. *)
Definition matchFolders (characterFolders : list CharacterFolder)
  (extracted : list jsstring) : list MatchedFolder :=
  flat_map
    (fun f =>
       let matchedChar :=
         List.find
           (fun charName =>
              let folderNameLower := toLowerCase (name f) in
              let charNameLower := toLowerCase charName in
              Js.eqb folderNameLower charNameLower
              || includes folderNameLower charNameLower
              || includes charNameLower folderNameLower)
           extracted in
       match matchedChar with
       | Some c => if truthy matchedChar
                   then [{| folder := f; matchedCharacterName := c |}]
                   else []
       | None => []
       end)
    characterFolders.

(** The [allowedLevels] array of Stage 2-2. *)
Definition allowedLevels (level : jsstring) : list jsstring :=
  if (Js.eqb level (lit "general") || Js.eqb level (lit "sensitive"))%bool
  then [lit "general"; lit "sensitive"]
  else [level].

(** Stage 2-2 on one folder. *)
Definition filterFolder (level : jsstring) (f : MatchedFolder)
  : MatchedFolder :=
  let filteredImages :=
    List.filter (fun img => array_includes (allowedLevels level)
                                           (nsfwLevel img))
                (imagesOf f) in
  withImages f filteredImages.

Definition filterByNsfwLevel (level : jsstring) (fs : list MatchedFolder)
  : list MatchedFolder :=
  List.map (filterFolder level) fs.

(** [clipEnabled] of Stage 2.5. *)
Definition clipEnabled (env : Env) : bool :=
  let clipProvider :=
    or_else (CLIP_PROVIDER env) (Some (lit "local")) in
  let clipEndpoint :=
    or_else (LOCAL_CLIP_ENDPOINT env) (Some (lit "http://localhost:8000")) in
  let clipApiKey := or_else (REPLICATE_API_KEY env) (Some []) in
  let provider p := match clipProvider with
                    | Some x => Js.eqb x (lit p)
                    | None => false
                    end in
  (provider "local"%string && truthy clipEndpoint
   || provider "replicate"%string && truthy clipApiKey
   || provider "openai"%string && truthy clipApiKey)%bool.

(** Stage 2.5 on one folder. *)
Definition clipFolder (a : NsfwAnalysis) (f : MatchedFolder) (w : World)
  : MatchedFolder * World :=
  let imgs := imagesOf f in
  if List.length imgs <=? 10 then (f, w)
  else
    let query := template (or_else (clipQuery a) (sceneSummary a)) in
    let (clipResult, w1) :=
      filterImagesBySimilarity clock client_getEmbedding others query imgs
        {| topK := Some 10; minSimilarity := Some 0%float |} w in
    let w' := suspend others w1 in
    if (success clipResult && (0 <? List.length (topImages clipResult)))%bool
    then (withImages f (List.map image (topImages clipResult)), w')
    else (f, w').

(** The folders of Stage 2.5.  [Promise.all] starts one task per folder;
    the tasks share the embedding cache only and run interleaved at their
    suspension points.  Here they are taken one after the other, each
    exposed at its suspension points to [others], which stands for any
    such interleaving. *)
Fixpoint clipFolders (a : NsfwAnalysis) (fs : list MatchedFolder) (w : World)
  : list MatchedFolder * World :=
  match fs with
  | [] => ([], w)
  | f :: rest =>
      let (f', w1) := clipFolder a f w in
      let (rest', w2) := clipFolders a rest w1 in
      (f' :: rest', w2)
  end.

(** Stage 2.5. *)
Definition clipStage (env : Env) (a : NsfwAnalysis)
  (filtered : list MatchedFolder) (w : World) : list MatchedFolder * World :=
  if (clipEnabled env
      && truthy (or_else (clipQuery a) (sceneSummary a)))%bool
  then clipFolders a filtered w
  else (filtered, w).

(** A double quote and a line break of a template literal. *)
Definition dq : jsstring := [34%N].
Definition nl : jsstring := [10%N].
Definition quoted (s : jsstring) : jsstring := dq ++ s ++ dq.

(** [typeof t === 'object' ? t.name : t] *)
Definition tagName (t : Tag) : jsstring :=
  match t with
  | TagObject n => n
  | TagString s => s
  end.

(** The text of one image inside [buildUnifiedPrompt]. *)
Definition imageText (img : Image) (imgIdx : nat) : jsstring :=
  lit "    Image " ++ Js.of_nat (imgIdx + 1) ++ lit " (ID: " ++ _id img
  ++ lit "):" ++ nl ++ lit "      Tags: "
  ++ join (lit ", ")
       (List.map tagName (match tags img with Some l => l | None => [] end)).

(** The text of one folder inside [buildUnifiedPrompt];
    [folder.images?.length || 0] is the number of its images. *)
Definition folderText (f : MatchedFolder) : jsstring :=
  let imagesText := join (nl ++ nl) (mapi imageText (imagesOf f) 0) in
  lit "Character: " ++ quoted (matchedCharacterName f) ++ lit " (Folder: "
  ++ quoted (name (folder f)) ++ lit ")" ++ nl
  ++ lit "  Total Images: " ++ Js.of_nat (List.length (imagesOf f))
  ++ nl ++ nl ++ imagesText.

(** What precedes the folders in the prompt. *)
Definition promptHead (a : NsfwAnalysis) : jsstring :=
  join nl
    [ lit "# CHARACTER IMAGE SELECTION";
      [];
      lit "## SCENE CONTEXT:";
      template (sceneSummary a);
      [];
      lit "NSFW Level: " ++ template (appropriateNsfwLevel a);
      lit "Reasoning: " ++ template (reasoning a);
      [];
      lit "## AVAILABLE CHARACTERS AND IMAGES (already matched and filtered):";
      [] ].

(** What follows the folders in the prompt. *)
Definition promptTail : jsstring :=
  join nl
    [ [];
      [];
      lit "## YOUR TASK:";
      [];
      lit "For EACH character above, select ONE best image based on:";
      lit "- Scene context and what this character is doing";
      lit "- Mood and atmosphere";
      lit "- Visual tags matching the scene";
      [];
      lit "## OUTPUT FORMAT:";
      lit "Return JSON:";
      lit "{";
      lit "  " ++ quoted (lit "characters") ++ lit ": [";
      lit "    {";
      lit "      " ++ quoted (lit "name") ++ lit ": "
        ++ quoted (lit "character name") ++ lit ",";
      lit "      " ++ quoted (lit "folderName") ++ lit ": "
        ++ quoted (lit "folder name") ++ lit ",";
      lit "      " ++ quoted (lit "selectedImageId") ++ lit ": "
        ++ quoted (lit "image ID") ++ lit ",";
      lit "      " ++ quoted (lit "selectedScore") ++ lit ": 85,";
      lit "      " ++ quoted (lit "selectionReason") ++ lit ": "
        ++ quoted (lit "why this image fits the scene") ++ lit ",";
      lit "      " ++ quoted (lit "status") ++ lit ": "
        ++ quoted (lit "matched");
      lit "    }";
      lit "  ]";
      lit "}";
      [];
      lit "IMPORTANT:";
      lit "- All characters have already been matched to folders";
      lit "- If a character has 0 images, set status to "
        ++ quoted (lit "unmatched") ++ lit " and omit selectedImageId";
      lit "- Return results for ALL characters provided";
      [];
      lit "---";
      [];
      lit "Now select the most appropriate image for each character from the filtered images." ].

(** [buildUnifiedPrompt(text, characterFolders, sceneAnalysis)]; the
    [text] argument does not occur in the template. *)
Definition buildUnifiedPrompt (characterFolders : list MatchedFolder)
  (sceneAnalysis : NsfwAnalysis) : jsstring :=
  let foldersText := join (nl ++ nl) (List.map folderText characterFolders) in
  promptHead sceneAnalysis ++ foldersText ++ promptTail.

(** What the Stage 1 call comes to, after [fetch] and [JSON.parse];
    [Stage1Malformed] is a body without [choices]. *)
Inductive Stage1Outcome :=
| Stage1HttpError (status : nat)
| Stage1Malformed
| Stage1Unparseable
| Analysis (a : NsfwAnalysis).

(** The Stage 1 collaborator, as a function of the conversation text. *)
Variable stage1 : jsstring -> Stage1Outcome.

(** What a request leaves behind: the response, the prompt sent to the
    Stage 3 collaborator if it was called, the folders that prompt was
    built from, and the shared state. *)
Record Outcome := {
  response : Response;
  stage3Prompt : option jsstring;
  stage3Folders : list MatchedFolder;
  world : World
}.


(** The response made of the Stage 3 answer: its [characters] array is
    passed on as it is. *)
Definition responseOf (o : Stage3Outcome) : Response :=
  match o with
  | HttpError status =>
      Failure status (lit "OpenRouter API error: " ++ Js.of_nat status)
  | Malformed => Failure 500 (lit "Internal server error")
  | Unparseable => Failure 500 (lit "Failed to parse LLM response")
  | NoCharactersArray =>
      Failure 500 (lit "Invalid response structure: missing characters array")
  | Characters cs => Success cs
  end.

(** The stages after a successful Stage 1. *)
Definition selectFrom (env : Env) (characterFolders : list CharacterFolder)
  (nsfwAnalysis : NsfwAnalysis) (w : World) : Outcome :=
  let appropriateLevel := determinedLevel nsfwAnalysis in
  let matchedFolders :=
    matchFolders characterFolders (extractedCharacters nsfwAnalysis) in
  let filteredCharacterFolders :=
    filterByNsfwLevel appropriateLevel matchedFolders in
  let (clipFilteredFolders, w') :=
    clipStage env nsfwAnalysis filteredCharacterFolders w in
  let prompt := buildUnifiedPrompt clipFilteredFolders nsfwAnalysis in
  {| response := responseOf (stage3 prompt); stage3Prompt := Some prompt;
     stage3Folders := clipFilteredFolders; world := w' |}.


End Route.

End UnifiedSelect.

(* ================================================================= *)
(** * Definitions used to state the properties *)

Module SpecDefs.

Import UnifiedSelect.





(** A gallery named "a" and a query of four hundred letters "b". *)
Definition gallery_a : FolderMatcher.FolderInfo :=
  {| FolderMatcher._id := lit "g3"; FolderMatcher.name := lit "a" |}.

Definition long_query : jsstring := List.repeat 98%N 400.

(** Example keys and caches of capacity two. *)
Definition key_a : CacheKey := {| type := Types.image; value := lit "a" |}.
Definition key_b : CacheKey := {| type := Types.image; value := lit "b" |}.
Definition key_c : CacheKey := {| type := Types.image; value := lit "c" |}.
Definition key_d : CacheKey := {| type := Types.image; value := lit "d" |}.

Definition cache_empty2 : Cache.EmbeddingCache :=
  Cache.new {| Cache.opt_maxSize := Some 2; Cache.opt_defaultTTL := None |}.

Definition cache_empty3 : Cache.EmbeddingCache :=
  Cache.new {| Cache.opt_maxSize := Some 3; Cache.opt_defaultTTL := None |}.

(** [set(a)] at time 0 with the default time to live of 3600 seconds. *)
Definition cache_a : Cache.EmbeddingCache :=
  Cache.set cache_empty2 0%float key_a [1%float] None.

(** [set(a)] then [set(b)]: the cache is full. *)
Definition cache_ab : Cache.EmbeddingCache :=
  Cache.set cache_a 0%float key_b [2%float] None.

Definition insertion (now : float) (key : CacheKey) : Cache.Insertion :=
  {| Cache.ins_now := now; Cache.ins_key := key;
     Cache.ins_embedding := [3%float]; Cache.ins_ttl := None |}.

(** The string keys of a run of insertions. *)
Definition insertedKeys (l : list Cache.Insertion) : list jsstring :=
  List.map (fun i => Cache.createCacheKey (Cache.ins_key i)) l.

(** The provider answers a request with the vector [e]. *)
Definition serves (client : EmbeddingRequest -> EmbeddingResponse)
  (ty : InputType) (content : jsstring) (e : Embedding) : Prop :=
  Types.success (client {| input := content; req_type := ty |}) = true
  /\ resp_embedding (client {| input := content; req_type := ty |}) = Some e.

(** Every vector in the shared cache is the one the provider gives for
    its key. *)
Definition cacheAgrees (client : EmbeddingRequest -> EmbeddingResponse)
  (w : ClipFilter.World) : Prop :=
  Forall
    (fun p => forall key,
         Cache.createCacheKey key = fst p ->
         serves client (type key) (value key) (embedding (snd p)))
    (Cache.cache (ClipFilter.w_cache w)).

(** [image.imageUrl || image.thumbnail], when it is not empty. *)
Definition urlOf (img : Image) : option jsstring :=
  match or_else (imageUrl img) (thumbnail img) with
  | Some url => if truthy (Some url) then Some url else None
  | None => None
  end.






(** The character and the folder name that a matched folder stands for. *)
Definition entity (f : MatchedFolder) : jsstring * jsstring :=
  (matchedCharacterName f, name (folder f)).


(** Example data: images, folders, a provider and the parts of a
    request. *)
Definition image_of (id label : string) (url : option jsstring) : Image :=
  {| _id := lit id; nsfwLevel := lit label; tags := None;
     imageUrl := url; thumbnail := None |}.

Definition folder_of (n : string) (imgs : list Image) : MatchedFolder :=
  {| folder := {| name := lit n; images := Some imgs |};
     matchedCharacterName := lit n |}.

Definition folder_mixed : MatchedFolder :=
  folder_of "A"
    [ image_of "i1" "general" None;
      image_of "i2" "sensitive" None;
      image_of "i3" "explicit" None ].

Fixpoint float_of_nat (n : nat) : float :=
  match n with
  | 0 => 0%float
  | S k => (float_of_nat k + 1)%float
  end.

(** A provider that answers every request: the vector (1, 0) for a text
    and (1, n) for an image whose URL has n code units. *)
Definition client_by_length (r : EmbeddingRequest) : EmbeddingResponse :=
  {| Types.success := true;
     resp_embedding :=
       Some (match req_type r with
             | text => [1%float; 0%float]
             | Types.image =>
                 [1%float; float_of_nat (List.length (input r))]
             end);
     Types.error := None |}.

(** The image whose URL is [n] letters "u". *)
Definition image_n (n : nat) : Image :=
  {| _id := Js.of_nat n; nsfwLevel := lit "general"; tags := None;
     imageUrl := Some (List.repeat 117%N n); thumbnail := None |}.

(** Fifteen images with URLs of 15 down to 1 letters. *)
Definition images15 : list Image :=
  List.map (fun k => image_n (15 - k)) (List.seq 0 15).


Definition images5 : list Image :=
  List.map (fun k => image_n (5 - k)) (List.seq 0 5).

Definition analysis_general : NsfwAnalysis :=
  {| characters := Some [lit "A"];
     sceneSummary := Some (lit "a quiet walk");
     clipQuery := Some (lit "walk in a park");
     appropriateNsfwLevel := Some (lit "general");
     reasoning := Some (lit "daily life") |}.


Definition env_default : Env :=
  {| CLIP_PROVIDER := None; LOCAL_CLIP_ENDPOINT := None;
     REPLICATE_API_KEY := None |}.

Definition clock_zero (n : nat) : float := 0%float.

Definition world_empty : ClipFilter.World :=
  {| ClipFilter.w_cache :=
       Cache.new {| Cache.opt_maxSize := Some 1000;
                    Cache.opt_defaultTTL := Some 3600%float |};
     ClipFilter.w_tick := 0;
     ClipFilter.w_awaits := 0 |}.

(** No other task touches the shared state. *)
Definition no_others (n : nat) (w : ClipFilter.World) : ClipFilter.World :=
  w.


(** A Stage 3 collaborator that answers with no character at all. *)
Definition stage3_silent (prompt : jsstring) : Stage3Outcome :=
  Characters [].

(** A gallery named "A" whose only image is labelled explicit. *)
Definition gallery_explicit_only : CharacterFolder :=
  {| name := lit "A";
     images := Some [image_of "x1" "explicit" None] |}.

(** The line of the prompt that hands the folders without images over to
    the Stage 3 collaborator. *)
Definition unmatchedInstruction : jsstring :=
  lit "- If a character has 0 images, set status to "
  ++ quoted (lit "unmatched") ++ lit " and omit selectedImageId".

(** The text of a folder without images in the Stage 3 prompt. *)
Definition emptyFolderText (f : MatchedFolder) : jsstring :=
  lit "Character: " ++ quoted (matchedCharacterName f) ++ lit " (Folder: "
  ++ quoted (name (folder f)) ++ lit ")" ++ nl
  ++ lit "  Total Images: 0" ++ nl ++ nl.

(** What the eviction step of [set] leaves of the [Map] of a well-formed
    cache: the first entry goes when the cache is full. *)
Definition afterEviction (c : Cache.EmbeddingCache) : JsMap.t CacheEntry :=
  if Cache.maxSize c <=? Cache.size c then List.tl (Cache.cache c)
  else Cache.cache c.

End SpecDefs.

(* ================================================================= *)
(** * Further string operations *)

Module JsText.

Fixpoint trimStart (s : jsstring) : jsstring :=
  match s with
  | [] => []
  | c :: s' => if is_space c then trimStart s' else s
  end.

(** [s.trim()]: the white space of [trim] is the class [\s]. *)
Definition trim (s : jsstring) : jsstring :=
  List.rev (trimStart (List.rev (trimStart s))).

(** [s.replace(/\s+/g, '')] *)
Definition removeWhitespace (s : jsstring) : jsstring :=
  List.filter (fun c => negb (is_space c)) s.

End JsText.

(* ================================================================= *)
(** * background/folder-matcher.js, the search around [selectBestMatch] *)

Module FolderSearch.

Import FolderMatcher.

(** A value of the mapping table: a string, an object with its
    [folderName] when that is a string, or anything else. *)
Inductive MappingValue :=
| ValString (s : jsstring)
| ValObject (folderName : option jsstring)
| ValOther.

(** The mapping table is a plain object, given by its own entries in the
    order of [Object.entries].  A property that is only inherited is a
    function or the prototype object, for which [extractFolderName] is
    [null], so looking up own entries is enough. *)
Definition Mappings := list (jsstring * MappingValue).

(** [extractFolderName(value)]; [None] is [null]. *)
Definition extractFolderName (value : MappingValue) : option jsstring :=
  match value with
  | ValString s => Some s
  | ValObject folderName => if truthy folderName then folderName else None
  | ValOther => None
  end.

(** Three-valued [folderId] of a character. *)
Inductive FolderId :=
| Undefined
| Null
| Id (s : jsstring).

Record Character := {
  char_name : jsstring;
  folderId : FolderId
}.

Section Search.

Variable toLowerCase : jsstring -> jsstring.

(** [searchFolder(name, projectUrl, parentId)]: the folders the server
    finds for a name, or [None] for [null], which stands for every way the
    search fails as well.  The server is taken to answer a name alike
    each time it is asked during one matching. *)
Variable searchFolder : jsstring -> option (list FolderInfo).

(** [applyMapping(characterName, mappings)]; [mappings] is [None] when it
    is missing or not an object. *)
Definition applyMapping (characterName : jsstring)
  (mappings : option Mappings) : jsstring :=
  match mappings with
  | None => characterName
  | Some m =>
      let exact :=
        match JsMap.get m characterName with
        | Some v => let folderName := extractFolderName v in
                    if truthy folderName then folderName else None
        | None => None
        end in
      match exact with
      | Some folderName => folderName
      | None =>
          let lowerName := toLowerCase characterName in
          let mappedEntry :=
            List.find (fun e => Js.eqb (toLowerCase (fst e)) lowerName) m in
          match mappedEntry with
          | Some e =>
              let folderName := extractFolderName (snd e) in
              match folderName with
              | Some fn => if truthy folderName then fn else characterName
              | None => characterName
              end
          | None => characterName
          end
      end
  end.

(** One search step of [findFolderByName]: the identifier of the best
    match among the folders found for [query], scored against
    [mappedName]. *)
Definition tryMatch (query mappedName : jsstring) : option jsstring :=
  match searchFolder query with
  | Some (f :: fs) =>
      match selectBestMatch toLowerCase (Some (f :: fs)) mappedName with
      | Some bestMatch => Some (_id bestMatch)
      | None => None
      end
  | _ => None
  end.

(** [(a, b) => b.length - a.length] *)
Definition byLengthDesc (a b : jsstring) : bool :=
  (Z.of_nat (List.length b) - Z.of_nat (List.length a) <? 0)%Z.

(** The words of step 3: at least two code units long, longest first. *)
Definition wordsToTry (mappedName : jsstring) : list jsstring :=
  Js.sort byLengthDesc
    (List.filter (fun word => 2 <=? List.length word) (split_ws mappedName)).

(** The [for] loop over the words. *)
Fixpoint tryWords (words : list jsstring) (mappedName : jsstring)
  : option jsstring :=
  match words with
  | [] => None
  | word :: rest =>
      match tryMatch word mappedName with
      | Some id => Some id
      | None => tryWords rest mappedName
      end
  end.

(** [findFolderByName(characterName, projectUrl, parentFolderId,
    mappings)]; the result [None] is [null]. *)
Definition findFolderByName (characterName : jsstring)
  (mappings : option Mappings) : option jsstring :=
  let mappedName := applyMapping characterName mappings in
  match tryMatch mappedName mappedName with
  | Some id => Some id
  | None =>
      let normalizedName :=
        JsText.removeWhitespace (toLowerCase (JsText.trim mappedName)) in
      let second :=
        if negb (Js.eqb normalizedName (toLowerCase mappedName))
        then tryMatch normalizedName mappedName
        else None in
      match second with
      | Some id => Some id
      | None => tryWords (wordsToTry mappedName) mappedName
      end
  end.

(** [matchCharacterFolders]: [Promise.all] keeps the order of the
    characters; the [catch] branch, which gives [null], is not reached
    when the names of the characters and of the folders found are
    strings, as they are here. *)
Definition matchCharacterFolders (characters : list Character)
  (mappings : option Mappings) : list Character :=
  List.map
    (fun character =>
       {| char_name := char_name character;
          folderId := match findFolderByName (char_name character) mappings with
                      | Some id => Id id
                      | None => Null
                      end |})
    characters.

End Search.

(** [char.folderId !== null] *)
Definition notNull (i : FolderId) : bool :=
  match i with
  | Null => false
  | _ => true
  end.

Definition filterMatchedCharacters (characters : list Character)
  : list Character :=
  List.filter (fun char => notNull (folderId char)) characters.

Definition getUnmatchedCharacterNames (characters : list Character)
  : list jsstring :=
  List.map char_name
    (List.filter (fun char => negb (notNull (folderId char))) characters).

End FolderSearch.

(* ================================================================= *)
(** * background/cache.js *)

Module LRUCache.

Section Cache.
Variable V : Type.

Record t := {
  capacity : nat;
  cache : JsMap.t V
}.

(** [new LRUCache(capacity)], the default 100 standing for a missing
    argument only. *)
Definition new (capacity0 : option nat) : t :=
  {| capacity := match capacity0 with Some n => n | None => 100 end;
     cache := [] |}.

Definition withCache (c : t) (m : JsMap.t V) : t :=
  {| capacity := capacity c; cache := m |}.

(** [get(key)]; [None] is [null]. *)
Definition get (c : t) (key : jsstring) : option V * t :=
  match JsMap.get (cache c) key with
  | None => (None, c)
  | Some value =>
      (Some value,
       withCache c (JsMap.set (JsMap.delete (cache c) key) key value))
  end.

(** [set(key, value)]; on an empty [Map] the first key is [undefined] and
    deleting it does nothing. *)
Definition set (c : t) (key : jsstring) (value : V) : t :=
  let m :=
    if JsMap.has (cache c) key then JsMap.delete (cache c) key
    else if capacity c <=? JsMap.size (cache c) then
      match JsMap.firstKey (cache c) with
      | Some firstKey => JsMap.delete (cache c) firstKey
      | None => cache c
      end
    else cache c in
  withCache c (JsMap.set m key value).

Definition clear (c : t) : t := withCache c [].

Definition size (c : t) : nat := JsMap.size (cache c).

Definition has (c : t) (key : jsstring) : bool := JsMap.has (cache c) key.

Definition delete (c : t) (key : jsstring) : bool * t :=
  (JsMap.has (cache c) key, withCache c (JsMap.delete (cache c) key)).

Inductive Op :=
| OpGet (key : jsstring)
| OpSet (key : jsstring) (value : V)
| OpDelete (key : jsstring)
| OpClear.

Definition step (c : t) (op : Op) : t :=
  match op with
  | OpGet key => snd (get c key)
  | OpSet key value => set c key value
  | OpDelete key => snd (delete c key)
  | OpClear => clear c
  end.

Definition run (c : t) (ops : list Op) : t := fold_left step ops c.

End Cache.

End LRUCache.

(* ================================================================= *)
(** * src/lib/clip/similarity.ts, the batch function *)

Module SimilarityBatch.

Import Similarity.

(** [candidateEmbeddings.map(c => computeCosineSimilarity(query, c))]:
    the first exception ends the call. *)
Fixpoint computeBatchSimilarity (queryEmbedding : Embedding)
  (candidateEmbeddings : list Embedding) : result (list float) :=
  match candidateEmbeddings with
  | [] => Ok []
  | candidateEmb :: rest =>
      match computeCosineSimilarity queryEmbedding candidateEmb with
      | Throw e => Throw e
      | Ok s =>
          match computeBatchSimilarity queryEmbedding rest with
          | Throw e => Throw e
          | Ok l => Ok (s :: l)
          end
      end
  end.

End SimilarityBatch.

(* ================================================================= *)
(** * src/lib/clip/client.ts *)

Module ClipClient.

(** What one poll of a prediction answers: a terminal status, any other
    status, or no answer at all ([fetch] or [json] rejects with an error
    of the given message). *)
Inductive PollAnswer :=
| Succeeded (output : Embedding)
| Failed (error : jsstring)
| Pending
| Rejected (message : jsstring).

(** How [pollForResult] ends. *)
Inductive PollResult :=
| Returned (embedding : Embedding)
| ThrowFailed (error : jsstring)
| ThrowTimeout
| ThrowRejected (message : jsstring).

(** What the request that creates the prediction answers. *)
Inductive CreateAnswer :=
| CreateOk
| CreateNotOk (status : nat) (body : jsstring)
| CreateRejected (message : jsstring).

Section Replicate.

(** The answer to the poll number [attempt], counted from 0. *)
Variable pollAnswer : nat -> PollAnswer.

(** The [for] loop of [pollForResult] from [attempt] on, with
    [remaining] rounds left; the second component counts the polls
    made. *)
Fixpoint pollFrom (attempt remaining : nat) : PollResult * nat :=
  match remaining with
  | 0 => (ThrowTimeout, 0)
  | S remaining' =>
      match pollAnswer attempt with
      | Succeeded output => (Returned output, 1)
      | Failed error => (ThrowFailed error, 1)
      | Rejected message => (ThrowRejected message, 1)
      | Pending =>
          let (r, n) := pollFrom (S attempt) remaining' in
          (r, S n)
      end
  end.

Definition maxAttempts : nat := 30.

Definition pollForResult : PollResult * nat := pollFrom 0 maxAttempts.

(** [ReplicateClipClient.getEmbedding]: every exception is caught and
    reported in the response. *)
Definition replicateGetEmbedding (create : CreateAnswer)
  : EmbeddingResponse :=
  match create with
  | CreateNotOk status body =>
      {| Types.success := false; resp_embedding := None;
         Types.error := Some (lit "Replicate API error: " ++ Js.of_nat status
                              ++ lit " - " ++ body) |}
  | CreateRejected message =>
      {| Types.success := false; resp_embedding := None;
         Types.error := Some (lit "CLIP embedding failed: " ++ message) |}
  | CreateOk =>
      match fst pollForResult with
      | Returned embedding =>
          {| Types.success := true; resp_embedding := Some embedding;
             Types.error := None |}
      | ThrowFailed error =>
          {| Types.success := false; resp_embedding := None;
             Types.error :=
               Some (lit "CLIP embedding failed: Replicate prediction failed: "
                     ++ error) |}
      | ThrowTimeout =>
          {| Types.success := false; resp_embedding := None;
             Types.error :=
               Some (lit "CLIP embedding failed: Replicate prediction timeout") |}
      | ThrowRejected message =>
          {| Types.success := false; resp_embedding := None;
             Types.error := Some (lit "CLIP embedding failed: " ++ message) |}
      end
  end.

End Replicate.

Section OpenAI.

(** What the embeddings request of the OpenAI client comes to for a
    text. *)
Variable textAnswer : jsstring -> EmbeddingResponse.

(** [OpenAIClipClient.getEmbedding]: an image is refused before any
    request is made. *)
Definition openaiGetEmbedding (request : EmbeddingRequest)
  : EmbeddingResponse :=
  match req_type request with
  | Types.image =>
      {| Types.success := false; resp_embedding := None;
         Types.error :=
           Some (lit "OpenAI does not support image embeddings via API") |}
  | text => textAnswer (input request)
  end.

End OpenAI.

End ClipClient.

(* ================================================================= *)
(** * Definitions used to state the further properties *)

Module MoreDefs.

Import FolderMatcher FolderSearch.

(** The names that [findFolderByName] searches for, in order: the mapped
    name, its normalized form when that differs from the lower-cased
    name, then the words. *)
Definition queries (toLowerCase : jsstring -> jsstring)
  (mappedName : jsstring) : list jsstring :=
  let normalizedName :=
    JsText.removeWhitespace (toLowerCase (JsText.trim mappedName)) in
  [mappedName]
  ++ (if negb (Js.eqb normalizedName (toLowerCase mappedName))
      then [normalizedName] else [])
  ++ wordsToTry mappedName.

(** A search that finds no folder. *)
Definition findsNothing (searchFolder : jsstring -> option (list FolderInfo))
  (query : jsstring) : Prop :=
  searchFolder query = None \/ searchFolder query = Some [].

(** [x] comes before [y] in [l]. *)
Definition precedes (A : Type) (x y : A) (l : list A) : Prop :=
  exists l1 l2 l3, l = l1 ++ x :: l2 ++ y :: l3.

(** The test of Stage 2-1: the folder name and the character name are
    equal or one contains the other, in lower case. *)
Definition nameMatches (toLowerCase : jsstring -> jsstring)
  (f : UnifiedSelect.CharacterFolder) (charName : jsstring) : bool :=
  let folderNameLower := toLowerCase (UnifiedSelect.name f) in
  let charNameLower := toLowerCase charName in
  (Js.eqb folderNameLower charNameLower
   || includes folderNameLower charNameLower
   || includes charNameLower folderNameLower)%bool.


(** An entry of the filter's result was made from one of the images: it
    carries that image and its identifier, its similarity reached the
    threshold, and the image has a URL. *)
Definition selectedFrom (minSim : float) (imgs : list Image)
  (s : ClipFilter.ImageSimilarity) : Prop :=
  In (ClipFilter.image s) imgs
  /\ ClipFilter.imageId s = Gallery._id (ClipFilter.image s)
  /\ PrimFloat.leb minSim (ClipFilter.similarity s) = true
  /\ SpecDefs.urlOf (ClipFilter.image s) <> None.

(** The options of the filter with their defaults. *)
Definition topKOf (options : ClipFilter.FilterOptions) : nat :=
  match ClipFilter.topK options with Some n => n | None => 10 end.

Definition minSimilarityOf (options : ClipFilter.FilterOptions) : float :=
  match ClipFilter.minSimilarity options with
  | Some x => x
  | None => 0%float
  end.

(** What Stage 2.5 may make of a folder: the folder itself, or the same
    folder with between one and ten of its images, each of which has a
    URL. *)
Definition selection (f f' : UnifiedSelect.MatchedFolder) : Prop :=
  SpecDefs.entity f' = SpecDefs.entity f
  /\ incl (UnifiedSelect.imagesOf f') (UnifiedSelect.imagesOf f)
  /\ (f' = f
      \/ (10 < List.length (UnifiedSelect.imagesOf f)
          /\ 0 < List.length (UnifiedSelect.imagesOf f') <= 10
          /\ Forall (fun img => SpecDefs.urlOf img <> None)
                    (UnifiedSelect.imagesOf f'))).

(** The provider gives no vector for any image. *)
Definition servesNoImage (client : EmbeddingRequest -> EmbeddingResponse)
  : Prop :=
  forall url e, ~ SpecDefs.serves client Types.image url e.

(** A folder offered to Stage 3 descends from one of the folders of the
    request: it has its name, the character matches that name, and its
    images are images of that folder with an allowed label. *)
Definition offeredFrom (toLowerCase : jsstring -> jsstring)
  (characterFolders : list UnifiedSelect.CharacterFolder)
  (a : UnifiedSelect.NsfwAnalysis) (m : UnifiedSelect.MatchedFolder) : Prop :=
  exists f,
    In f characterFolders
    /\ UnifiedSelect.name (UnifiedSelect.folder m) = UnifiedSelect.name f
    /\ In (UnifiedSelect.matchedCharacterName m)
          (UnifiedSelect.extractedCharacters a)
    /\ nameMatches toLowerCase f (UnifiedSelect.matchedCharacterName m) = true
    /\ Forall
         (fun img =>
            In img (match UnifiedSelect.images f with
                    | Some l => l
                    | None => []
                    end)
            /\ array_includes
                 (UnifiedSelect.allowedLevels (UnifiedSelect.determinedLevel a))
                 (Gallery.nsfwLevel img) = true)
         (UnifiedSelect.imagesOf m).

(** The entry that [set] stores. *)
Definition storedEntry (c : Cache.EmbeddingCache) (now : float)
  (emb : Embedding) (ttl0 : option float) : CacheEntry :=
  {| embedding := emb; createdAt := now;
     ttl := match ttl0 with Some x => x | None => Cache.defaultTTL c end |}.

(** How [pollForResult] ends on an answer that is not pending. *)
Definition endOf (a : ClipClient.PollAnswer) : ClipClient.PollResult :=
  match a with
  | ClipClient.Succeeded output => ClipClient.Returned output
  | ClipClient.Failed error => ClipClient.ThrowFailed error
  | ClipClient.Rejected message => ClipClient.ThrowRejected message
  | ClipClient.Pending => ClipClient.ThrowTimeout
  end.

(** Example data. *)
Definition mappings_gaon : Mappings :=
  [(lit "Gaon", ValString (lit "rei")); (lit "mika", ValObject (Some (lit "rei")))].

Definition folder_stella : FolderInfo :=
  {| _id := lit "f1"; name := lit "stella" |}.

(** A server that knows the folder "stella" alone, under that exact
    query. *)
Definition search_stella (query : jsstring) : option (list FolderInfo) :=
  if Js.eqb query (lit "stella") then Some [folder_stella] else None.

Definition characters_two : list Character :=
  [ {| char_name := lit "envy stella"; folderId := Undefined |};
    {| char_name := lit "nobody"; folderId := Undefined |} ].

(** A provider whose text vectors have three components and whose image
    vectors have two. *)
Definition client_text3 (r : EmbeddingRequest) : EmbeddingResponse :=
  {| Types.success := true;
     resp_embedding :=
       Some (match req_type r with
             | text => [1%float; 0%float; 0%float]
             | Types.image =>
                 [1%float; SpecDefs.float_of_nat (List.length (input r))]
             end);
     Types.error := None |}.

(** An embeddings request that answers every text with one vector. *)
Definition textAnswer_unit (t : jsstring) : EmbeddingResponse :=
  {| Types.success := true; resp_embedding := Some [1%float; 0%float];
     Types.error := None |}.

(** A prediction that succeeds at the third poll. *)
Definition poll_third (attempt : nat) : ClipClient.PollAnswer :=
  if attempt =? 2 then ClipClient.Succeeded [1%float] else ClipClient.Pending.

(** A prediction that never leaves the pending state. *)
Definition poll_never (attempt : nat) : ClipClient.PollAnswer :=
  ClipClient.Pending.

End MoreDefs.

(* ================================================================= *)
(** * Facts about strings and sorting *)

Module JsFacts.

Lemma eqb_refl : forall a : jsstring, Js.eqb a a = true.
Proof.
  induction a as [|x a IH]; simpl; [reflexivity|].
  now rewrite N.eqb_refl, IH.
Qed.

Lemma eqb_eq : forall a b : jsstring, Js.eqb a b = true <-> a = b.
Proof.
  induction a as [|x a IH]; destruct b as [|y b]; simpl;
    try (split; [discriminate | congruence]); try tauto.
  rewrite andb_true_iff, N.eqb_eq, IH.
  split; [intros [-> ->]; reflexivity | intros H; inversion H; auto].
Qed.

Lemma eqb_neq : forall a b : jsstring, Js.eqb a b = false <-> a <> b.
Proof.
  intros a b. rewrite <- eqb_eq. destruct (Js.eqb a b); split; congruence.
Qed.

Lemma startsWith_app : forall p s, startsWith (p ++ s) p = true.
Proof.
  induction p as [|x p IH]; intros s; simpl; [destruct s; reflexivity|].
  now rewrite N.eqb_refl, IH.
Qed.

(** A prefix is a substring, so the third test of the scoring chain can
    only succeed when the second already has. *)
Lemma startsWith_includes :
  forall s p, startsWith s p = true -> includes s p = true.
Proof.
  intros s p H. destruct s; cbn [includes]; rewrite H; reflexivity.
Qed.

Lemma includes_app : forall a b c, includes (a ++ b ++ c) b = true.
Proof.
  induction a as [|x a IH]; intros b c.
  - rewrite app_nil_l. apply startsWith_includes, startsWith_app.
  - simpl. rewrite IH. apply orb_true_r.
Qed.

Lemma includes_app_r :
  forall a b x, includes b x = true -> includes (a ++ b) x = true.
Proof.
  induction a as [|y a IH]; intros b x H; [exact H|].
  cbn [app includes]. rewrite (IH b x H). apply orb_true_r.
Qed.

Section SortFacts.
Variable A : Type.
Variable before : A -> A -> bool.

Lemma sort_insert_length :
  forall (x : A) l, List.length (sort_insert before x l) = S (List.length l).
Proof.
  induction l as [|y l IH]; simpl; [reflexivity|].
  destruct (before y x); simpl; [now rewrite IH | reflexivity].
Qed.

Lemma sort_length : forall l : list A, List.length (Js.sort before l) = List.length l.
Proof.
  induction l as [|x l IH]; simpl; [reflexivity|].
  now rewrite sort_insert_length, IH.
Qed.

Lemma sort_insert_In :
  forall (x y : A) l, In y (sort_insert before x l) <-> y = x \/ In y l.
Proof.
  induction l as [|z l IH]; simpl; [intuition auto|].
  destruct (before z x); simpl; rewrite ?IH; intuition auto.
Qed.

Lemma sort_In : forall (y : A) l, In y (Js.sort before l) <-> In y l.
Proof.
  induction l as [|x l IH]; simpl; [tauto|].
  rewrite sort_insert_In, IH. intuition auto.
Qed.

Lemma sort_insert_head :
  forall (x : A) l,
    hd_error (sort_insert before x l) =
    match l with
    | [] => Some x
    | y :: _ => if before y x then Some y else Some x
    end.
Proof.
  intros x [|y l]; simpl; [reflexivity|].
  destruct (before y x); reflexivity.
Qed.

End SortFacts.

End JsFacts.

(* ================================================================= *)
(** * Properties of the folder matcher *)

Module FolderMatcherFacts.

Import JsFacts FolderMatcher SpecDefs.

Section Facts.
Variable toLowerCase : jsstring -> jsstring.


(** The head of the sorted scores is the first folder of highest score. *)
Lemma sorted_head_is_first_maximum :
  forall q (fs : list FolderInfo),
    fs <> [] ->
    exists pre best post,
      fs = pre ++ best :: post
      /\ hd_error (Js.sort byScoreDesc (List.map (fun folder => (folder, folderScore toLowerCase q folder)) fs))
         = Some (best, folderScore toLowerCase q best)
      /\ (forall g, In g pre ->
            (folderScore toLowerCase q g < folderScore toLowerCase q best)%Z)
      /\ (forall g, In g post ->
            (folderScore toLowerCase q g <= folderScore toLowerCase q best)%Z).
Proof.
  intros q. induction fs as [|a fs IH]; intros Hne; [congruence|].
  destruct fs as [|b fs'].
  - exists [], a, []. simpl. repeat split; intros g [].
  - destruct IH as (pre & best & post & Hfs & Hhd & Hpre & Hpost);
      [discriminate|].
    cbn [List.map Js.sort fold_right] in *.
    rewrite sort_insert_head.
    destruct (sort_insert byScoreDesc _ _) as [|h rest] eqn:Es;
      [discriminate|].
    simpl in Hhd. injection Hhd as ->.
    unfold byScoreDesc at 1. cbn [snd].
    destruct (Z.ltb_spec (folderScore toLowerCase q a
                          - folderScore toLowerCase q best) 0) as [Hlt|Hge].
    + exists (a :: pre), best, post. rewrite Hfs. repeat split; auto.
      intros g [<-|Hg]; [lia | auto].
    + exists [], a, (b :: fs'). repeat split; [intros g [] |].
      intros g Hg. rewrite Hfs in Hg. apply in_app_or in Hg.
      destruct Hg as [Hg|[<-|Hg]].
      * specialize (Hpre g Hg). lia.
      * lia.
      * specialize (Hpost g Hg). lia.
Qed.


Lemma selectBestMatch_first_maximum :
  forall folders characterName,
    folders <> [] ->
    exists pre best post,
      folders = pre ++ best :: post
      /\ selectBestMatch toLowerCase (Some folders) characterName = Some best
      /\ (forall g, In g pre ->
            (score toLowerCase characterName g
             < score toLowerCase characterName best)%Z)
      /\ (forall g, In g post ->
            (score toLowerCase characterName g
             <= score toLowerCase characterName best)%Z).
Proof.
  intros folders characterName Hne.
  destruct (sorted_head_is_first_maximum (toLowerCase characterName) Hne)
    as (pre & best & post & Hfs & Hhd & Hpre & Hpost).
  exists pre, best, post. repeat split; auto.
  unfold selectBestMatch. destruct folders as [|f0 fs]; [congruence|].
  destruct (Js.sort _ _) as [|s0 rest]; [discriminate|].
  simpl in Hhd. injection Hhd as ->. reflexivity.
Qed.


End Facts.



(** C10: for a non-empty candidate list the selection always returns one
    of the candidates, one of highest score, whatever that score is: there
    is no threshold.  The gallery "a" is returned for a query of four
    hundred letters "b" although its score is negative. *)
Theorem selectBestMatch_never_null_on_candidates :
  forall toLowerCase : jsstring -> jsstring,
    (forall folders characterName,
        folders <> [] ->
        exists best,
          selectBestMatch toLowerCase (Some folders) characterName
          = Some best
          /\ In best folders
          /\ (forall g, In g folders ->
                (score toLowerCase characterName g
                 <= score toLowerCase characterName best)%Z))
    /\ selectBestMatch toLowerCase_latin (Some [gallery_a]) long_query
       = Some gallery_a
    /\ (score toLowerCase_latin long_query gallery_a < 0)%Z.
Proof.
  intros toLowerCase. split; [|split].
  - intros folders characterName Hne.
    destruct (selectBestMatch_first_maximum toLowerCase characterName Hne)
      as (pre & best & post & Hfs & Hsel & Hpre & Hpost).
    exists best. split; [exact Hsel|]. split.
    + rewrite Hfs. apply in_or_app. right. left. reflexivity.
    + intros g Hg. rewrite Hfs in Hg. apply in_app_or in Hg.
      destruct Hg as [Hg|[<-|Hg]].
      * specialize (Hpre g Hg). lia.
      * lia.
      * auto.
  - vm_compute. reflexivity.
  - vm_compute. reflexivity.
Qed.

Lemma selectBestMatch_never_null_on_candidates_witness :
  exists best,
    selectBestMatch toLowerCase_latin (Some [gallery_a]) long_query
    = Some best
    /\ In best [gallery_a]
    /\ (forall g, In g [gallery_a] ->
          (score toLowerCase_latin long_query g
           <= score toLowerCase_latin long_query best)%Z).
Proof.
  apply (selectBestMatch_never_null_on_candidates toLowerCase_latin).
  discriminate.
Defined.

End FolderMatcherFacts.

(* ================================================================= *)
(** * Facts about the built-in Map *)

Module JsMapFacts.

Import JsFacts.

Section MapFacts.
Variable V : Type.
Implicit Types (m : JsMap.t V) (k : jsstring) (v : V).

Lemma get_Some_split :
  forall m k v,
    JsMap.get m k = Some v ->
    exists pre post,
      m = pre ++ (k, v) :: post
      /\ JsMap.delete m k = pre ++ post
      /\ ~ In k (JsMap.keys pre).
Proof.
  induction m as [|[k' v'] m IH]; intros k v H; simpl in *; [discriminate|].
  destruct (Js.eqb k' k) eqn:E.
  - apply eqb_eq in E. subst k'. injection H as ->.
    exists [], m. simpl. auto.
  - destruct (IH _ _ H) as (pre & post & -> & Hd & Hn).
    exists ((k', v') :: pre), post. simpl. rewrite Hd.
    repeat split; auto. intros [->|Hin]; [|auto].
    rewrite eqb_refl in E. discriminate.
Qed.

Lemma get_Some_In : forall m k v, JsMap.get m k = Some v -> In (k, v) m.
Proof.
  intros m k v H. destruct (get_Some_split _ _ H) as (pre & post & -> & _).
  apply in_or_app. right. left. reflexivity.
Qed.

Lemma get_None_iff : forall m k, JsMap.get m k = None <-> ~ In k (JsMap.keys m).
Proof.
  induction m as [|[k' v'] m IH]; intros k; simpl; [tauto|].
  destruct (Js.eqb k' k) eqn:E.
  - apply eqb_eq in E. split; [discriminate | intros H; exfalso; auto].
  - apply eqb_neq in E. rewrite IH. intuition auto.
Qed.

Lemma In_get :
  forall m k v, NoDup (JsMap.keys m) -> In (k, v) m -> JsMap.get m k = Some v.
Proof.
  induction m as [|[k' v'] m IH]; intros k v Hnd Hin; simpl in *; [tauto|].
  inversion Hnd as [|? ? Hk Hnd']; subst.
  destruct Hin as [E|Hin].
  - injection E as -> ->. now rewrite eqb_refl.
  - destruct (Js.eqb k' k) eqn:E; [|auto].
    apply eqb_eq in E. subst k'. exfalso. apply Hk.
    change k with (fst (k, v)). apply in_map. exact Hin.
Qed.

Lemma set_new :
  forall m k v, ~ In k (JsMap.keys m) -> JsMap.set m k v = m ++ [(k, v)].
Proof.
  induction m as [|[k' v'] m IH]; intros k v H; simpl in *; [reflexivity|].
  destruct (Js.eqb k' k) eqn:E.
  - apply eqb_eq in E. exfalso. auto.
  - rewrite IH; auto.
Qed.

Lemma keys_set_present :
  forall m k v, In k (JsMap.keys m) -> JsMap.keys (JsMap.set m k v) = JsMap.keys m.
Proof.
  induction m as [|[k' v'] m IH]; intros k v H; simpl in *; [tauto|].
  destruct (Js.eqb k' k) eqn:E; simpl; [reflexivity|].
  apply eqb_neq in E. rewrite IH; [reflexivity|]. destruct H; congruence.
Qed.

Lemma keys_set_new :
  forall m k v, ~ In k (JsMap.keys m) ->
    JsMap.keys (JsMap.set m k v) = JsMap.keys m ++ [k].
Proof.
  intros. rewrite set_new by assumption. unfold JsMap.keys.
  now rewrite map_app.
Qed.

Lemma In_set :
  forall m k v x, In x (JsMap.set m k v) -> x = (k, v) \/ In x m.
Proof.
  induction m as [|[k' v'] m IH]; intros k v x H; simpl in *.
  - destruct H as [<-|[]]. auto.
  - destruct (Js.eqb k' k) eqn:E; simpl in H.
    + apply eqb_eq in E. subst k'. destruct H as [<-|H]; auto.
    + destruct H as [<-|H]; auto. destruct (IH _ _ _ H); auto.
Qed.

Lemma In_delete : forall m k x, In x (JsMap.delete m k) -> In x m.
Proof.
  induction m as [|[k' v'] m IH]; intros k x H; simpl in *; [tauto|].
  destruct (Js.eqb k' k); simpl in *; [auto|].
  destruct H; eauto.
Qed.

Lemma In_keys_delete :
  forall m k x, In x (JsMap.keys (JsMap.delete m k)) -> In x (JsMap.keys m).
Proof.
  unfold JsMap.keys. intros m k x H. apply in_map_iff in H.
  destruct H as ([k0 v0] & <- & H). apply In_delete in H.
  apply in_map_iff. eexists; split; [|exact H]. reflexivity.
Qed.

Lemma NoDup_delete :
  forall m k, NoDup (JsMap.keys m) -> NoDup (JsMap.keys (JsMap.delete m k)).
Proof.
  induction m as [|[k' v'] m IH]; intros k H; simpl in *; [constructor|].
  inversion H as [|? ? Hk Hnd]; subst.
  destruct (Js.eqb k' k); simpl; [assumption|].
  constructor; [|auto]. intros Hin. apply Hk. eapply In_keys_delete; eauto.
Qed.

Lemma delete_absent :
  forall m k, NoDup (JsMap.keys m) -> ~ In k (JsMap.keys (JsMap.delete m k)).
Proof.
  induction m as [|[k' v'] m IH]; intros k H; simpl in *; [tauto|].
  inversion H as [|? ? Hk Hnd]; subst.
  destruct (Js.eqb k' k) eqn:E; simpl.
  - apply eqb_eq in E. now subst k'.
  - apply eqb_neq in E. intros [?|Hin]; [congruence|]. eapply IH; eauto.
Qed.

Lemma size_delete_present :
  forall m k, In k (JsMap.keys m) ->
    S (JsMap.size (JsMap.delete m k)) = JsMap.size m.
Proof.
  unfold JsMap.size.
  induction m as [|[k' v'] m IH]; intros k H; simpl in *; [tauto|].
  destruct (Js.eqb k' k) eqn:E; simpl; [reflexivity|].
  apply eqb_neq in E. rewrite IH; [reflexivity|]. destruct H; congruence.
Qed.

Lemma size_delete_le :
  forall m k, JsMap.size (JsMap.delete m k) <= JsMap.size m.
Proof.
  unfold JsMap.size.
  induction m as [|[k' v'] m IH]; intros k; simpl; [lia|].
  destruct (Js.eqb k' k); simpl; [lia|]. specialize (IH k). lia.
Qed.

Lemma NoDup_set :
  forall m k v, NoDup (JsMap.keys m) -> NoDup (JsMap.keys (JsMap.set m k v)).
Proof.
  intros m k v H. destruct (in_dec (list_eq_dec N.eq_dec) k (JsMap.keys m)).
  - now rewrite keys_set_present.
  - rewrite keys_set_new by assumption.
    apply NoDup_app; auto.
    + constructor; [intros []|constructor].
    + intros x Hx [<-|[]]. auto.
Qed.

Lemma size_set_le :
  forall m k v, JsMap.size (JsMap.set m k v) <= S (JsMap.size m).
Proof.
  unfold JsMap.size.
  induction m as [|[k' v'] m IH]; intros k v; simpl; [lia|].
  destruct (Js.eqb k' k); simpl; [lia|]. specialize (IH k v). lia.
Qed.

Lemma In_keys_set :
  forall m k v x, In x (JsMap.keys (JsMap.set m k v)) ->
    x = k \/ In x (JsMap.keys m).
Proof.
  unfold JsMap.keys. intros m k v x H. apply in_map_iff in H.
  destruct H as ([k0 v0] & <- & H). apply In_set in H.
  destruct H as [E|H]; [injection E as -> ->; auto|].
  right. apply in_map_iff. eexists; split; [|exact H]. reflexivity.
Qed.

End MapFacts.

End JsMapFacts.

(* ================================================================= *)
(** * Properties of the embedding cache *)

Module CacheFacts.

Import JsFacts JsMapFacts Cache SpecDefs.

Lemma createCacheKey_nonempty : forall key, createCacheKey key <> [].
Proof.
  intros [[|] v]; unfold createCacheKey; simpl; discriminate.
Qed.

(** Two keys with the same string are the same key: the type names have no
    colon, so the string determines both fields. *)
Lemma createCacheKey_injective :
  forall k1 k2, createCacheKey k1 = createCacheKey k2 -> k1 = k2.
Proof.
  intros [[|] v1] [[|] v2]; unfold createCacheKey; simpl; intros H;
    try discriminate; injection H as ->; reflexivity.
Qed.

Lemma wf_new : forall options, wf (new options).
Proof.
  intros [[[|n]|] d]; unfold wf, new, size; simpl;
    (split; [constructor | split; [constructor | lia]]).
Qed.

Lemma maxSize_withCache :
  forall c m, maxSize (withCache c m) = maxSize c.
Proof. reflexivity. Qed.

Lemma set_unfold :
  forall c now key emb ttl0,
    wf c ->
    set c now key emb ttl0 =
    withCache c
      (JsMap.set (afterEviction c) (createCacheKey key)
         {| embedding := emb; createdAt := now;
            ttl := match ttl0 with Some x => x | None => defaultTTL c end |}).
Proof.
  intros c now key emb ttl0 (Hnd & Hne & Hpos & Hsz).
  unfold set, afterEviction, size. destruct (maxSize c <=? JsMap.size (cache c)); [|reflexivity].
  destruct (cache c) as [|[k0 v0] m] eqn:E; [reflexivity|].
  simpl. inversion Hne as [|? ? Hk0 _]; subst.
  destruct k0 as [|x k0]; [congruence|]. simpl.
  now rewrite N.eqb_refl, eqb_refl.
Qed.

Lemma afterEviction_sub :
  forall c x, In x (afterEviction c) -> In x (cache c).
Proof.
  intros c x. unfold afterEviction. destruct (_ <=? _); [|auto].
  destruct (cache c); simpl; auto.
Qed.

Lemma afterEviction_keys_sub :
  forall c x, In x (JsMap.keys (afterEviction c)) -> In x (JsMap.keys (cache c)).
Proof.
  intros c x. unfold afterEviction. destruct (_ <=? _); [|auto].
  destruct (cache c); simpl; auto.
Qed.

Lemma afterEviction_NoDup :
  forall c, NoDup (JsMap.keys (cache c)) -> NoDup (JsMap.keys (afterEviction c)).
Proof.
  intros c H. unfold afterEviction. destruct (_ <=? _); [|auto].
  destruct (cache c); simpl in *; [constructor|]. now inversion H.
Qed.

Lemma afterEviction_room :
  forall c, wf c -> S (JsMap.size (afterEviction c)) <= maxSize c.
Proof.
  intros c (_ & _ & Hpos & Hsz). unfold afterEviction, size, JsMap.size in *.
  destruct (Nat.leb_spec (maxSize c) (List.length (cache c))).
  - destruct (cache c); simpl in *; lia.
  - lia.
Qed.

Lemma wf_set :
  forall c now key emb ttl0, wf c -> wf (set c now key emb ttl0).
Proof.
  intros c now key emb ttl0 Hwf. rewrite set_unfold by assumption.
  pose proof (afterEviction_room Hwf) as Hroom.
  destruct Hwf as (Hnd & Hne & Hpos & Hsz).
  unfold wf, size. simpl. repeat split; auto.
  - apply NoDup_set, afterEviction_NoDup, Hnd.
  - apply Forall_forall. intros x Hx. apply In_keys_set in Hx.
    destruct Hx as [->|Hx]; [apply createCacheKey_nonempty|].
    rewrite Forall_forall in Hne. apply Hne, afterEviction_keys_sub, Hx.
  - pose proof (size_set_le (afterEviction c) (createCacheKey key)
                  {| embedding := emb; createdAt := now;
                     ttl := match ttl0 with
                            | Some x => x
                            | None => defaultTTL c
                            end |}).
    lia.
Qed.

Lemma wf_withCache_delete :
  forall c k, wf c -> wf (withCache c (JsMap.delete (cache c) k)).
Proof.
  intros c k (Hnd & Hne & Hpos & Hsz). unfold wf, size. simpl.
  repeat split; auto.
  - now apply NoDup_delete.
  - apply Forall_forall. intros x Hx. rewrite Forall_forall in Hne.
    eapply Hne, In_keys_delete, Hx.
  - pose proof (size_delete_le (cache c) k). unfold size in Hsz. lia.
Qed.

(** The [Map] after a [get] that finds an entry that has not expired: the
    entry is taken out of its place and put last. *)
Lemma get_hit :
  forall c now key entry,
    NoDup (JsMap.keys (cache c)) ->
    JsMap.get (cache c) (createCacheKey key) = Some entry ->
    expired now entry = false ->
    get c now key =
    (Some (embedding entry),
     withCache c (JsMap.delete (cache c) (createCacheKey key)
                  ++ [(createCacheKey key, entry)])).
Proof.
  intros c now key entry Hnd Hget Hexp. unfold get.
  rewrite Hget, Hexp. rewrite set_new; [reflexivity|].
  now apply delete_absent.
Qed.

Lemma get_expired :
  forall c now key entry,
    JsMap.get (cache c) (createCacheKey key) = Some entry ->
    expired now entry = true ->
    get c now key =
    (None, withCache c (JsMap.delete (cache c) (createCacheKey key))).
Proof.
  intros c now key entry Hget Hexp. unfold get. now rewrite Hget, Hexp.
Qed.

Lemma get_absent :
  forall c now key,
    JsMap.get (cache c) (createCacheKey key) = None ->
    get c now key = (None, c).
Proof.
  intros c now key Hget. unfold get. now rewrite Hget.
Qed.

Lemma wf_get : forall c now key, wf c -> wf (snd (get c now key)).
Proof.
  intros c now key Hwf.
  destruct (JsMap.get (cache c) (createCacheKey key)) as [entry|] eqn:Hget.
  - destruct (expired now entry) eqn:Hexp.
    + rewrite (@get_expired c now key entry Hget Hexp). simpl.
      now apply wf_withCache_delete.
    + pose proof Hwf as (Hnd & Hne & Hpos & Hsz).
      rewrite (@get_hit c now key entry Hnd Hget Hexp). simpl.
      unfold wf, size. simpl. repeat split; auto.
      * unfold JsMap.keys. rewrite map_app. simpl.
        apply NoDup_app.
        -- now apply NoDup_delete.
        -- constructor; [intros []|constructor].
        -- intros x Hx [<-|[]]. revert Hx. now apply delete_absent.
      * unfold JsMap.keys. rewrite map_app. apply Forall_app. split.
        -- apply Forall_forall. intros x Hx. rewrite Forall_forall in Hne.
           eapply Hne, In_keys_delete, Hx.
        -- constructor; [apply createCacheKey_nonempty|constructor].
      * unfold JsMap.size. rewrite length_app. simpl.
        assert (Hin : In (createCacheKey key) (JsMap.keys (cache c))).
        { apply get_Some_In in Hget.
          change (createCacheKey key) with (fst (createCacheKey key, entry)).
          now apply in_map. }
        pose proof (size_delete_present _ _ Hin) as Hs.
        unfold size, JsMap.size in *. lia.
  - now rewrite (@get_absent c now key Hget).
Qed.





Lemma wf_insertAll : forall l c, wf c -> wf (insertAll c l).
Proof.
  unfold insertAll.
  induction l as [|i l IH]; intros c Hwf; simpl; [assumption|].
  apply IH. now apply wf_set.
Qed.

(** Inserting a key that is not in the cache: the new entry goes last, and
    the first entry goes when the cache was full. *)
Lemma insert_new :
  forall c i,
    wf c ->
    ~ In (createCacheKey (ins_key i)) (JsMap.keys (cache c)) ->
    cache (insert c i)
    = skipn (size c + 1 - maxSize c) (cache c ++ [entryOf c i]).
Proof.
  intros c i Hwf Hnew. unfold insert. rewrite set_unfold by assumption.
  cbn [cache withCache].
  rewrite set_new
    by (intros H; apply Hnew; now apply afterEviction_keys_sub).
  destruct Hwf as (_ & _ & Hpos & Hsz).
  unfold afterEviction, entryOf, size, JsMap.size in *.
  destruct (Nat.leb_spec (maxSize c) (List.length (cache c))) as [Hle|Hlt].
  - replace (List.length (cache c) + 1 - maxSize c) with 1 by lia.
    destruct (cache c); simpl in *; [lia | reflexivity].
  - replace (List.length (cache c) + 1 - maxSize c) with 0 by lia.
    reflexivity.
Qed.

Lemma In_skipn_sub :
  forall (A : Type) n (l : list A) x, In x (skipn n l) -> In x l.
Proof.
  intros A n l x H. rewrite <- (firstn_skipn n l).
  apply in_or_app. right. exact H.
Qed.

Lemma In_keys_skipn :
  forall (m : JsMap.t CacheEntry) n x,
    In x (JsMap.keys (skipn n m)) -> In x (JsMap.keys m).
Proof.
  intros m n x H. unfold JsMap.keys in *. apply in_map_iff in H.
  destruct H as (p & <- & H). apply in_map. eapply In_skipn_sub; eauto.
Qed.

Lemma entryOf_insert :
  forall c i j, entryOf (insert c i) j = entryOf c j.
Proof. reflexivity. Qed.

(** A run of insertions of new, pairwise different keys keeps the most
    recent entries that fit. *)
Lemma insertAll_new :
  forall l c,
    wf c ->
    NoDup (insertedKeys l) ->
    (forall k, In k (insertedKeys l) -> ~ In k (JsMap.keys (cache c))) ->
    cache (insertAll c l)
    = skipn (size c + List.length l - maxSize c)
            (cache c ++ List.map (entryOf c) l).
Proof.
  induction l as [|i l IH]; intros c Hwf Hnd Hnew.
  - simpl. rewrite app_nil_r. destruct Hwf as (_ & _ & _ & Hsz).
    replace (size c + 0 - maxSize c) with 0 by lia. reflexivity.
  - cbn [insertedKeys List.map] in Hnd, Hnew.
    inversion Hnd as [|? ? Hi Hnd']; subst.
    assert (Hci : ~ In (createCacheKey (ins_key i)) (JsMap.keys (cache c)))
      by (apply Hnew; left; reflexivity).
    pose proof (insert_new i Hwf Hci) as Hc'.
    assert (Hwf' : wf (insert c i)) by (apply wf_set; assumption).
    change (insertAll c (i :: l)) with (insertAll (insert c i) l).
    rewrite IH; auto.
    + rewrite Hc'. unfold size, JsMap.size. rewrite Hc'.
      change (maxSize (insert c i)) with (maxSize c).
      rewrite (map_ext _ _ (entryOf_insert c i)).
      destruct Hwf as (_ & _ & Hpos & Hsz). unfold size, JsMap.size in Hsz.
      set (d := List.length (cache c) + 1 - maxSize c).
      assert (Hd : d <= List.length (cache c ++ [entryOf c i]))
        by (rewrite length_app; simpl; lia).
      replace (skipn d (cache c ++ [entryOf c i]) ++ List.map (entryOf c) l)
        with (skipn d ((cache c ++ [entryOf c i]) ++ List.map (entryOf c) l)).
      2:{ rewrite skipn_app.
          replace (d - List.length (cache c ++ [entryOf c i])) with 0 by lia.
          reflexivity. }
      rewrite skipn_skipn, length_skipn, length_app. cbn [List.length List.map].
      rewrite <- app_assoc. cbn [app].
      f_equal. unfold size, JsMap.size. subst d. lia.
    + intros k Hk Hin. rewrite Hc' in Hin. apply In_keys_skipn in Hin.
      unfold JsMap.keys in Hin. rewrite map_app in Hin.
      apply in_app_or in Hin. destruct Hin as [Hin|[<-|[]]].
      * apply (Hnew k); [right; exact Hk | exact Hin].
      * apply Hi. exact Hk.
Qed.


Lemma get_present_in_keys :
  forall (m : JsMap.t CacheEntry) k e,
    JsMap.get m k = Some e -> In k (JsMap.keys m).
Proof.
  intros m k e H. apply get_Some_In in H.
  change k with (fst (k, e)). now apply in_map.
Qed.

(** C8: a [get] that finds an entry whose age exceeds the entry's own time
    to live returns a miss and removes the entry, so that the size is one
    less afterwards and the key is gone; a [get] that finds an entry that
    has not expired returns the stored vector. *)
Theorem get_expired_entry_is_removed :
  forall c now key entry,
    wf c ->
    JsMap.get (cache c) (createCacheKey key) = Some entry ->
    (expired now entry = true ->
     fst (get c now key) = None
     /\ has (snd (get c now key)) key = false
     /\ S (size (snd (get c now key))) = size c)
    /\ (expired now entry = false ->
        fst (get c now key) = Some (embedding entry)).
Proof.
  intros c now key entry Hwf Hget. split; intros Hexp.
  - rewrite (@get_expired c now key entry Hget Hexp). cbn [fst snd].
    destruct Hwf as (Hnd & _). repeat split.
    + unfold has. cbn [cache withCache].
      pose proof (@delete_absent _ (cache c) (createCacheKey key) Hnd) as Habs.
      apply get_None_iff in Habs. unfold JsMap.has. now rewrite Habs.
    + unfold size. cbn [cache withCache].
      apply size_delete_present. eapply get_present_in_keys; eauto.
  - destruct Hwf as (Hnd & _).
    now rewrite (@get_hit c now key entry Hnd Hget Hexp).
Qed.

Ltac concrete_wf :=
  unfold wf, size; cbn;
  repeat split;
  repeat (constructor; try (intros H; cbn in H; intuition discriminate));
  try discriminate; try lia.

Lemma get_expired_entry_is_removed_witness :
  (fst (get cache_a 3600001%float key_a) = None
   /\ has (snd (get cache_a 3600001%float key_a)) key_a = false
   /\ S (size (snd (get cache_a 3600001%float key_a))) = size cache_a)
  /\ fst (get cache_a 3600000%float key_a) = Some [1%float].
Proof.
  assert (Hwf : wf cache_a) by concrete_wf.
  assert (Hget : JsMap.get (cache cache_a) (createCacheKey key_a)
                 = Some {| embedding := [1%float]; createdAt := 0%float;
                           ttl := 3600%float |}) by reflexivity.
  split.
  - apply (proj1 (get_expired_entry_is_removed 3600001%float key_a Hwf Hget)).
    reflexivity.
  - apply (proj2 (get_expired_entry_is_removed 3600000%float key_a Hwf Hget)).
    reflexivity.
Defined.




Lemma keys_entries :
  forall c l, JsMap.keys (List.map (entryOf c) l) = insertedKeys l.
Proof.
  intros c l. unfold JsMap.keys, insertedKeys. rewrite map_map.
  apply map_ext. reflexivity.
Qed.

(** C3, as the code has it: a [get] that finds an entry that has not
    expired makes it the most recent one and leaves the order of the others
    as it was.  After such a [get], inserting fewer new, pairwise different
    keys than the capacity keeps the entry, and inserting exactly as many
    as the capacity evicts it.  Inserting one key more than the capacity
    into a fresh cache evicts exactly the key inserted first. *)
Theorem get_promotes_to_most_recent :
  (forall c now key entry,
      wf c ->
      JsMap.get (cache c) (createCacheKey key) = Some entry ->
      expired now entry = false ->
      (exists pre post,
          cache c = pre ++ (createCacheKey key, entry) :: post
          /\ cache (snd (get c now key))
             = pre ++ post ++ [(createCacheKey key, entry)])
      /\ (forall l,
            NoDup (insertedKeys l) ->
            (forall k, In k (insertedKeys l) ->
                       ~ In k (JsMap.keys (cache c))) ->
            (List.length l < maxSize c ->
             JsMap.get (cache (insertAll (snd (get c now key)) l))
                       (createCacheKey key) = Some entry)
            /\ (List.length l = maxSize c ->
                has (insertAll (snd (get c now key)) l) key = false)))
  /\ (forall options l,
        NoDup (insertedKeys l) ->
        List.length l = S (maxSize (new options)) ->
        JsMap.keys (cache (insertAll (new options) l))
        = List.tl (insertedKeys l)).
Proof.
  split.
  - intros c now key entry Hwf Hget Hexp.
    pose proof (wf_get now key Hwf) as Hwf'.
    pose proof Hwf as (Hnd & _ & Hpos & Hsz).
    rewrite (@get_hit c now key entry Hnd Hget Hexp) in *. cbn [snd] in *.
    destruct (get_Some_split _ _ Hget) as (pre & post & Hc & Hdel & Hpre).
    rewrite Hdel in *.
    split; [exists pre, post; rewrite <- app_assoc; auto|].
    intros l Hl Hnew.
    set (c' := withCache c ((pre ++ post) ++ [(createCacheKey key, entry)]))
      in *.
    assert (Hnew' : forall k, In k (insertedKeys l) ->
                              ~ In k (JsMap.keys (cache c'))).
    { intros k Hk Hin. apply (Hnew k Hk). rewrite Hc.
      unfold JsMap.keys in *. cbn [cache withCache c'] in Hin.
      rewrite !map_app in *. cbn [List.map] in *.
      apply in_app_or in Hin. destruct Hin as [Hin|[<-|[]]].
      - apply in_app_or in Hin. apply in_or_app.
        destruct Hin; [left | right; right]; assumption.
      - apply in_or_app. right. left. reflexivity. }
    pose proof (@insertAll_new l c' Hwf' Hl Hnew') as Hall.
    pose proof (@wf_insertAll l c' Hwf') as (Hnd'' & _).
    assert (Hlen : size c' = S (List.length (pre ++ post))).
    { unfold size, JsMap.size. cbn [cache withCache c'].
      rewrite length_app. simpl. lia. }
    assert (Hc_len : size c = S (List.length (pre ++ post))).
    { unfold size, JsMap.size. rewrite Hc, !length_app. simpl. lia. }
    change (maxSize c') with (maxSize c) in Hall.
    cbn [cache withCache c'] in Hall.
    rewrite <- app_assoc in Hall.
    split; intros Hn.
    + apply In_get; [exact Hnd''|]. rewrite Hall, skipn_app.
      apply in_or_app. right.
      replace (size c' + List.length l - maxSize c
               - List.length (pre ++ post)) with 0 by lia.
      left. reflexivity.
    + unfold has, JsMap.has.
      replace (JsMap.get (cache (insertAll c' l)) (createCacheKey key))
        with (@None CacheEntry); [reflexivity|].
      symmetry. apply get_None_iff. rewrite Hall, skipn_app.
      rewrite skipn_all2 by lia.
      replace (size c' + List.length l - maxSize c
               - List.length (pre ++ post)) with 1 by lia.
      cbn [app skipn]. rewrite keys_entries. intros Hin.
      apply (Hnew _ Hin). eapply get_present_in_keys; eauto.
  - intros options l Hl Hlen.
    rewrite (@insertAll_new l (new options) (wf_new options) Hl) by (intros k _ []).
    change (cache (new options)) with (@nil (jsstring * CacheEntry)).
    change (size (new options)) with 0.
    replace (0 + List.length l - maxSize (new options)) with 1 by lia.
    cbn [app]. destruct l; [discriminate|].
    cbn [List.map skipn]. now rewrite keys_entries.
Qed.

Lemma get_promotes_to_most_recent_witness :
  JsMap.get
    (cache (insertAll (snd (get cache_ab 1000%float key_a))
                      [insertion 2000%float key_c]))
    (createCacheKey key_a)
  = Some {| embedding := [1%float]; createdAt := 0%float;
            ttl := 3600%float |}
  /\ has (insertAll (snd (get cache_ab 1000%float key_a))
                    [insertion 2000%float key_c; insertion 3000%float key_d])
         key_a = false
  /\ JsMap.keys
       (cache (insertAll cache_empty2
                 [insertion 0%float key_a; insertion 1%float key_b;
                  insertion 2%float key_c]))
     = [createCacheKey key_b; createCacheKey key_c].
Proof.
  assert (Hwf : wf cache_ab) by concrete_wf.
  split; [|split].
  - refine (proj1
      (proj2 (proj1 get_promotes_to_most_recent cache_ab 1000%float key_a
                {| embedding := [1%float]; createdAt := 0%float;
                   ttl := 3600%float |} Hwf eq_refl eq_refl)
             [insertion 2000%float key_c] _ _) _).
    + repeat constructor. intros [].
    + intros k [<-|[]] H. cbn in H. intuition discriminate.
    + cbn. lia.
  - refine (proj2
      (proj2 (proj1 get_promotes_to_most_recent cache_ab 1000%float key_a
                {| embedding := [1%float]; createdAt := 0%float;
                   ttl := 3600%float |} Hwf eq_refl eq_refl)
             [insertion 2000%float key_c; insertion 3000%float key_d] _ _)
      eq_refl).
    + repeat constructor; cbn; intuition discriminate.
    + intros k [<-|[<-|[]]] H; cbn in H; intuition discriminate.
  - refine (proj2 get_promotes_to_most_recent
              {| opt_maxSize := Some 2; opt_defaultTTL := None |}
              [insertion 0%float key_a; insertion 1%float key_b;
               insertion 2%float key_c] _ eq_refl).
    repeat constructor; cbn; intuition discriminate.
Defined.

(** C3, counterexample: in a cache of capacity two that holds the key "a"
    alone, a [get] of "a" followed by the insertion of two other new keys
    evicts "a".  And in a cache of capacity three, after [set] of "a", of
    "b" and of "a" again, "a" is still the oldest entry: two further
    insertions evict "a" and keep "b", which was written before it. *)
Lemma get_then_capacity_insertions_evicts :
  fst (get cache_a 1000%float key_a) = Some [1%float]
  /\ has (insertAll (snd (get cache_a 1000%float key_a))
                    [insertion 2000%float key_b; insertion 3000%float key_c])
         key_a = false
  /\ JsMap.keys
       (cache (set (set (set cache_empty3 0%float key_a [1%float] None)
                        1%float key_b [2%float] None)
                   2%float key_a [4%float] None))
     = [createCacheKey key_a; createCacheKey key_b]
  /\ JsMap.keys
       (cache (insertAll
                 (set (set (set cache_empty3 0%float key_a [1%float] None)
                           1%float key_b [2%float] None)
                      2%float key_a [4%float] None)
                 [insertion 3%float key_c; insertion 4%float key_d]))
     = [createCacheKey key_b; createCacheKey key_c; createCacheKey key_d].
Proof. repeat split; reflexivity. Qed.

(** C4, at the failing input: the cache of capacity two holds "a" then
    "b"; a [set] of the present key "b" evicts "a" and leaves one entry. *)
Theorem set_present_key_at_capacity_evicts :
  size cache_ab = 2
  /\ has cache_ab key_a = true
  /\ has cache_ab key_b = true
  /\ has (set cache_ab 5%float key_b [4%float] None) key_a = false
  /\ size (set cache_ab 5%float key_b [4%float] None) = 1.
Proof. repeat split; reflexivity. Qed.

(** What [set] does to the other entries: with room left nothing is
    evicted, and a full cache loses its first entry and no other, whether
    or not the key is already present. *)
Lemma set_evicts_first_when_full :
  forall c now key emb ttl0,
    wf c ->
    cache (set c now key emb ttl0)
    = JsMap.set (afterEviction c) (createCacheKey key)
        {| embedding := emb; createdAt := now;
           ttl := match ttl0 with Some x => x | None => defaultTTL c end |}
    /\ (size c < maxSize c -> afterEviction c = cache c)
    /\ (size c = maxSize c -> afterEviction c = List.tl (cache c)).
Proof.
  intros c now key emb ttl0 Hwf. rewrite set_unfold by assumption.
  split; [reflexivity|]. unfold afterEviction.
  split; intros H.
  - destruct (Nat.leb_spec (maxSize c) (size c)); [lia | reflexivity].
  - destruct (Nat.leb_spec (maxSize c) (size c)); [reflexivity | lia].
Qed.

End CacheFacts.

(* ================================================================= *)
(** * Properties of the similarity functions *)

Module SimilarityFacts.

Import Similarity.

Lemma Math_max_zero_cases :
  forall x,
    PrimFloat.is_nan (Math_max 0 x) = true
    \/ Math_max 0 x = 0%float
    \/ PrimFloat.ltb 0 (Math_max 0 x) = true.
Proof.
  intros x. unfold Math_max.
  destruct (PrimFloat.is_nan 0 || PrimFloat.is_nan x)%bool; [left; reflexivity|].
  destruct (PrimFloat.ltb 0 x) eqn:Hpos; [right; right; exact Hpos|].
  destruct (PrimFloat.ltb x 0); [right; left; reflexivity|].
  right. left. reflexivity.
Qed.

Lemma computeDotProduct_same_length :
  forall a b,
    List.length a = List.length b ->
    exists dot, computeDotProduct a b = Ok dot.
Proof.
  intros a b H. unfold computeDotProduct. rewrite H, Nat.eqb_refl.
  simpl. eauto.
Qed.

(** C6, as the code has it: the call throws exactly when the lengths
    differ; with equal lengths it returns 0 when either magnitude is zero,
    and otherwise the larger of 0 and the quotient of the dot product by
    the product of the magnitudes, all in double precision.  A result is
    therefore never negative: it is NaN, zero or positive. *)
Theorem cosine_similarity_is_clamped_quotient :
  forall a b : Embedding,
    ((exists e, computeCosineSimilarity a b = Throw e)
     <-> List.length a <> List.length b)
    /\ (List.length a = List.length b ->
        (PrimFloat.eqb (computeMagnitude a) 0
         || PrimFloat.eqb (computeMagnitude b) 0)%bool = true ->
        computeCosineSimilarity a b = Ok 0%float)
    /\ (List.length a = List.length b ->
        (PrimFloat.eqb (computeMagnitude a) 0
         || PrimFloat.eqb (computeMagnitude b) 0)%bool = false ->
        exists dot,
          computeDotProduct a b = Ok dot
          /\ computeCosineSimilarity a b
             = Ok (Math_max 0
                     (dot / (computeMagnitude a * computeMagnitude b))))
    /\ (forall r,
          computeCosineSimilarity a b = Ok r ->
          PrimFloat.is_nan r = true
          \/ r = 0%float
          \/ PrimFloat.ltb 0 r = true).
Proof.
  intros a b. unfold computeCosineSimilarity.
  destruct (Nat.eqb_spec (List.length a) (List.length b)) as [Heq|Hne];
    cbn [negb].
  - destruct (computeDotProduct_same_length a b Heq) as [dot Hdot].
    rewrite Hdot.
    destruct (PrimFloat.eqb (computeMagnitude a) 0
              || PrimFloat.eqb (computeMagnitude b) 0)%bool eqn:Hz.
    + repeat split.
      * intros [e He]. discriminate.
      * intros Hne. congruence.
      * discriminate.
      * intros r Hr. injection Hr as <-. right. left. reflexivity.
    + repeat split.
      * intros [e He]. discriminate.
      * intros Hne. congruence.
      * discriminate.
      * intros _ _. exists dot. split; reflexivity.
      * intros r Hr. injection Hr as <-. apply Math_max_zero_cases.
  - split; [split; [intros _; exact Hne | intros _; eauto]|].
    repeat split; try congruence; discriminate.
Qed.

Lemma cosine_similarity_is_clamped_quotient_witness :
  computeCosineSimilarity [1; 0]%float [0; 0]%float = Ok 0%float
  /\ (exists dot,
        computeDotProduct [3; 4]%float [4; 3]%float = Ok dot
        /\ computeCosineSimilarity [3; 4]%float [4; 3]%float
           = Ok (Math_max 0
                   (dot / (computeMagnitude [3; 4]%float
                           * computeMagnitude [4; 3]%float))))
  /\ (PrimFloat.is_nan 0x1.eb851eb851eb8p-1%float = true
      \/ 0x1.eb851eb851eb8p-1%float = 0%float
      \/ PrimFloat.ltb 0 0x1.eb851eb851eb8p-1%float = true).
Proof.
  split; [|split].
  - apply (proj1 (proj2 (cosine_similarity_is_clamped_quotient
                           [1; 0]%float [0; 0]%float)));
      reflexivity.
  - apply (proj1 (proj2 (proj2 (cosine_similarity_is_clamped_quotient
                                  [3; 4]%float [4; 3]%float))));
      reflexivity.
  - apply (proj2 (proj2 (proj2 (cosine_similarity_is_clamped_quotient
                                  [3; 4]%float [4; 3]%float)))).
    reflexivity.
Defined.

(** C6, counterexample: in double precision the similarity of (1,1,1) with
    itself is 1 + 2^-52, above 1; that of (1,1) with itself is 1 - 2^-52,
    not 1; and that of the one-element vector 2^700 with itself is NaN,
    although none of these magnitudes is zero. *)
Lemma cosine_similarity_of_a_vector_with_itself :
  computeCosineSimilarity [1; 1; 1]%float [1; 1; 1]%float
  = Ok 0x1.0000000000001p+0%float
  /\ PrimFloat.ltb 1 0x1.0000000000001p+0%float = true
  /\ PrimFloat.eqb (computeMagnitude [1; 1; 1]%float) 0 = false
  /\ computeCosineSimilarity [1; 1]%float [1; 1]%float
     = Ok 0x1.ffffffffffffep-1%float
  /\ PrimFloat.eqb 0x1.ffffffffffffep-1%float 1 = false
  /\ PrimFloat.eqb (computeMagnitude [1; 1]%float) 0 = false
  /\ (exists r,
        computeCosineSimilarity [0x1p+700%float] [0x1p+700%float] = Ok r
        /\ PrimFloat.is_nan r = true
        /\ PrimFloat.leb 0 r = false
        /\ PrimFloat.leb r 1 = false)
  /\ PrimFloat.eqb (computeMagnitude [0x1p+700%float]) 0 = false.
Proof.
  repeat split; try reflexivity.
  eexists. repeat split; reflexivity.
Qed.

End SimilarityFacts.

(* ================================================================= *)
(** * Properties of Stage B and of the Stage D prompt *)

Module StageBFacts.

Import JsFacts UnifiedSelect SpecDefs.

Lemma allowedLevels_as_specified :
  forall level,
    allowedLevels (levelName level) = List.map levelName (allowedSet level).
Proof. intros [| | |]; reflexivity. Qed.

Lemma array_includes_allowed :
  forall level label,
    array_includes (allowedLevels (levelName level)) label
    = labelIn (allowedSet level) label.
Proof.
  intros level label. rewrite allowedLevels_as_specified.
  unfold array_includes, labelIn.
  induction (allowedSet level) as [|l s IH]; simpl; [reflexivity|].
  now rewrite IH.
Qed.

Lemma imagesOf_withImages : forall f imgs, imagesOf (withImages f imgs) = imgs.
Proof. reflexivity. Qed.

(** C1: for each of the four levels, Stage B keeps in every matched
    gallery exactly the images whose label is in the allowed set of the
    level, in their order: general and sensitive share the set
    {general, sensitive}, questionable and explicit have their own
    singleton.  The level of a request is the one Stage A determined, or
    general when it gave none.  Under general, an image labelled sensitive
    is kept and one labelled explicit is removed. *)
Theorem stageB_keeps_exactly_allowed_levels :
  forall level : NsfwLevel,
    (forall f,
        filterFolder (levelName level) f
        = withImages f
            (List.filter
               (fun img => labelIn (allowedSet level) (nsfwLevel img))
               (imagesOf f)))
    /\ (forall fs f',
          In f' (filterByNsfwLevel (levelName level) fs) <->
          exists f, In f fs /\ f' = filterFolder (levelName level) f)
    /\ (forall f img,
          In img (imagesOf (filterFolder (levelName level) f)) <->
          In img (imagesOf f)
          /\ labelIn (allowedSet level) (nsfwLevel img) = true)
    /\ (forall a,
          appropriateNsfwLevel a = Some (levelName level) ->
          determinedLevel a = levelName level)
    /\ (forall a,
          appropriateNsfwLevel a = None ->
          determinedLevel a = levelName general)
    /\ (forall f img,
          In img (imagesOf f) ->
          (nsfwLevel img = levelName sensitive ->
           In img (imagesOf (filterFolder (levelName general) f)))
          /\ (nsfwLevel img = levelName explicit ->
              ~ In img (imagesOf (filterFolder (levelName general) f)))).
Proof.
  intros level.
  assert (Hf : forall l f,
             filterFolder (levelName l) f
             = withImages f
                 (List.filter
                    (fun img => labelIn (allowedSet l) (nsfwLevel img))
                    (imagesOf f))).
  { intros l f. unfold filterFolder. f_equal. apply filter_ext.
    intros img. apply array_includes_allowed. }
  repeat split.
  - apply Hf.
  - unfold filterByNsfwLevel. intros H. apply in_map_iff in H.
    destruct H as (f & <- & H). eauto.
  - unfold filterByNsfwLevel. intros (f & H & ->). now apply in_map.
  - rewrite Hf, imagesOf_withImages in H. now apply filter_In in H.
  - rewrite Hf, imagesOf_withImages in H. now apply filter_In in H.
  - intros [H1 H2]. rewrite Hf, imagesOf_withImages. now apply filter_In.
  - intros a Ha. unfold determinedLevel. rewrite Ha.
    destruct level; reflexivity.
  - intros a Ha. unfold determinedLevel. rewrite Ha. reflexivity.
  - intros Hl. rewrite Hf, imagesOf_withImages. apply filter_In.
    split; [assumption|]. rewrite Hl. reflexivity.
  - intros Hl Hin. rewrite Hf, imagesOf_withImages in Hin.
    apply filter_In in Hin. destruct Hin as [_ Hin]. rewrite Hl in Hin.
    discriminate.
Qed.


Lemma stageB_keeps_exactly_allowed_levels_witness :
  In (image_of "i2" "sensitive" None)
     (imagesOf (filterFolder (levelName general) folder_mixed))
  /\ ~ In (image_of "i3" "explicit" None)
         (imagesOf (filterFolder (levelName general) folder_mixed))
  /\ determinedLevel analysis_general = levelName general.
Proof.
  pose proof (stageB_keeps_exactly_allowed_levels general)
    as (_ & _ & _ & Hlevel & _ & Hex).
  assert (H2 : In (image_of "i2" "sensitive" None) (imagesOf folder_mixed))
    by (right; left; reflexivity).
  assert (H3 : In (image_of "i3" "explicit" None) (imagesOf folder_mixed))
    by (right; right; left; reflexivity).
  split; [|split].
  - apply (proj1 (Hex folder_mixed _ H2)). reflexivity.
  - apply (proj2 (Hex folder_mixed _ H3)). reflexivity.
  - apply Hlevel. reflexivity.
Defined.

End StageBFacts.

Module StageDFacts.

Import JsFacts UnifiedSelect SpecDefs ClipFilter.

Lemma join_In :
  forall sep (l : list jsstring) x,
    In x l -> exists pre post, join sep l = pre ++ x ++ post.
Proof.
  intros sep. induction l as [|y l IH]; intros x Hin; [destruct Hin|].
  destruct l as [|z l].
  - destruct Hin as [->|[]]. exists [], []. simpl. now rewrite app_nil_r.
  - destruct Hin as [->|Hin].
    + exists [], (sep ++ join sep (z :: l)). reflexivity.
    + destruct (IH x Hin) as (pre & post & Hj).
      exists (y ++ sep ++ pre), post.
      change (join sep (y :: z :: l)) with (y ++ sep ++ join sep (z :: l)).
      rewrite Hj. now rewrite <- !app_assoc.
Qed.

Lemma prompt_includes_folder :
  forall fs a f,
    In f fs -> includes (buildUnifiedPrompt fs a) (folderText f) = true.
Proof.
  intros fs a f Hin. unfold buildUnifiedPrompt.
  destruct (@join_In (nl ++ nl) (List.map folderText fs) (folderText f))
    as (pre & post & ->); [now apply in_map|].
  replace (promptHead a ++ (pre ++ folderText f ++ post) ++ promptTail)
    with ((promptHead a ++ pre) ++ folderText f ++ (post ++ promptTail))
    by (now rewrite <- !app_assoc).
  apply includes_app.
Qed.

Section Route.
Variable toLowerCase : jsstring -> jsstring.
Variable clock : nat -> float.
Variable client : EmbeddingRequest -> EmbeddingResponse.
Variable others : nat -> World -> World.
Variable stage3 : jsstring -> Stage3Outcome.

Lemma clipFolder_entity :
  forall a f w, entity (fst (clipFolder clock client others a f w)) = entity f.
Proof.
  intros a f w. unfold clipFolder.
  destruct (List.length (imagesOf f) <=? 10); [reflexivity|].
  destruct (filterImagesBySimilarity _ _ _ _ _ _ _) as [r w'].
  destruct (_ && _)%bool; reflexivity.
Qed.

Lemma clipFolders_entities :
  forall a fs w,
    List.map entity (fst (clipFolders clock client others a fs w))
    = List.map entity fs.
Proof.
  intros a. induction fs as [|f fs IH]; intros w; [reflexivity|].
  cbn [clipFolders].
  pose proof (clipFolder_entity a f w) as Hf.
  destruct (clipFolder clock client others a f w) as [f' w1].
  specialize (IH w1).
  destruct (clipFolders clock client others a fs w1) as [fs' w2].
  cbn [fst List.map] in *. now rewrite Hf, IH.
Qed.

Lemma clipStage_entities :
  forall env a fs w,
    List.map entity (fst (clipStage clock client others env a fs w))
    = List.map entity fs.
Proof.
  intros env a fs w. unfold clipStage.
  destruct (_ && _)%bool; [apply clipFolders_entities | reflexivity].
Qed.

Lemma filterByNsfwLevel_entities :
  forall level fs,
    List.map entity (filterByNsfwLevel level fs) = List.map entity fs.
Proof.
  intros level fs. unfold filterByNsfwLevel. rewrite map_map.
  apply map_ext. reflexivity.
Qed.

Lemma folderText_without_images :
  forall f, imagesOf f = [] -> folderText f = emptyFolderText f.
Proof.
  intros f H. unfold folderText, emptyFolderText. rewrite H. cbn [mapi join].
  rewrite !app_nil_r. reflexivity.
Qed.

Lemma selectFrom_unfold :
  forall env characterFolders a w,
    let o := selectFrom toLowerCase clock client others stage3 env
                        characterFolders a w in
    stage3Folders o
    = fst (clipStage clock client others env a
             (filterByNsfwLevel (determinedLevel a)
                (matchFolders toLowerCase characterFolders
                              (extractedCharacters a))) w)
    /\ stage3Prompt o = Some (buildUnifiedPrompt (stage3Folders o) a)
    /\ response o = responseOf (stage3 (buildUnifiedPrompt (stage3Folders o) a)).
Proof.
  intros env characterFolders a w. unfold selectFrom.
  destruct (clipStage _ _ _ _ _ _ _) as [fs w']. cbn. auto.
Qed.

End Route.

(** C5, as the code has it: Stage D is one call for the whole request.
    Its prompt is built from every matched folder, in order, whatever the
    number of candidate images left after Stage C; a folder left with no
    image appears in it with [Total Images: 0], and the prompt asks the
    collaborator to mark such a character unmatched.  The response is made
    of the collaborator's answer alone: the route adds no result of its
    own. *)
Theorem stageD_prompt_covers_every_matched_folder :
  forall toLowerCase clock client others stage3 env characterFolders a w,
    let o := selectFrom toLowerCase clock client others stage3 env
                        characterFolders a w in
    stage3Prompt o = Some (buildUnifiedPrompt (stage3Folders o) a)
    /\ response o
       = responseOf (stage3 (buildUnifiedPrompt (stage3Folders o) a))
    /\ List.map entity (stage3Folders o)
       = List.map entity
           (matchFolders toLowerCase characterFolders
                         (extractedCharacters a))
    /\ (forall f,
          In f (stage3Folders o) ->
          includes (buildUnifiedPrompt (stage3Folders o) a) (folderText f)
          = true)
    /\ (forall f, imagesOf f = [] -> folderText f = emptyFolderText f)
    /\ includes (buildUnifiedPrompt (stage3Folders o) a)
                unmatchedInstruction = true
    /\ (forall cs, responseOf (Characters cs) = Success cs).
Proof.
  intros toLowerCase clock client others stage3 env characterFolders a w o.
  destruct (selectFrom_unfold toLowerCase clock client others stage3 env
              characterFolders a w) as (Hfs & Hp & Hr).
  fold o in Hfs, Hp, Hr.
  split; [exact Hp|]. split; [exact Hr|]. split.
  - rewrite Hfs, clipStage_entities, filterByNsfwLevel_entities. reflexivity.
  - split; [|split; [|split]].
    + intros f Hin. now apply prompt_includes_folder.
    + apply folderText_without_images.
    + unfold buildUnifiedPrompt. rewrite app_assoc.
      apply includes_app_r. vm_compute. reflexivity.
    + reflexivity.
Qed.

Lemma stageD_prompt_covers_every_matched_folder_witness :
  let o := selectFrom toLowerCase_latin clock_zero client_by_length no_others
                      stage3_silent env_default [gallery_explicit_only]
                      analysis_general world_empty in
  includes (buildUnifiedPrompt (stage3Folders o) analysis_general)
           (folderText (folder_of "A" []))
  = true
  /\ folderText (folder_of "A" []) = emptyFolderText (folder_of "A" []).
Proof.
  intros o.
  pose proof (stageD_prompt_covers_every_matched_folder
                toLowerCase_latin clock_zero client_by_length no_others stage3_silent
                env_default [gallery_explicit_only] analysis_general
                world_empty) as (_ & _ & _ & Hin & Hempty & _ & _).
  split.
  - apply Hin. left. reflexivity.
  - apply Hempty. reflexivity.
Defined.

(** C5, counterexample: one gallery "A" whose only image is explicit, in a
    request of level general.  The gallery has no candidate image left,
    yet the collaborator is called, with a prompt that lists the character
    "A" with [Total Images: 0]; and when the collaborator answers with no
    character, the response has none: the route has not reported "A" as
    unmatched itself. *)
Lemma stageD_is_called_for_folder_without_candidates :
  let o := selectFrom toLowerCase_latin clock_zero client_by_length no_others
                      stage3_silent env_default [gallery_explicit_only]
                      analysis_general world_empty in
  List.map imagesOf (stage3Folders o) = [[]]
  /\ (exists prompt,
        stage3Prompt o = Some prompt
        /\ includes prompt
             (lit "Character: " ++ quoted (lit "A") ++ lit " (Folder: "
              ++ quoted (lit "A") ++ lit ")" ++ nl
              ++ lit "  Total Images: 0") = true)
  /\ response o = Success [].
Proof.
  cbv zeta. split; [reflexivity|]. split; [|reflexivity].
  eexists. split; [reflexivity|]. vm_compute. reflexivity.
Qed.

End StageDFacts.

(* ================================================================= *)
(** * Properties of Stage C *)

Module StageCFacts.

Import JsFacts JsMapFacts CacheFacts Similarity ClipFilter UnifiedSelect SpecDefs.

Lemma get_sub :
  forall c now key x,
    In x (Cache.cache (snd (Cache.get c now key))) -> In x (Cache.cache c).
Proof.
  intros c now key x. unfold Cache.get.
  destruct (JsMap.get (Cache.cache c) (Cache.createCacheKey key))
    as [entry|] eqn:Hget; [|auto].
  destruct (Cache.expired now entry); cbn [snd Cache.cache Cache.withCache].
  - apply In_delete.
  - intros H. apply In_set in H. destruct H as [->|H].
    + now apply get_Some_In.
    + eapply In_delete; eauto.
Qed.

Lemma get_returns_stored :
  forall c now key v,
    fst (Cache.get c now key) = Some v ->
    exists entry,
      In (Cache.createCacheKey key, entry) (Cache.cache c)
      /\ embedding entry = v.
Proof.
  intros c now key v. unfold Cache.get.
  destruct (JsMap.get (Cache.cache c) (Cache.createCacheKey key))
    as [entry|] eqn:Hget; [|discriminate].
  destruct (Cache.expired now entry); [discriminate|].
  cbn [fst]. intros H. injection H as <-.
  exists entry. split; [now apply get_Some_In | reflexivity].
Qed.

Lemma set_sub :
  forall c now key emb ttl0 x,
    In x (Cache.cache (Cache.set c now key emb ttl0)) ->
    (fst x = Cache.createCacheKey key /\ embedding (snd x) = emb)
    \/ In x (Cache.cache c).
Proof.
  intros c now key emb ttl0 x. unfold Cache.set.
  cbn [Cache.cache Cache.withCache]. intros H. apply In_set in H.
  destruct H as [->|H]; [left; split; reflexivity|]. right.
  destruct (Cache.maxSize c <=? JsMap.size (Cache.cache c)); [|assumption].
  destruct (JsMap.firstKey (Cache.cache c)) as [k|]; [|assumption].
  destruct (truthy (Some k)); [|assumption].
  eapply In_delete; eauto.
Qed.

Section Filter.
Variable clock : nat -> float.
Variable client : EmbeddingRequest -> EmbeddingResponse.
Variable others : nat -> World -> World.

(** The other tasks keep the cache in agreement with the provider, as
    every step of this one does. *)
Hypothesis others_agree :
  forall n w, cacheAgrees client w -> cacheAgrees client (others n w).

Lemma suspend_agrees :
  forall w, cacheAgrees client w -> cacheAgrees client (suspend others w).
Proof.
  intros w Hag. unfold suspend.
  apply (others_agree (w_awaits w)) in Hag. exact Hag.
Qed.

Lemma serves_functional :
  forall ty content e1 e2,
    serves client ty content e1 -> serves client ty content e2 -> e1 = e2.
Proof. intros ty content e1 e2 [_ H1] [_ H2]. congruence. Qed.

Lemma cacheAgrees_In :
  forall w key entry,
    cacheAgrees client w ->
    In (Cache.createCacheKey key, entry) (Cache.cache (w_cache w)) ->
    serves client (type key) (value key) (embedding entry).
Proof.
  intros w key entry Hag Hin. unfold cacheAgrees in Hag.
  rewrite Forall_forall in Hag. exact (Hag _ Hin key eq_refl).
Qed.

Lemma cacheGet_agrees :
  forall key w,
    cacheAgrees client w -> cacheAgrees client (snd (cacheGet clock key w)).
Proof.
  intros key w Hag. unfold cacheGet.
  pose proof (@get_sub (w_cache w) (clock (w_tick w)) key) as Hsub.
  destruct (Cache.get (w_cache w) (clock (w_tick w)) key) as [r c].
  cbn [snd] in *. unfold cacheAgrees in *. cbn [w_cache].
  rewrite Forall_forall in *. auto.
Qed.

Lemma cacheGet_hit :
  forall key w v,
    cacheAgrees client w ->
    fst (cacheGet clock key w) = Some v ->
    serves client (type key) (value key) v.
Proof.
  intros key w v Hag. unfold cacheGet.
  pose proof (@get_returns_stored (w_cache w) (clock (w_tick w)) key v) as Hst.
  destruct (Cache.get (w_cache w) (clock (w_tick w)) key) as [r c].
  cbn [fst] in *. intros Hr. destruct (Hst Hr) as (entry & Hin & <-).
  eapply cacheAgrees_In; eauto.
Qed.

Lemma cacheSet_agrees :
  forall ty content emb w,
    cacheAgrees client w ->
    serves client ty content emb ->
    cacheAgrees client
      (cacheSet clock {| type := ty; value := content |} emb w).
Proof.
  intros ty content emb w Hag Hs. unfold cacheAgrees, cacheSet in *.
  cbn [w_cache]. rewrite Forall_forall in *. intros x Hx key Hk.
  apply set_sub in Hx. destruct Hx as [[Hfst Hemb]|Hx]; [|auto].
  rewrite Hfst in Hk. apply createCacheKey_injective in Hk. subst key.
  rewrite Hemb. exact Hs.
Qed.

Lemma getEmbedding_agrees :
  forall ty content w,
    cacheAgrees client w ->
    cacheAgrees client (snd (getEmbedding clock client others ty content w)).
Proof.
  intros ty content w Hag. unfold getEmbedding.
  pose proof (cacheGet_agrees {| type := ty; value := content |} Hag) as H1.
  destruct (cacheGet clock {| type := ty; value := content |} w) as [[v|] w1];
    cbn [snd] in *; [assumption|].
  apply suspend_agrees in H1.
  destruct (Types.success _) eqn:Hs; [|assumption].
  destruct (resp_embedding _) as [emb|] eqn:He; [|assumption].
  cbn [snd]. apply cacheSet_agrees; [assumption|]. split; assumption.
Qed.

Lemma getEmbedding_served :
  forall ty content e w,
    cacheAgrees client w ->
    serves client ty content e ->
    fst (getEmbedding clock client others ty content w) = Some e.
Proof.
  intros ty content e w Hag Hs. unfold getEmbedding.
  pose proof (@cacheGet_hit {| type := ty; value := content |} w) as Hhit.
  destruct (cacheGet clock {| type := ty; value := content |} w) as [[v|] w1];
    cbn [fst] in *.
  - f_equal. eapply serves_functional; [|exact Hs]. now apply Hhit.
  - destruct Hs as [Hs He]. rewrite Hs, He. reflexivity.
Qed.

Lemma similarityLoop_agrees :
  forall t minSim imgs sims hits w,
    cacheAgrees client w ->
    cacheAgrees client
      (snd (similarityLoop clock client others t minSim imgs sims hits w)).
Proof.
  intros t minSim. induction imgs as [|img imgs IH]; intros sims hits w Hag;
    [assumption|].
  cbn [similarityLoop].
  destruct (or_else (imageUrl img) (thumbnail img)) as [url|]; [|auto].
  destruct (truthy (Some url)); [|auto].
  unfold getImageEmbedding.
  pose proof (getEmbedding_agrees Types.image url Hag) as H1.
  destruct (getEmbedding clock client others Types.image url w) as [[e|] w1];
    cbn [snd] in H1; apply suspend_agrees in H1; [|auto].
  pose proof (cacheGet_agrees {| type := Types.image; value := url |} H1)
    as H2.
  destruct (cacheGet clock {| type := Types.image; value := url |}
                     (suspend others w1))
    as [hit w2]. cbn [snd] in H2.
  destruct (computeCosineSimilarity t e); [auto | assumption].
Qed.



Lemma mapi_scores :
  forall (sims : list ImageSimilarity) (pre : list float),
    mapi (fun item idx =>
            (item, at_index (pre ++ List.map similarity sims) idx))
         (List.map image sims) (List.length pre)
    = List.map (fun s => (image s, similarity s)) sims.
Proof.
  induction sims as [|s sims IH]; intros pre; [reflexivity|].
  cbn [List.map mapi]. f_equal.
  - unfold at_index. now rewrite nth_middle.
  - specialize (IH (pre ++ [similarity s])).
    rewrite <- app_assoc, length_app in IH. cbn [app List.length] in IH.
    rewrite Nat.add_1_r in IH. exact IH.
Qed.

Lemma sortBySimilarity_recorded :
  forall sims : list ImageSimilarity,
    sortBySimilarity (List.map image sims) (List.map similarity sims)
    = Ok (Js.sort (@bySimilarityDesc Image)
            (List.map (fun s => (image s, similarity s)) sims)).
Proof.
  intros sims. unfold sortBySimilarity.
  rewrite !length_map, Nat.eqb_refl. cbn [negb].
  pose proof (mapi_scores sims []) as H. cbn [app List.length] in H.
  now rewrite H.
Qed.


Lemma filterImagesBySimilarity_agrees :
  forall q imgs options w,
    cacheAgrees client w ->
    cacheAgrees client
      (snd (filterImagesBySimilarity clock client others q imgs options w)).
Proof.
  intros q imgs options w Hag. unfold filterImagesBySimilarity.
  unfold getTextEmbedding.
  pose proof (getEmbedding_agrees text q Hag) as H1.
  destruct (getEmbedding clock client others text q w) as [[t|] w1];
    cbn [snd] in H1; apply suspend_agrees in H1; [|assumption].
  pose proof (similarityLoop_agrees t
                (match minSimilarity options with
                 | Some x => x
                 | None => 0%float
                 end) imgs [] 0 H1) as H2.
  destruct (similarityLoop _ _ _ _ _ _ _ _) as [[[sims hits]|e] w2];
    cbn [snd] in H2; [|assumption].
  destruct (sortBySimilarity _ _); assumption.
Qed.


Lemma clipFolder_agrees :
  forall a f w,
    cacheAgrees client w ->
    cacheAgrees client (snd (clipFolder clock client others a f w)).
Proof.
  intros a f w Hag. unfold clipFolder.
  destruct (List.length (imagesOf f) <=? 10); [assumption|].
  pose proof (filterImagesBySimilarity_agrees
                (template (or_else (clipQuery a) (sceneSummary a)))
                (imagesOf f)
                {| topK := Some 10; minSimilarity := Some 0%float |} Hag)
    as H1.
  destruct (filterImagesBySimilarity _ _ _ _ _ _ _) as [r w'].
  cbn [snd] in H1. apply suspend_agrees in H1.
  destruct (_ && _)%bool; assumption.
Qed.






End Filter.




End StageCFacts.

(* ================================================================= *)
(** * Further facts about sorting *)

Module SortMoreFacts.

Import JsFacts MoreDefs.

Section Generic.
Variable A : Type.
Variable before : A -> A -> bool.

Lemma sort_insert_Permutation :
  forall (x : A) l, Permutation (sort_insert before x l) (x :: l).
Proof.
  induction l as [|y l IH]; simpl; [reflexivity|].
  destruct (before y x); [|reflexivity].
  rewrite IH. apply perm_swap.
Qed.

Lemma sort_Permutation : forall l : list A, Permutation (Js.sort before l) l.
Proof.
  induction l as [|x l IH]; simpl; [reflexivity|].
  rewrite sort_insert_Permutation. now constructor.
Qed.

Lemma precedes_cons :
  forall (a b x : A) l, precedes a b l -> precedes a b (x :: l).
Proof.
  intros a b x l (l1 & l2 & l3 & ->). exists (x :: l1), l2, l3. reflexivity.
Qed.

Lemma precedes_head :
  forall (a b : A) l, In b l -> precedes a b (a :: l).
Proof.
  intros a b l H. apply in_split in H. destruct H as (l2 & l3 & ->).
  exists [], l2, l3. reflexivity.
Qed.

Lemma precedes_inv :
  forall (a b x : A) l,
    precedes a b (x :: l) -> (a = x /\ In b l) \/ precedes a b l.
Proof.
  intros a b x l (l1 & l2 & l3 & H). destruct l1 as [|z l1]; simpl in H.
  - injection H as -> ->. left. split; [reflexivity|].
    apply in_or_app. right. left. reflexivity.
  - injection H as -> ->. right. exists l1, l2, l3. reflexivity.
Qed.

Lemma sort_insert_keeps_order :
  forall (a b x : A) l,
    precedes a b l -> precedes a b (sort_insert before x l).
Proof.
  induction l as [|y l IH]; intros H.
  - destruct H as (l1 & l2 & l3 & H). destruct l1; discriminate.
  - simpl. destruct (before y x); [|now apply precedes_cons].
    apply precedes_inv in H. destruct H as [[-> Hb]|H].
    + apply precedes_head. apply sort_insert_In. now right.
    + apply precedes_cons. now apply IH.
Qed.

Lemma sort_insert_before_unordered :
  forall (x y : A) l,
    In y l -> before y x = false -> precedes x y (sort_insert before x l).
Proof.
  induction l as [|z l IH]; intros Hin Hb; [destruct Hin|].
  simpl. destruct (before z x) eqn:Hz.
  - destruct Hin as [->|Hin]; [congruence|].
    apply precedes_cons. now apply IH.
  - now apply precedes_head.
Qed.

(** The sort is stable: an element stays before every later element that
    the comparator does not put before it. *)
Lemma sort_stable :
  forall (a b : A) l,
    precedes a b l -> before b a = false -> precedes a b (Js.sort before l).
Proof.
  induction l as [|x l IH]; intros H Hb.
  - destruct H as (l1 & l2 & l3 & H). destruct l1; discriminate.
  - simpl. apply precedes_inv in H. destruct H as [[-> Hin]|H].
    + apply sort_insert_before_unordered; [|assumption].
      now apply sort_In.
    + apply sort_insert_keeps_order. now apply IH.
Qed.

End Generic.

End SortMoreFacts.

(* ================================================================= *)
(** * Facts about the folder search *)

Module FolderSearchFacts.

Import JsFacts JsMapFacts SortMoreFacts FolderMatcher FolderSearch MoreDefs.

Section Facts.
Variable toLowerCase : jsstring -> jsstring.
Variable searchFolder : jsstring -> option (list FolderInfo).

(** X1: [applyMapping] returns either the character name itself or the
    non-empty folder name of a table entry whose key equals the name up to
    letter case.  It returns the name itself when no key matches or when
    there is no table, and the folder name of the entry stored under the
    exact name when that is not empty. *)
Theorem applyMapping_uses_matching_entry :
  forall characterName (m : Mappings),
    (applyMapping toLowerCase characterName (Some m) = characterName
     \/ exists k v,
          In (k, v) m
          /\ toLowerCase k = toLowerCase characterName
          /\ extractFolderName v
             = Some (applyMapping toLowerCase characterName (Some m))
          /\ applyMapping toLowerCase characterName (Some m) <> [])
    /\ ((forall k v, In (k, v) m ->
                     toLowerCase k <> toLowerCase characterName) ->
        applyMapping toLowerCase characterName (Some m) = characterName)
    /\ (forall v folderName,
          JsMap.get m characterName = Some v ->
          extractFolderName v = Some folderName ->
          folderName <> [] ->
          applyMapping toLowerCase characterName (Some m) = folderName)
    /\ applyMapping toLowerCase characterName None = characterName.
Proof.
  intros characterName m.
  assert (Hsound :
            applyMapping toLowerCase characterName (Some m) = characterName
            \/ exists k v,
                 In (k, v) m
                 /\ toLowerCase k = toLowerCase characterName
                 /\ extractFolderName v
                    = Some (applyMapping toLowerCase characterName (Some m))
                 /\ applyMapping toLowerCase characterName (Some m) <> []).
  { assert (Hci :
              forall r,
                match find (fun e => Js.eqb (toLowerCase (fst e))
                                            (toLowerCase characterName)) m with
                | Some e =>
                    match extractFolderName (snd e) with
                    | Some fn => if truthy (extractFolderName (snd e))
                                 then fn else characterName
                    | None => characterName
                    end
                | None => characterName
                end = r ->
                r = characterName
                \/ exists k v,
                     In (k, v) m
                     /\ toLowerCase k = toLowerCase characterName
                     /\ extractFolderName v = Some r
                     /\ r <> []).
    { intros r Hr.
      destruct (find _ m) as [[k v']|] eqn:Hfind; [|now left].
      cbn [snd] in Hr. destruct (extractFolderName v') as [fn'|] eqn:Hex';
        [|now left].
      destruct (truthy (Some fn')) eqn:Ht'; [|now left]. subst r.
      right. apply find_some in Hfind. destruct Hfind as [Hin Heq].
      cbn [fst] in Heq. apply eqb_eq in Heq.
      exists k, v'. repeat split; auto.
      destruct fn'; [discriminate Ht' | discriminate]. }
    unfold applyMapping.
    destruct (JsMap.get m characterName) as [v|] eqn:Hget;
      [|now apply Hci].
    destruct (extractFolderName v) as [fn|] eqn:Hex; [|now apply Hci].
    destruct (truthy (Some fn)) eqn:Ht; [|now apply Hci].
    right. exists characterName, v. apply get_Some_In in Hget.
    repeat split; auto. destruct fn; [discriminate Ht | discriminate]. }
  split; [exact Hsound|]. split; [|split].
  - intros Hno. destruct Hsound as [H|(k & v & Hin & Hk & _)]; [exact H|].
    exfalso. eapply Hno; eauto.
  - intros v folderName Hget Hex Hne. unfold applyMapping.
    rewrite Hget, Hex. destruct folderName; [congruence | reflexivity].
  - reflexivity.
Qed.

Lemma tryMatch_None :
  forall query mappedName,
    tryMatch toLowerCase searchFolder query mappedName = None
    <-> findsNothing searchFolder query.
Proof.
  intros query mappedName. unfold tryMatch, findsNothing.
  destruct (searchFolder query) as [[|f fs]|]; try (split; auto; fail).
  assert (Hne : f :: fs <> []) by discriminate.
  destruct (FolderMatcherFacts.selectBestMatch_first_maximum
              toLowerCase mappedName Hne)
    as (pre & best & post & _ & Hsel & _).
  rewrite Hsel. split; [discriminate|]. intros [H|H]; discriminate.
Qed.

Lemma tryMatch_Some :
  forall query mappedName id,
    tryMatch toLowerCase searchFolder query mappedName = Some id ->
    exists fs best,
      searchFolder query = Some fs
      /\ fs <> []
      /\ selectBestMatch toLowerCase (Some fs) mappedName = Some best
      /\ In best fs
      /\ _id best = id.
Proof.
  intros query mappedName id. unfold tryMatch.
  destruct (searchFolder query) as [[|f fs]|]; try discriminate.
  assert (Hne : f :: fs <> []) by discriminate.
  destruct (FolderMatcherFacts.selectBestMatch_first_maximum
              toLowerCase mappedName Hne)
    as (pre & best & post & Hfs & Hsel & _).
  rewrite Hsel. intros H. injection H as <-.
  exists (f :: fs), best. repeat split; auto.
  rewrite Hfs. apply in_or_app. right. left. reflexivity.
Qed.

Lemma findFolderByName_as_first_hit :
  forall characterName mappings,
    findFolderByName toLowerCase searchFolder characterName mappings
    = tryWords toLowerCase searchFolder
        (queries toLowerCase
           (applyMapping toLowerCase characterName mappings))
        (applyMapping toLowerCase characterName mappings).
Proof.
  intros characterName mappings. unfold findFolderByName, queries.
  cbn [app tryWords].
  destruct (tryMatch _ _ _ _) as [id|]; [reflexivity|].
  destruct (negb _); cbn [app tryWords]; [|reflexivity].
  destruct (tryMatch _ _ _ _) as [id|]; reflexivity.
Qed.

Lemma tryWords_None :
  forall mappedName qs,
    tryWords toLowerCase searchFolder qs mappedName = None
    <-> Forall (findsNothing searchFolder) qs.
Proof.
  intros mappedName. induction qs as [|q qs IH]; cbn [tryWords].
  - split; [constructor | reflexivity].
  - destruct (tryMatch toLowerCase searchFolder q mappedName) as [id|] eqn:Hq.
    + split; [discriminate|]. intros H. inversion H as [|? ? Hn _]; subst.
      apply (tryMatch_None q mappedName) in Hn. congruence.
    + rewrite IH. split.
      * intros H. constructor; [|assumption].
        now apply (tryMatch_None q mappedName).
      * intros H. now inversion H.
Qed.

Lemma tryWords_Some :
  forall mappedName qs id,
    tryWords toLowerCase searchFolder qs mappedName = Some id ->
    exists pre q post,
      qs = pre ++ q :: post
      /\ Forall (findsNothing searchFolder) pre
      /\ tryMatch toLowerCase searchFolder q mappedName = Some id.
Proof.
  intros mappedName. induction qs as [|q qs IH]; intros id; cbn [tryWords];
    [discriminate|].
  destruct (tryMatch toLowerCase searchFolder q mappedName) as [id'|] eqn:Hq.
  - intros H. injection H as <-. exists [], q, qs. repeat split; auto.
  - intros H. destruct (IH id H) as (pre & q' & post & -> & Hpre & Hq').
    exists (q :: pre), q', post. repeat split; auto.
    constructor; [|assumption]. now apply (tryMatch_None q mappedName).
Qed.

(** X2: [findFolderByName] searches for the names of [queries] in
    order and stops at the first search that finds a folder.  It gives
    [null] exactly when every search finds nothing; otherwise its result is
    the identifier of the folder that [selectBestMatch] picks, against the
    mapped name, among the folders of the first successful search. *)
Theorem findFolderByName_first_successful_search :
  forall characterName mappings,
    (findFolderByName toLowerCase searchFolder characterName mappings = None
     <-> Forall (findsNothing searchFolder)
           (queries toLowerCase
              (applyMapping toLowerCase characterName mappings)))
    /\ (forall id,
          findFolderByName toLowerCase searchFolder characterName mappings
          = Some id ->
          exists pre q post fs best,
            queries toLowerCase
              (applyMapping toLowerCase characterName mappings)
            = pre ++ q :: post
            /\ Forall (findsNothing searchFolder) pre
            /\ searchFolder q = Some fs
            /\ fs <> []
            /\ selectBestMatch toLowerCase (Some fs)
                 (applyMapping toLowerCase characterName mappings)
               = Some best
            /\ In best fs
            /\ _id best = id).
Proof.
  intros characterName mappings. rewrite findFolderByName_as_first_hit.
  split; [apply tryWords_None|].
  intros id H. apply tryWords_Some in H.
  destruct H as (pre & q & post & Hq & Hpre & Hm).
  apply tryMatch_Some in Hm. destruct Hm as (fs & best & H1 & H2 & H3 & H4 & H5).
  exists pre, q, post, fs, best. repeat split; auto.
Qed.

End Facts.

Lemma byLengthDesc_spec :
  forall a b, byLengthDesc a b = true <-> List.length b < List.length a.
Proof.
  intros a b. unfold byLengthDesc. rewrite Z.ltb_lt. lia.
Qed.

Lemma insert_by_length_sorted :
  forall x l,
    StronglySorted (fun a b => List.length b <= List.length a) l ->
    StronglySorted (fun a b => List.length b <= List.length a)
                   (sort_insert byLengthDesc x l).
Proof.
  induction l as [|y l IH]; intros Hs; simpl.
  - constructor; constructor.
  - inversion Hs as [|? ? Hl Hy]; subst.
    destruct (byLengthDesc y x) eqn:Hb.
    + apply byLengthDesc_spec in Hb. constructor; [now apply IH|].
      apply Forall_forall. intros z Hz. apply sort_insert_In in Hz.
      destruct Hz as [->|Hz]; [lia|].
      rewrite Forall_forall in Hy. now apply Hy.
    + assert (Hle : List.length y <= List.length x).
      { destruct (Nat.le_gt_cases (List.length y) (List.length x)) as [H|H];
          [exact H|].
        apply byLengthDesc_spec in H. congruence. }
      constructor; [assumption|]. constructor; [assumption|].
      rewrite Forall_forall in *. intros z Hz. specialize (Hy z Hz). lia.
Qed.

(** X3: the words tried in step 3 are the words of the mapped name of
    at least two code units, each as often as it occurs, longest first;
    words of the same length keep the order they have in the name. *)
Theorem wordsToTry_longest_first :
  forall mappedName,
    StronglySorted (fun a b => List.length b <= List.length a)
                   (wordsToTry mappedName)
    /\ Permutation (wordsToTry mappedName)
         (List.filter (fun word => 2 <=? List.length word)
                      (split_ws mappedName))
    /\ (forall w, In w (wordsToTry mappedName) <->
                  In w (split_ws mappedName) /\ 2 <= List.length w)
    /\ (forall a b,
          precedes a b (List.filter (fun word => 2 <=? List.length word)
                                    (split_ws mappedName)) ->
          List.length b <= List.length a ->
          precedes a b (wordsToTry mappedName)).
Proof.
  intros mappedName. unfold wordsToTry. split; [|split; [|split]].
  - induction (List.filter _ _) as [|x l IH]; simpl; [constructor|].
    now apply insert_by_length_sorted.
  - apply sort_Permutation.
  - intros w. rewrite sort_In, filter_In, Nat.leb_le. reflexivity.
  - intros a b Hp Hlen. apply sort_stable; [assumption|].
    destruct (byLengthDesc b a) eqn:Hb; [|reflexivity].
    apply byLengthDesc_spec in Hb. lia.
Qed.

(** X4: [matchCharacterFolders] keeps the characters and their order.
    [filterMatchedCharacters] and [getUnmatchedCharacterNames] split its
    result in two: the characters for which [findFolderByName] gives a
    folder, with that folder's identifier, and the names of those for
    which it gives [null]. *)
Theorem matchCharacterFolders_partitions_characters :
  forall toLowerCase searchFolder characters mappings,
    let result :=
      matchCharacterFolders toLowerCase searchFolder characters mappings in
    List.map char_name result = List.map char_name characters
    /\ List.length (filterMatchedCharacters result)
       + List.length (getUnmatchedCharacterNames result)
       = List.length characters
    /\ (forall c, In c (filterMatchedCharacters result) <->
                  exists c0 id,
                    In c0 characters
                    /\ findFolderByName toLowerCase searchFolder
                         (char_name c0) mappings = Some id
                    /\ c = {| char_name := char_name c0; folderId := Id id |})
    /\ getUnmatchedCharacterNames result
       = List.filter
           (fun n =>
              match findFolderByName toLowerCase searchFolder n mappings with
              | Some _ => false
              | None => true
              end)
           (List.map char_name characters).
Proof.
  intros toLowerCase searchFolder characters mappings result.
  subst result. unfold matchCharacterFolders, filterMatchedCharacters,
    getUnmatchedCharacterNames.
  split; [|split; [|split]].
  - rewrite map_map. reflexivity.
  - rewrite length_map.
    induction characters as [|c cs IH]; simpl; [reflexivity|].
    destruct (findFolderByName _ _ _ _); simpl; lia.
  - intros c. rewrite filter_In, in_map_iff. split.
    + intros [(c0 & <- & Hin) Hnn]. cbn [folderId] in Hnn.
      destruct (findFolderByName toLowerCase searchFolder (char_name c0)
                  mappings) as [id|] eqn:Hf; [|discriminate].
      exists c0, id. auto.
    + intros (c0 & id & Hin & Hf & ->). split; [|reflexivity].
      exists c0. rewrite Hf. auto.
  - induction characters as [|c cs IH]; simpl; [reflexivity|].
    destruct (findFolderByName _ _ _ _); simpl; now rewrite IH.
Qed.

Lemma applyMapping_uses_matching_entry_witness :
  applyMapping toLowerCase_latin (lit "Gaon") (Some mappings_gaon) = lit "rei"
  /\ applyMapping toLowerCase_latin (lit "nobody") (Some mappings_gaon)
     = lit "nobody".
Proof.
  split.
  - destruct (@applyMapping_uses_matching_entry toLowerCase_latin
                (lit "Gaon") mappings_gaon) as (_ & _ & H & _).
    apply (H (ValString (lit "rei"))); [reflexivity | reflexivity |].
    discriminate.
  - destruct (@applyMapping_uses_matching_entry toLowerCase_latin
                (lit "nobody") mappings_gaon) as (_ & H & _).
    apply H. intros k v [E|[E|[]]]; inversion E; subst; discriminate.
Defined.

Lemma findFolderByName_first_successful_search_witness :
  findFolderByName toLowerCase_latin search_stella (lit "nobody") None = None.
Proof.
  apply (@findFolderByName_first_successful_search toLowerCase_latin
           search_stella (lit "nobody") None).
  repeat constructor.
Defined.

Lemma wordsToTry_longest_first_witness :
  In (lit "stella") (wordsToTry (lit "envy stella"))
  /\ precedes (lit "ab") (lit "cd") (wordsToTry (lit "ab cd")).
Proof.
  split.
  - destruct (wordsToTry_longest_first (lit "envy stella"))
      as (_ & _ & Hin & _).
    apply Hin. split; [right; left; reflexivity | cbn; lia].
  - destruct (wordsToTry_longest_first (lit "ab cd")) as (_ & _ & _ & Hord).
    apply Hord; [exists [], [], []; reflexivity | cbn; lia].
Defined.

Lemma matchCharacterFolders_partitions_characters_witness :
  In {| char_name := lit "envy stella"; folderId := Id (lit "f1") |}
     (filterMatchedCharacters
        (matchCharacterFolders toLowerCase_latin search_stella
                               characters_two None)).
Proof.
  destruct (@matchCharacterFolders_partitions_characters toLowerCase_latin
              search_stella characters_two None) as (_ & _ & H & _).
  apply H.
  exists {| char_name := lit "envy stella"; folderId := Undefined |},
         (lit "f1").
  split; [left; reflexivity|]. split; reflexivity.
Defined.

End FolderSearchFacts.

(* ================================================================= *)
(** * Further facts about the caches *)

Module JsMapMoreFacts.

Import JsFacts JsMapFacts.

Section MapFacts.
Variable V : Type.
Implicit Types (m : JsMap.t V) (k : jsstring) (v : V).

Lemma get_set_same : forall m k v, JsMap.get (JsMap.set m k v) k = Some v.
Proof.
  induction m as [|[k' v'] m IH]; intros k v; simpl.
  - now rewrite eqb_refl.
  - destruct (Js.eqb k' k) eqn:E; simpl; rewrite E; auto.
Qed.

Lemma get_set_other :
  forall m k k' v, k' <> k -> JsMap.get (JsMap.set m k v) k' = JsMap.get m k'.
Proof.
  induction m as [|[k0 v0] m IH]; intros k k' v Hne; simpl.
  - apply eqb_neq in Hne. assert (H : Js.eqb k k' = false).
    { apply eqb_neq. apply eqb_neq in Hne. congruence. }
    now rewrite H.
  - destruct (Js.eqb k0 k) eqn:E; simpl.
    + apply eqb_eq in E. subst k0.
      assert (H : Js.eqb k k' = false) by (apply eqb_neq; congruence).
      now rewrite H.
    + destruct (Js.eqb k0 k'); auto.
Qed.

Lemma get_delete_other :
  forall m k k', k' <> k -> JsMap.get (JsMap.delete m k) k' = JsMap.get m k'.
Proof.
  induction m as [|[k0 v0] m IH]; intros k k' Hne; simpl; [reflexivity|].
  destruct (Js.eqb k0 k) eqn:E; simpl.
  - apply eqb_eq in E. subst k0.
    assert (H : Js.eqb k k' = false) by (apply eqb_neq; congruence).
    now rewrite H.
  - destruct (Js.eqb k0 k'); auto.
Qed.

Lemma delete_not_present :
  forall m k, ~ In k (JsMap.keys m) -> JsMap.delete m k = m.
Proof.
  induction m as [|[k0 v0] m IH]; intros k H; simpl in *; [reflexivity|].
  destruct (Js.eqb k0 k) eqn:E.
  - apply eqb_eq in E. exfalso. auto.
  - rewrite IH; auto.
Qed.

Lemma has_true_iff :
  forall m k, JsMap.has m k = true <-> In k (JsMap.keys m).
Proof.
  intros m k. unfold JsMap.has.
  destruct (JsMap.get m k) as [v|] eqn:H.
  - split; [intros _|reflexivity]. apply get_Some_In in H.
    change k with (fst (k, v)). now apply in_map.
  - apply get_None_iff in H. split; [discriminate | tauto].
Qed.

Lemma delete_last :
  forall m k v,
    ~ In k (JsMap.keys m) -> JsMap.delete (m ++ [(k, v)]) k = m.
Proof.
  induction m as [|[k0 v0] m IH]; intros k v H; simpl in *.
  - now rewrite eqb_refl.
  - destruct (Js.eqb k0 k) eqn:E.
    + apply eqb_eq in E. exfalso. auto.
    + rewrite IH; auto.
Qed.

End MapFacts.

End JsMapMoreFacts.

Module CacheMoreFacts.

Import JsFacts JsMapFacts JsMapMoreFacts CacheFacts Cache SpecDefs MoreDefs.

Lemma createCacheKey_distinct :
  forall key key', key' <> key -> createCacheKey key' <> createCacheKey key.
Proof. intros key key' H E. apply H. now apply createCacheKey_injective. Qed.

(** X5: after [set], the [Map] holds under the key the entry made of the
    vector, the time of the call and the time to live given or else the
    default one.  A [get] of that key returns the vector as long as the
    entry has not expired; once it has, [get] returns [null] and the key
    is gone. *)
Theorem set_then_get_returns_vector :
  forall c t key emb ttl0 now,
    wf c ->
    JsMap.get (cache (set c t key emb ttl0)) (createCacheKey key)
    = Some (storedEntry c t emb ttl0)
    /\ (expired now (storedEntry c t emb ttl0) = false ->
        fst (get (set c t key emb ttl0) now key) = Some emb)
    /\ (expired now (storedEntry c t emb ttl0) = true ->
        fst (get (set c t key emb ttl0) now key) = None
        /\ has (snd (get (set c t key emb ttl0) now key)) key = false).
Proof.
  intros c t key emb ttl0 now Hwf.
  pose proof (wf_set t key emb ttl0 Hwf) as (Hnd & _).
  assert (Hget :
            JsMap.get (cache (set c t key emb ttl0)) (createCacheKey key)
            = Some (storedEntry c t emb ttl0)).
  { rewrite set_unfold by assumption. cbn [cache withCache].
    apply get_set_same. }
  split; [exact Hget|]. split; intros Hexp.
  - rewrite (@get_hit _ now key _ Hnd Hget Hexp). reflexivity.
  - rewrite (@get_expired _ now key _ Hget Hexp). cbn [fst snd].
    split; [reflexivity|]. unfold has, JsMap.has. cbn [cache withCache].
    pose proof (@delete_absent _ _ (createCacheKey key) Hnd) as Habs.
    apply get_None_iff in Habs. now rewrite Habs.
Qed.

Lemma set_then_get_returns_vector_witness :
  fst (get (set cache_a 0%float key_b [2%float] None) 1000%float key_b)
  = Some [2%float].
Proof.
  assert (Hwf : wf cache_a) by concrete_wf.
  apply (@set_then_get_returns_vector cache_a 0%float key_b [2%float] None
           1000%float Hwf).
  reflexivity.
Defined.

(** X6: [delete] reports whether the key was present.  Afterwards the
    key is absent and a [get] of it returns [null]; the size drops by one
    when the key was present and the [Map] is unchanged when it was not;
    the entry of every other key is as before. *)
Theorem delete_removes_that_key_only :
  forall c key,
    wf c ->
    fst (delete c key) = has c key
    /\ has (snd (delete c key)) key = false
    /\ (forall now, fst (get (snd (delete c key)) now key) = None)
    /\ (has c key = true -> S (size (snd (delete c key))) = size c)
    /\ (has c key = false -> cache (snd (delete c key)) = cache c)
    /\ (forall key',
          key' <> key ->
          JsMap.get (cache (snd (delete c key))) (createCacheKey key')
          = JsMap.get (cache c) (createCacheKey key')).
Proof.
  intros c key (Hnd & _). unfold delete. cbn [fst snd cache withCache].
  pose proof (@delete_absent _ _ (createCacheKey key) Hnd) as Habs.
  apply get_None_iff in Habs.
  split; [reflexivity|]. split; [|split; [|split; [|split]]].
  - unfold has, JsMap.has. cbn [cache withCache]. now rewrite Habs.
  - intros now. unfold get. cbn [cache withCache]. now rewrite Habs.
  - intros H. unfold size. cbn [cache withCache].
    apply size_delete_present. now apply has_true_iff.
  - intros H. apply delete_not_present. rewrite <- has_true_iff.
    unfold has in H. congruence.
  - intros key' Hne. apply get_delete_other.
    now apply createCacheKey_distinct.
Qed.

(** X7: a [get] of one key leaves the entry of every other key as it
    is, and so does a [set] of one key, unless the cache is full and the
    other key is the first of the [Map], which [set] then evicts. *)
Theorem other_keys_keep_their_entries :
  forall c now key key',
    wf c ->
    key' <> key ->
    JsMap.get (cache (snd (get c now key))) (createCacheKey key')
    = JsMap.get (cache c) (createCacheKey key')
    /\ (forall emb ttl0,
          size c < maxSize c
          \/ JsMap.firstKey (cache c) <> Some (createCacheKey key') ->
          JsMap.get (cache (set c now key emb ttl0)) (createCacheKey key')
          = JsMap.get (cache c) (createCacheKey key')).
Proof.
  intros c now key key' Hwf Hne.
  pose proof (createCacheKey_distinct Hne) as Hck. split.
  - unfold get.
    destruct (JsMap.get (cache c) (createCacheKey key)) as [entry|];
      [|reflexivity].
    destruct (expired now entry); cbn [snd cache withCache].
    + now apply get_delete_other.
    + rewrite get_set_other by assumption. now apply get_delete_other.
  - intros emb ttl0 Hroom. rewrite set_unfold by assumption.
    cbn [cache withCache]. rewrite get_set_other by assumption.
    unfold afterEviction.
    destruct (Nat.leb_spec (maxSize c) (size c)) as [Hfull|_];
      [|reflexivity].
    destruct Hroom as [Hroom|Hfirst]; [lia|].
    destruct (cache c) as [|[k0 v0] m]; [reflexivity|].
    cbn [List.tl JsMap.get]. cbn [JsMap.firstKey] in Hfirst.
    destruct (Js.eqb k0 (createCacheKey key')) eqn:E; [|reflexivity].
    apply eqb_eq in E. congruence.
Qed.

Lemma delete_removes_that_key_only_witness :
  S (size (snd (delete cache_ab key_a))) = size cache_ab
  /\ cache (snd (delete cache_ab key_c)) = cache cache_ab.
Proof.
  assert (Hwf : wf cache_ab) by concrete_wf.
  split.
  - destruct (@delete_removes_that_key_only cache_ab key_a Hwf)
      as (_ & _ & _ & H & _).
    apply H. reflexivity.
  - destruct (@delete_removes_that_key_only cache_ab key_c Hwf)
      as (_ & _ & _ & _ & H & _).
    apply H. reflexivity.
Defined.

Lemma other_keys_keep_their_entries_witness :
  JsMap.get (cache (snd (get cache_ab 1000%float key_a))) (createCacheKey key_b)
  = JsMap.get (cache cache_ab) (createCacheKey key_b)
  /\ JsMap.get (cache (set cache_ab 1000%float key_c [3%float] None))
                (createCacheKey key_b)
     = JsMap.get (cache cache_ab) (createCacheKey key_b).
Proof.
  assert (Hwf : wf cache_ab) by concrete_wf.
  split.
  - apply (@other_keys_keep_their_entries cache_ab 1000%float key_a key_b Hwf).
    discriminate.
  - assert (Hne : key_b <> key_c) by discriminate.
    destruct (@other_keys_keep_their_entries cache_ab 1000%float key_c key_b
                Hwf Hne) as (_ & H).
    apply H. right. discriminate.
Defined.

End CacheMoreFacts.

Module LRUCacheFacts.

Import JsFacts JsMapFacts JsMapMoreFacts.

Section Facts.
Variable V : Type.
Implicit Types (c : LRUCache.t V) (key : jsstring) (value : V).

Lemma size_get_le :
  forall c key, LRUCache.size (snd (LRUCache.get c key)) <= LRUCache.size c.
Proof.
  intros c key. unfold LRUCache.get, LRUCache.size.
  destruct (JsMap.get (LRUCache.cache c) key) as [value|] eqn:H;
    cbn [snd LRUCache.cache LRUCache.withCache]; [|lia].
  pose proof (size_set_le (JsMap.delete (LRUCache.cache c) key) key value).
  assert (Hin : In key (JsMap.keys (LRUCache.cache c))).
  { apply has_true_iff. unfold JsMap.has. now rewrite H. }
  pose proof (size_delete_present _ _ Hin). lia.
Qed.

Lemma size_set_bound :
  forall c key value,
    LRUCache.size c <= Nat.max 1 (LRUCache.capacity c) ->
    LRUCache.size (LRUCache.set c key value)
    <= Nat.max 1 (LRUCache.capacity c).
Proof.
  intros c key value Hsz. unfold LRUCache.set, LRUCache.size in *.
  cbn [LRUCache.cache LRUCache.withCache].
  assert (H1 : 1 <= Nat.max 1 (LRUCache.capacity c)) by lia.
  assert (Hc : LRUCache.capacity c <= Nat.max 1 (LRUCache.capacity c)) by lia.
  set (bound := Nat.max 1 (LRUCache.capacity c)) in *.
  destruct (JsMap.has (LRUCache.cache c) key) eqn:Hhas.
  - apply has_true_iff in Hhas.
    pose proof (size_delete_present _ _ Hhas).
    pose proof (size_set_le (JsMap.delete (LRUCache.cache c) key) key value).
    lia.
  - destruct (Nat.leb_spec (LRUCache.capacity c)
                           (JsMap.size (LRUCache.cache c))) as [Hfull|Hroom].
    + destruct (LRUCache.cache c) as [|[k0 v0] m] eqn:E.
      * cbn [JsMap.firstKey].
        pose proof (size_set_le (@nil (jsstring * V)) key value) as Hs.
        unfold JsMap.size in *. simpl in *. lia.
      * cbn [JsMap.firstKey JsMap.delete]. rewrite eqb_refl.
        pose proof (size_set_le m key value).
        unfold JsMap.size in *. simpl in *. lia.
    + pose proof (size_set_le (LRUCache.cache c) key value). lia.
Qed.

Lemma run_size_bound :
  forall ops c,
    LRUCache.size c <= Nat.max 1 (LRUCache.capacity c) ->
    LRUCache.size (LRUCache.run c ops) <= Nat.max 1 (LRUCache.capacity c).
Proof.
  unfold LRUCache.run.
  induction ops as [|op ops IH]; intros c Hsz; [exact Hsz|].
  cbn [fold_left].
  assert (Hcap : LRUCache.capacity (LRUCache.step c op) = LRUCache.capacity c).
  { destruct op; simpl; try reflexivity.
    unfold LRUCache.get. destruct (JsMap.get _ _); reflexivity. }
  rewrite <- Hcap. apply IH; rewrite Hcap.
  destruct op as [key|key value|key|]; cbn [LRUCache.step].
  - pose proof (size_get_le c key). lia.
  - now apply size_set_bound.
  - unfold LRUCache.delete, LRUCache.size in *.
    cbn [snd LRUCache.cache LRUCache.withCache].
    pose proof (size_delete_le (LRUCache.cache c) key). lia.
  - unfold LRUCache.clear, LRUCache.size, JsMap.size.
    cbn [LRUCache.cache LRUCache.withCache List.length]. lia.
Qed.

(** X8: whatever calls of [get], [set], [delete] and [clear] are made on
    a new [LRUCache], it never holds more entries than its capacity, or
    than one when the capacity is zero; with capacity zero every [set]
    leaves exactly the entry just stored. *)
Theorem lru_size_within_capacity :
  forall n ops,
    LRUCache.size (LRUCache.run (LRUCache.new V (Some n)) ops) <= Nat.max 1 n
    /\ (n = 0 ->
        forall key value,
          LRUCache.cache
            (LRUCache.set (LRUCache.run (LRUCache.new V (Some n)) ops)
                          key value)
          = [(key, value)]).
Proof.
  intros n ops.
  assert (Hb : LRUCache.size (LRUCache.run (LRUCache.new V (Some n)) ops)
               <= Nat.max 1 n).
  { apply (@run_size_bound ops (LRUCache.new V (Some n))).
    unfold LRUCache.size. simpl. lia. }
  split; [exact Hb|]. intros -> key value.
  assert (Hcap : forall ops' c,
             LRUCache.capacity (LRUCache.run c ops') = LRUCache.capacity c).
  { unfold LRUCache.run. induction ops' as [|op ops' IH]; intros c;
      [reflexivity|].
    cbn [fold_left]. rewrite IH. destruct op; simpl; try reflexivity.
    unfold LRUCache.get. destruct (JsMap.get _ _); reflexivity. }
  specialize (Hcap ops (LRUCache.new V (Some 0))). cbn in Hcap.
  unfold LRUCache.set, LRUCache.size in *. rewrite Hcap.
  cbn [LRUCache.cache LRUCache.withCache Nat.leb].
  destruct (LRUCache.cache (LRUCache.run (LRUCache.new V (Some 0)) ops))
    as [|[k0 v0] [|e m]]; [| |cbn in Hb; lia].
  - reflexivity.
  - unfold JsMap.has. cbn [JsMap.get JsMap.firstKey JsMap.delete].
    destruct (Js.eqb k0 key) eqn:E.
    + reflexivity.
    + rewrite eqb_refl. reflexivity.
Qed.

(** X9: a [set] of a key that is present replaces its value, moves it
    to the most recent position and evicts nothing, also when the cache is
    full; a [set] of a new key appends it, after evicting the least
    recently used entry when the cache is full. *)
Theorem lru_set_evicts_only_for_a_new_key :
  forall c key value,
    NoDup (JsMap.keys (LRUCache.cache c)) ->
    (LRUCache.has c key = true ->
     LRUCache.cache (LRUCache.set c key value)
     = JsMap.delete (LRUCache.cache c) key ++ [(key, value)]
     /\ LRUCache.size (LRUCache.set c key value) = LRUCache.size c
     /\ (forall key', key' <> key ->
           JsMap.get (LRUCache.cache (LRUCache.set c key value)) key'
           = JsMap.get (LRUCache.cache c) key'))
    /\ (LRUCache.has c key = false ->
        LRUCache.size c < LRUCache.capacity c ->
        LRUCache.cache (LRUCache.set c key value)
        = LRUCache.cache c ++ [(key, value)])
    /\ (LRUCache.has c key = false ->
        LRUCache.capacity c <= LRUCache.size c ->
        LRUCache.cache (LRUCache.set c key value)
        = List.tl (LRUCache.cache c) ++ [(key, value)]).
Proof.
  intros c key value Hnd. unfold LRUCache.has, LRUCache.set, LRUCache.size.
  cbn [LRUCache.cache LRUCache.withCache].
  split; [|split].
  - intros Hhas. rewrite Hhas.
    assert (Hc : JsMap.set (JsMap.delete (LRUCache.cache c) key) key value
                 = JsMap.delete (LRUCache.cache c) key ++ [(key, value)])
      by (apply set_new; now apply delete_absent).
    rewrite Hc. split; [reflexivity|]. split.
    + apply has_true_iff in Hhas.
      pose proof (size_delete_present _ _ Hhas) as Hs.
      unfold JsMap.size in *. rewrite length_app. simpl. lia.
    + intros key' Hne. rewrite <- Hc, get_set_other by assumption.
      now apply get_delete_other.
  - intros Hhas Hroom. rewrite Hhas.
    destruct (Nat.leb_spec (LRUCache.capacity c)
                           (JsMap.size (LRUCache.cache c))); [lia|].
    apply set_new. rewrite <- has_true_iff. congruence.
  - intros Hhas Hfull. rewrite Hhas.
    apply Nat.leb_le in Hfull. rewrite Hfull.
    assert (Hnotin : ~ In key (JsMap.keys (LRUCache.cache c)))
      by (rewrite <- has_true_iff; congruence).
    destruct (LRUCache.cache c) as [|[k0 v0] m]; [reflexivity|].
    cbn [JsMap.firstKey JsMap.delete List.tl]. rewrite eqb_refl.
    apply set_new. intros H. apply Hnotin. right. exact H.
Qed.

(** X10: a [get] of an absent key returns [null] and changes nothing;
    a [get] of a present key returns its value and moves the entry to the
    most recent position; a [get] right after a [set] of the same key
    returns the value just stored and changes nothing. *)
Theorem lru_get_returns_and_promotes :
  forall c key,
    NoDup (JsMap.keys (LRUCache.cache c)) ->
    (LRUCache.has c key = false -> LRUCache.get c key = (None, c))
    /\ (forall value,
          JsMap.get (LRUCache.cache c) key = Some value ->
          fst (LRUCache.get c key) = Some value
          /\ LRUCache.cache (snd (LRUCache.get c key))
             = JsMap.delete (LRUCache.cache c) key ++ [(key, value)])
    /\ (forall value,
          LRUCache.get (LRUCache.set c key value) key
          = (Some value, LRUCache.set c key value)).
Proof.
  intros c key Hnd. split; [|split].
  - unfold LRUCache.has, JsMap.has, LRUCache.get.
    destruct (JsMap.get (LRUCache.cache c) key); [discriminate|reflexivity].
  - intros value Hget. unfold LRUCache.get. rewrite Hget.
    cbn [fst snd LRUCache.cache LRUCache.withCache].
    split; [reflexivity|]. apply set_new. now apply delete_absent.
  - intros value.
    assert (Hlast : exists m,
               LRUCache.cache (LRUCache.set c key value) = m ++ [(key, value)]
               /\ ~ In key (JsMap.keys m)).
    { unfold LRUCache.set. cbn [LRUCache.cache LRUCache.withCache].
      destruct (JsMap.has (LRUCache.cache c) key) eqn:Hhas.
      - exists (JsMap.delete (LRUCache.cache c) key).
        split; [apply set_new|]; now apply delete_absent.
      - assert (Hnotin : ~ In key (JsMap.keys (LRUCache.cache c)))
          by (rewrite <- has_true_iff; congruence).
        destruct (LRUCache.capacity c <=? JsMap.size (LRUCache.cache c)).
        + destruct (LRUCache.cache c) as [|[k0 v0] m].
          * exists []. split; [reflexivity | intros []].
          * cbn [JsMap.firstKey JsMap.delete]. rewrite eqb_refl.
            assert (Hm : ~ In key (JsMap.keys m))
              by (intros H; apply Hnotin; right; exact H).
            exists m. split; [now apply set_new | assumption].
        + exists (LRUCache.cache c). split; [now apply set_new | assumption]. }
    destruct Hlast as (m & Hm & Hnotin).
    unfold LRUCache.get. rewrite Hm.
    assert (Hg : JsMap.get (m ++ [(key, value)]) key = Some value).
    { rewrite <- Hm. unfold LRUCache.set.
      cbn [LRUCache.cache LRUCache.withCache]. apply get_set_same. }
    rewrite Hg. rewrite delete_last by assumption.
    rewrite set_new by assumption. f_equal.
    destruct (LRUCache.set c key value) as [cap mm]. cbn in *. now subst.
Qed.

End Facts.

Lemma lru_size_within_capacity_witness :
  LRUCache.cache
    (LRUCache.set
       (LRUCache.run (LRUCache.new nat (Some 0)) [LRUCache.OpSet (lit "a") 1])
       (lit "b") 2)
  = [(lit "b", 2)].
Proof.
  destruct (@lru_size_within_capacity nat 0 [LRUCache.OpSet (lit "a") 1])
    as (_ & H).
  apply H. reflexivity.
Defined.

Lemma lru_set_evicts_only_for_a_new_key_witness :
  let c := LRUCache.run (LRUCache.new nat (Some 2))
             [LRUCache.OpSet (lit "a") 1; LRUCache.OpSet (lit "b") 2] in
  LRUCache.cache (LRUCache.set c (lit "a") 3) = [(lit "b", 2); (lit "a", 3)]
  /\ LRUCache.cache (LRUCache.set c (lit "c") 3)
     = [(lit "b", 2); (lit "c", 3)].
Proof.
  intros c.
  assert (Hnd : NoDup (JsMap.keys (LRUCache.cache c))).
  { repeat constructor; cbn; intuition discriminate. }
  split.
  - destruct (@lru_set_evicts_only_for_a_new_key nat c (lit "a") 3 Hnd)
      as (H & _).
    apply H. reflexivity.
  - destruct (@lru_set_evicts_only_for_a_new_key nat c (lit "c") 3 Hnd)
      as (_ & _ & H).
    apply H; [reflexivity | cbn; lia].
Defined.

Lemma lru_get_returns_and_promotes_witness :
  let c := LRUCache.run (LRUCache.new nat (Some 2))
             [LRUCache.OpSet (lit "a") 1; LRUCache.OpSet (lit "b") 2] in
  fst (LRUCache.get c (lit "a")) = Some 1
  /\ LRUCache.cache (snd (LRUCache.get c (lit "a")))
     = [(lit "b", 2); (lit "a", 1)].
Proof.
  intros c.
  assert (Hnd : NoDup (JsMap.keys (LRUCache.cache c))).
  { repeat constructor; cbn; intuition discriminate. }
  destruct (@lru_get_returns_and_promotes nat c (lit "a") Hnd)
    as (_ & H & _).
  apply (H 1). reflexivity.
Defined.

End LRUCacheFacts.

(* ================================================================= *)
(** * Further facts about the similarity functions *)

Module SimilarityMoreFacts.

Import JsFacts SortMoreFacts Similarity SimilarityBatch MoreDefs.

(** X11: [computeBatchSimilarity] returns one similarity for each
    candidate, in order, when every candidate has the dimension of the
    query; otherwise it throws the dimension error of the first candidate
    that has another dimension, and returns nothing for the others. *)
Theorem computeBatchSimilarity_all_or_first_mismatch :
  forall (q : Embedding) (cs : list Embedding),
    (Forall (fun c => List.length c = List.length q) cs ->
     exists sims,
       computeBatchSimilarity q cs = Ok sims
       /\ Forall2 (fun c s => computeCosineSimilarity q c = Ok s) cs sims)
    /\ (forall pre c post,
          cs = pre ++ c :: post ->
          Forall (fun x => List.length x = List.length q) pre ->
          List.length c <> List.length q ->
          computeBatchSimilarity q cs
          = Throw (EmbeddingDimensionsMustMatch (List.length q)
                                                (List.length c))).
Proof.
  intros q cs.
  assert (Hok : forall c, List.length c = List.length q ->
                          exists s, computeCosineSimilarity q c = Ok s).
  { intros c Hc. unfold computeCosineSimilarity, computeDotProduct.
    rewrite Hc, Nat.eqb_refl. cbn [negb].
    destruct (_ || _)%bool; eauto. }
  split.
  - induction cs as [|c cs IH]; intros Hall.
    + exists []. split; [reflexivity | constructor].
    + inversion Hall as [|? ? Hc Hall']; subst.
      destruct (Hok c Hc) as [s Hs]. destruct (IH Hall') as (sims & Hb & Hf).
      exists (s :: sims). cbn [computeBatchSimilarity]. rewrite Hs, Hb.
      split; [reflexivity | now constructor].
  - intros pre c post -> Hpre Hc.
    induction pre as [|p pre IH]; cbn [app computeBatchSimilarity].
    + unfold computeCosineSimilarity at 1.
      destruct (Nat.eqb_spec (List.length q) (List.length c)) as [E|_];
        [congruence | reflexivity].
    + inversion Hpre as [|? ? Hp Hpre']; subst.
      destruct (Hok p Hp) as [s Hs]. rewrite Hs, (IH Hpre'). reflexivity.
Qed.

Lemma mapi_combine :
  forall (T : Type) (items : list T) (scores pre : list float),
    List.length items = List.length scores ->
    mapi (fun item idx => (item, at_index (pre ++ scores) idx))
         items (List.length pre)
    = List.combine items scores.
Proof.
  induction items as [|x items IH]; intros scores pre Hlen; [reflexivity|].
  destruct scores as [|s scores]; [discriminate|].
  cbn [mapi List.combine]. f_equal.
  - unfold at_index. now rewrite nth_middle.
  - specialize (IH scores (pre ++ [s])).
    rewrite <- app_assoc, length_app in IH. cbn [app List.length] in IH.
    rewrite Nat.add_1_r in IH. apply IH. simpl in Hlen. lia.
Qed.

(** X12: [sortBySimilarity] throws when the two arrays differ in
    length.  Otherwise it returns the pairs of item and score rearranged,
    none lost and none added; and when no score is NaN, a pair stays
    before every later pair whose score is not greater, so that pairs of
    equal score keep their order. *)
Theorem sortBySimilarity_permutes_and_is_stable :
  forall (T : Type) (items : list T) (scores : list float),
    (List.length items <> List.length scores ->
     sortBySimilarity items scores = Throw ItemsAndScoresMustHaveSameLength)
    /\ (List.length items = List.length scores ->
        exists sorted,
          sortBySimilarity items scores = Ok sorted
          /\ Permutation sorted (List.combine items scores)
          /\ List.length sorted = List.length items
          /\ (Forall (fun s => PrimFloat.is_nan s = false) scores ->
              forall a b,
                precedes a b (List.combine items scores) ->
                PrimFloat.ltb (snd a - snd b) 0 = false ->
                precedes a b sorted)).
Proof.
  intros T items scores. unfold sortBySimilarity. split.
  - intros Hne. apply Nat.eqb_neq in Hne. now rewrite Hne.
  - intros Heq. rewrite Heq, Nat.eqb_refl. cbn [negb].
    pose proof (@mapi_combine T items scores [] Heq) as Hm.
    cbn [app List.length] in Hm. rewrite Hm.
    eexists. split; [reflexivity|]. split; [apply sort_Permutation|].
    split.
    + rewrite sort_length, length_combine. lia.
    + intros _ a b Hp Hb. apply sort_stable; assumption.
Qed.

Lemma computeBatchSimilarity_all_or_first_mismatch_witness :
  computeBatchSimilarity [1%float; 0%float]
    [[1%float; 0%float]; [1%float]; [0%float; 1%float]]
  = Throw (EmbeddingDimensionsMustMatch 2 1).
Proof.
  destruct (computeBatchSimilarity_all_or_first_mismatch [1%float; 0%float]
              [[1%float; 0%float]; [1%float]; [0%float; 1%float]])
    as (_ & H).
  apply (H [[1%float; 0%float]] [1%float] [[0%float; 1%float]]).
  - reflexivity.
  - repeat constructor.
  - discriminate.
Defined.

Lemma sortBySimilarity_permutes_and_is_stable_witness :
  exists sorted,
    sortBySimilarity [lit "a"; lit "b"; lit "c"] [1%float; 2%float; 1%float]
    = Ok sorted
    /\ precedes (lit "a", 1%float) (lit "c", 1%float) sorted.
Proof.
  destruct (@sortBySimilarity_permutes_and_is_stable jsstring
              [lit "a"; lit "b"; lit "c"] [1%float; 2%float; 1%float])
    as (_ & H).
  destruct (H eq_refl) as (sorted & Hs & _ & _ & Hst).
  exists sorted. split; [exact Hs|].
  apply Hst.
  - repeat constructor.
  - exists [], [(lit "b", 2%float)], []. reflexivity.
  - reflexivity.
Defined.

End SimilarityMoreFacts.

(* ================================================================= *)
(** * Facts about the result of the filter *)

Module FilterFacts.

Import JsFacts Similarity Gallery ClipFilter SpecDefs MoreDefs StageCFacts.

Lemma In_firstn_sub :
  forall (A : Type) (n : nat) (l : list A) (x : A),
    In x (firstn n l) -> In x l.
Proof.
  intros A n l x H. rewrite <- (firstn_skipn n l).
  apply in_or_app. now left.
Qed.

Lemma selectedFrom_cons :
  forall minSim img imgs s,
    selectedFrom minSim imgs s -> selectedFrom minSim (img :: imgs) s.
Proof.
  unfold selectedFrom. intros minSim img imgs s (H1 & H2 & H3 & H4).
  repeat split; auto. now right.
Qed.

(** The entries made of the first [k] recorded similarities in sorted
    order are among the recorded ones. *)
Lemma top_selected :
  forall minSim images k (sims : list ImageSimilarity),
    Forall (selectedFrom minSim images) sims ->
    let top :=
      List.map (fun p => {| imageId := _id (fst p); similarity := snd p;
                            image := fst p |})
        (firstn k
           (Js.sort (@bySimilarityDesc Image)
              (List.map (fun s => (image s, similarity s)) sims))) in
    Forall (selectedFrom minSim images) top
    /\ List.length top <= k
    /\ List.length top <= List.length sims.
Proof.
  intros minSim images k sims F top. subst top.
  rewrite length_map, length_firstn, sort_length, length_map.
  split; [|lia].
  apply Forall_forall. intros s Hs.
  apply in_map_iff in Hs. destruct Hs as (p & <- & Hp).
  apply In_firstn_sub, sort_In, in_map_iff in Hp.
  destruct Hp as (s0 & <- & Hs0).
  rewrite Forall_forall in F. specialize (F _ Hs0).
  unfold selectedFrom in *. cbn. tauto.
Qed.

Section Filter.
Variable clock : nat -> float.
Variable client : EmbeddingRequest -> EmbeddingResponse.
Variable others : nat -> World -> World.

(** What the loop adds to its list: at most one entry for each image, each
    made from one of the images, and at most one cache hit for each. *)
Lemma similarityLoop_adds :
  forall textEmbedding minSim imgs sims hits w sims' hits' w',
    similarityLoop clock client others textEmbedding minSim imgs sims hits w
    = (Ok (sims', hits'), w') ->
    exists added,
      sims' = sims ++ added
      /\ List.length added <= List.length imgs
      /\ Forall (selectedFrom minSim imgs) added
      /\ hits <= hits' <= hits + List.length imgs.
Proof.
  intros textEmbedding minSim.
  induction imgs as [|img rest IH]; intros sims hits w sims' hits' w' H.
  - cbn [similarityLoop] in H. inversion H; subst.
    exists []. rewrite app_nil_r. cbn. repeat split; auto; lia.
  - assert (Hskip :
      forall w0, similarityLoop clock client others textEmbedding minSim
                   rest sims hits w0 = (Ok (sims', hits'), w') ->
      exists added,
        sims' = sims ++ added
        /\ List.length added <= List.length (img :: rest)
        /\ Forall (selectedFrom minSim (img :: rest)) added
        /\ hits <= hits' <= hits + List.length (img :: rest)).
    { intros w0 H0. destruct (IH _ _ _ _ _ _ H0) as (added & E & L & F & B).
      exists added. cbn [List.length]. repeat split; auto; try lia.
      eapply Forall_impl; [|exact F]. intros s. apply selectedFrom_cons. }
    cbn [similarityLoop] in H.
    destruct (or_else (imageUrl img) (thumbnail img)) as [url|] eqn:Eu;
      [|eauto].
    destruct (truthy (Some url)) eqn:Et; [|eauto].
    destruct (getImageEmbedding clock client others url w) as [[e|] w1];
      [|eauto].
    destruct (cacheGet clock _ (suspend others w1)) as [hit w2].
    destruct (computeCosineSimilarity textEmbedding e) as [sim|err] eqn:Ec;
      [|discriminate].
    destruct (IH _ _ _ _ _ _ H) as (added & E & L & F & B).
    assert (Hh : hits <= match hit with Some _ => S hits | None => hits end
                 <= S hits) by (destruct hit; lia).
    destruct (PrimFloat.leb minSim sim) eqn:El.
    + exists ({| imageId := _id img; similarity := sim; image := img |}
                :: added).
      rewrite <- app_assoc in E. cbn [app] in E. cbn [List.length].
      split; [exact E|]. split; [lia|]. split; [|lia].
      constructor.
      * unfold selectedFrom. cbn. repeat split; auto.
        unfold urlOf. rewrite Eu, Et. discriminate.
      * eapply Forall_impl; [|exact F]. intros s. apply selectedFrom_cons.
    + exists added. cbn [List.length]. split; [exact E|].
      split; [lia|]. split; [|lia].
      eapply Forall_impl; [|exact F]. intros s. apply selectedFrom_cons.
Qed.

(** The two ways the filter ends: with a failure, or with the first
    [topK] of the similarities that its loop recorded. *)
Lemma filterImagesBySimilarity_cases :
  forall sceneText images options w,
    (exists e,
        fst (filterImagesBySimilarity clock client others sceneText images
               options w) = failed e)
    \/ (exists sims hits,
           List.length sims <= List.length images
           /\ hits <= List.length images
           /\ Forall (selectedFrom (minSimilarityOf options) images) sims
           /\ fst (filterImagesBySimilarity clock client others sceneText
                     images options w)
              = {| success := true;
                   topImages :=
                     List.map (fun p => {| imageId := _id (fst p);
                                           similarity := snd p;
                                           image := fst p |})
                       (firstn (topKOf options)
                          (Js.sort (@bySimilarityDesc Image)
                             (List.map (fun s => (image s, similarity s))
                                       sims)));
                   totalProcessed := List.length sims;
                   cacheHits := hits;
                   error := None |}).
Proof.
  intros sceneText images options w.
  unfold filterImagesBySimilarity.
  fold (topKOf options). fold (minSimilarityOf options).
  destruct (getTextEmbedding clock client others sceneText w)
    as [[textEmbedding|] w1]; [|left; eexists; reflexivity].
  destruct (similarityLoop clock client others textEmbedding
              (minSimilarityOf options) images [] 0 (suspend others w1))
    as [[[sims hits]|e] w2] eqn:El; [|left; eexists; reflexivity].
  rewrite sortBySimilarity_recorded.
  apply similarityLoop_adds in El.
  destruct El as (added & E & L & F & B). cbn [app] in E. subst added.
  right. exists sims, hits. cbn [fst].
  split; [lia|]. split; [lia|]. split; [exact F | reflexivity].
Qed.

(** X13: whatever the provider, the cache and the other tasks do,
    [filterImagesBySimilarity] returns at most [topK] entries, never more
    than it counts as processed, which is never more than the number of
    images, as is the number of cache hits.  Every entry carries one of
    the images and that image's identifier, the image has a URL, and the
    similarity reaches the threshold.  A failed result has no entry and
    both counters at zero. *)
Theorem filter_result_is_bounded_selection_of_the_images :
  forall sceneText images options w,
    let r := fst (filterImagesBySimilarity clock client others
                    sceneText images options w) in
    List.length (topImages r) <= topKOf options
    /\ List.length (topImages r) <= totalProcessed r
    /\ totalProcessed r <= List.length images
    /\ cacheHits r <= List.length images
    /\ Forall (selectedFrom (minSimilarityOf options) images) (topImages r)
    /\ (success r = false ->
        topImages r = [] /\ totalProcessed r = 0 /\ cacheHits r = 0).
Proof.
  intros sceneText images options w r.
  destruct (filterImagesBySimilarity_cases sceneText images options w)
    as [[e He]|(sims & hits & Hlen & Hhits & F & Hr)]; fold r in He || fold r in Hr.
  - rewrite He. cbn. repeat split; auto; lia.
  - destruct (@top_selected (minSimilarityOf options) images
                (topKOf options) sims F) as (Hsel & Hk & Hn).
    rewrite Hr. cbn [topImages totalProcessed cacheHits success].
    split; [exact Hk|]. split; [exact Hn|]. split; [exact Hlen|].
    split; [exact Hhits|]. split; [exact Hsel | discriminate].
Qed.

End Filter.

Lemma filter_result_is_bounded_selection_of_the_images_witness :
  topImages
    (fst (filterImagesBySimilarity clock_zero client_text3 no_others
            (lit "walk in a park") images5
            {| topK := None; minSimilarity := None |} world_empty))
  = [].
Proof.
  pose proof (@filter_result_is_bounded_selection_of_the_images
                clock_zero client_text3 no_others (lit "walk in a park")
                images5 {| topK := None; minSimilarity := None |}
                world_empty) as H.
  cbv zeta in H. destruct H as (_ & _ & _ & _ & _ & H).
  apply H. reflexivity.
Defined.

End FilterFacts.

(* ================================================================= *)
(** * Further facts about Stage C *)

Module StageCMoreFacts.

Import JsFacts Similarity Gallery ClipFilter UnifiedSelect SpecDefs MoreDefs.
Import StageCFacts StageDFacts FilterFacts.

Section Route.
Variable clock : nat -> float.
Variable client : EmbeddingRequest -> EmbeddingResponse.
Variable others : nat -> World -> World.

Lemma selection_refl : forall f, selection f f.
Proof.
  intros f. unfold selection. split; [reflexivity|].
  split; [apply incl_refl | now left].
Qed.

Lemma clipFolder_selection :
  forall a f w, selection f (fst (clipFolder clock client others a f w)).
Proof.
  intros a f w. unfold clipFolder.
  destruct (List.length (imagesOf f) <=? 10) eqn:El; [apply selection_refl|].
  apply Nat.leb_gt in El.
  destruct (@filterImagesBySimilarity_cases clock client others
              (template (or_else (clipQuery a) (sceneSummary a)))
              (imagesOf f)
              {| topK := Some 10; minSimilarity := Some 0%float |} w)
    as [[e He]|(sims & hits & _ & _ & F & Hr)];
    destruct (filterImagesBySimilarity _ _ _ _ _ _ _) as [r w1];
    cbn [fst] in *; subst r; [apply selection_refl|].
  destruct (@top_selected
              (minSimilarityOf
                 {| topK := Some 10; minSimilarity := Some 0%float |})
              (imagesOf f)
              (topKOf {| topK := Some 10; minSimilarity := Some 0%float |})
              sims F) as (Hsel & Hk & _).
  cbv zeta in Hsel, Hk. cbn [success topImages andb].
  match goal with
  | |- context [0 <? List.length ?l] => set (top := l) in *
  end.
  destruct (0 <? List.length top) eqn:Hpos; cbn [fst];
    [|apply selection_refl].
  apply Nat.ltb_lt in Hpos. rewrite Forall_forall in Hsel.
  unfold selection. split; [reflexivity|].
  rewrite !StageBFacts.imagesOf_withImages.
  split.
  - intros img Hin. apply in_map_iff in Hin. destruct Hin as (s & <- & Hs).
    apply (Hsel _ Hs).
  - right. rewrite length_map. split; [exact El|].
    split; [unfold topKOf in Hk; cbn [topK] in Hk; lia|].
    apply Forall_forall. intros img Hin.
    apply in_map_iff in Hin. destruct Hin as (s & <- & Hs).
    apply (Hsel _ Hs).
Qed.

Lemma clipFolders_selection :
  forall a fs w,
    Forall2 selection fs (fst (clipFolders clock client others a fs w)).
Proof.
  intros a. induction fs as [|f fs IH]; intros w; [constructor|].
  cbn [clipFolders].
  pose proof (clipFolder_selection a f w) as Hf.
  destruct (clipFolder clock client others a f w) as [f' w1].
  specialize (IH w1).
  destruct (clipFolders clock client others a fs w1) as [fs' w2].
  cbn [fst] in *. now constructor.
Qed.

Lemma Forall2_selection_refl : forall fs, Forall2 selection fs fs.
Proof. induction fs; constructor; auto using selection_refl. Qed.

(** X14: whatever the provider, the cache and the other tasks do,
    Stage 2.5 returns the folders it was given, one for one and in order:
    each is either passed on as it is, or is a folder of more than ten
    images narrowed to between one and ten of its own images, each with a
    URL, under the same name and character.  It never adds an image and
    never leaves a folder that had images without any. *)
Theorem clipStage_only_selects_among_a_folders_images :
  forall env a fs w,
    Forall2 selection fs (fst (clipStage clock client others env a fs w)).
Proof.
  intros env a fs w. unfold clipStage.
  destruct (clipEnabled env
            && truthy (or_else (clipQuery a) (sceneSummary a)))%bool.
  - apply clipFolders_selection.
  - apply Forall2_selection_refl.
Qed.

End Route.

Lemma computeCosineSimilarity_throws :
  forall q e err,
    computeCosineSimilarity q e = Throw err ->
    err = EmbeddingDimensionsMustMatch (List.length q) (List.length e)
    /\ List.length e <> List.length q.
Proof.
  intros q e err. unfold computeCosineSimilarity, computeDotProduct.
  destruct (Nat.eqb_spec (List.length q) (List.length e)) as [E|N];
    cbn [negb].
  - destruct (_ || _)%bool; discriminate.
  - intros H. inversion H. split; [reflexivity | congruence].
Qed.

Lemma computeCosineSimilarity_mismatch :
  forall q e,
    List.length e <> List.length q ->
    computeCosineSimilarity q e
    = Throw (EmbeddingDimensionsMustMatch (List.length q) (List.length e)).
Proof.
  intros q e H. unfold computeCosineSimilarity.
  destruct (Nat.eqb_spec (List.length q) (List.length e)) as [E|N];
    [congruence | reflexivity].
Qed.

Section Agreement.
Variable clock : nat -> float.
Variable client : EmbeddingRequest -> EmbeddingResponse.
Variable others : nat -> World -> World.
Hypothesis others_agree :
  forall n w, cacheAgrees client w -> cacheAgrees client (others n w).

Lemma similarityLoop_mismatch :
  forall q minSim img url e,
    urlOf img = Some url ->
    serves client Types.image url e ->
    List.length e <> List.length q ->
    forall imgs sims hits w,
      cacheAgrees client w ->
      In img imgs ->
      exists n,
        n <> List.length q
        /\ fst (similarityLoop clock client others q minSim imgs sims hits w)
           = Throw (EmbeddingDimensionsMustMatch (List.length q) n).
Proof.
  intros q minSim img url e Hurl Hs Hlen.
  induction imgs as [|i imgs IH]; intros sims hits w Hag Hin;
    [destruct Hin|].
  cbn [similarityLoop].
  assert (Hrest : In img imgs ->
            forall sims hits w, cacheAgrees client w ->
            exists n,
              n <> List.length q
              /\ fst (similarityLoop clock client others q minSim imgs sims
                        hits w)
                 = Throw (EmbeddingDimensionsMustMatch (List.length q) n))
    by (intros; eauto).
  destruct Hin as [->|Hin].
  - unfold urlOf in Hurl.
    destruct (or_else (imageUrl img) (thumbnail img)) as [u|];
      [|discriminate].
    destruct (truthy (Some u)); [|discriminate].
    inversion Hurl; subst u. unfold getImageEmbedding.
    pose proof (@getEmbedding_served clock client others Types.image url e w
                  Hag Hs) as Hfst.
    destruct (getEmbedding clock client others Types.image url w) as [r w1].
    cbn [fst] in Hfst. subst r.
    destruct (cacheGet clock _ (suspend others w1)) as [hit w2].
    rewrite (@computeCosineSimilarity_mismatch q e Hlen). cbn [fst].
    exists (List.length e). auto.
  - destruct (or_else (imageUrl i) (thumbnail i)) as [u|]; [|eauto].
    destruct (truthy (Some u)); [|eauto].
    unfold getImageEmbedding.
    pose proof (@getEmbedding_agrees clock client others others_agree
                  Types.image u w Hag) as H1.
    destruct (getEmbedding clock client others Types.image u w)
      as [[e'|] w1]; cbn [snd] in H1;
      apply (@suspend_agrees client others others_agree) in H1; [|eauto].
    pose proof (@cacheGet_agrees clock client
                  {| type := Types.image; value := u |} _ H1) as H2.
    destruct (cacheGet clock {| type := Types.image; value := u |}
                       (suspend others w1)) as [hit w2].
    cbn [snd] in H2.
    destruct (computeCosineSimilarity q e') as [sim|err] eqn:Ec; [eauto|].
    apply computeCosineSimilarity_throws in Ec. destruct Ec as [-> Hne].
    cbn [fst]. exists (List.length e'). auto.
Qed.

(** X15: when the provider gives the text a vector of one dimension and
    some image of the list a vector of another, the filter fails as a
    whole with the dimension error: no image is ranked, however many of
    the others would have matched. *)
Theorem one_mismatched_vector_fails_the_whole_filter :
  forall sceneText images options w q img url e,
    cacheAgrees client w ->
    serves client text sceneText q ->
    In img images ->
    urlOf img = Some url ->
    serves client Types.image url e ->
    List.length e <> List.length q ->
    exists n,
      n <> List.length q
      /\ fst (filterImagesBySimilarity clock client others sceneText images
                options w)
         = failed (Some (EmbeddingDimensionsMustMatch (List.length q) n)).
Proof.
  intros sceneText images options w q img url e Hag Hq Hin Hurl He Hlen.
  unfold filterImagesBySimilarity, getTextEmbedding.
  pose proof (@getEmbedding_served clock client others text sceneText q w
                Hag Hq) as Hfst.
  pose proof (@getEmbedding_agrees clock client others others_agree
                text sceneText w Hag) as H1.
  destruct (getEmbedding clock client others text sceneText w) as [r w1].
  cbn [fst snd] in *. subst r.
  apply (@suspend_agrees client others others_agree) in H1.
  destruct (@similarityLoop_mismatch q
              (match minSimilarity options with
               | Some x => x
               | None => 0%float
               end) img url e Hurl He Hlen images [] 0 (suspend others w1)
              H1 Hin) as (n & Hn & Hloop).
  destruct (similarityLoop _ _ _ _ _ _ _ _ _) as [res w2].
  cbn [fst] in *. subst res. exists n. auto.
Qed.

Lemma getImageEmbedding_none :
  servesNoImage client ->
  forall url w,
    cacheAgrees client w ->
    fst (getImageEmbedding clock client others url w) = None.
Proof.
  intros Hno url w Hag. unfold getImageEmbedding, getEmbedding.
  pose proof (@cacheGet_hit clock client
                {| type := Types.image; value := url |} w) as Hhit.
  destruct (cacheGet clock {| type := Types.image; value := url |} w)
    as [[v|] w1]; cbn [fst] in *.
  - exfalso. apply (Hno url v). now apply Hhit.
  - destruct (Types.success _) eqn:Es; [|reflexivity].
    destruct (resp_embedding _) as [emb|] eqn:Ee; [|reflexivity].
    exfalso. apply (Hno url emb). split; assumption.
Qed.

Lemma similarityLoop_records_nothing :
  servesNoImage client ->
  forall q minSim imgs sims hits w,
    cacheAgrees client w ->
    fst (similarityLoop clock client others q minSim imgs sims hits w)
    = Ok (sims, hits).
Proof.
  intros Hno q minSim.
  induction imgs as [|i imgs IH]; intros sims hits w Hag; [reflexivity|].
  cbn [similarityLoop].
  destruct (or_else (imageUrl i) (thumbnail i)) as [u|]; [|auto].
  destruct (truthy (Some u)); [|auto].
  pose proof (@getImageEmbedding_none Hno u w Hag) as Hfst.
  pose proof (@getEmbedding_agrees clock client others others_agree
                Types.image u w Hag) as H1.
  unfold getImageEmbedding in *.
  destruct (getEmbedding clock client others Types.image u w) as [r w1].
  cbn [fst snd] in *. subst r.
  apply (@suspend_agrees client others others_agree) in H1. auto.
Qed.

Lemma filter_selects_nothing :
  servesNoImage client ->
  forall sceneText images options w,
    cacheAgrees client w ->
    topImages (fst (filterImagesBySimilarity clock client others sceneText
                      images options w)) = [].
Proof.
  intros Hno sceneText images options w Hag.
  unfold filterImagesBySimilarity, getTextEmbedding.
  pose proof (@getEmbedding_agrees clock client others others_agree
                text sceneText w Hag) as H1.
  destruct (getEmbedding clock client others text sceneText w)
    as [[q|] w1]; [|reflexivity].
  cbn [snd] in H1. apply (@suspend_agrees client others others_agree) in H1.
  pose proof (@similarityLoop_records_nothing Hno q
                (match minSimilarity options with
                 | Some x => x
                 | None => 0%float
                 end) images [] 0 _ H1) as Hloop.
  destruct (similarityLoop _ _ _ _ _ _ _ _ _) as [res w2].
  cbn [fst] in Hloop. subst res. cbn. now rewrite firstn_nil.
Qed.

Lemma clipFolder_unchanged :
  servesNoImage client ->
  forall a f w,
    cacheAgrees client w ->
    fst (clipFolder clock client others a f w) = f.
Proof.
  intros Hno a f w Hag. unfold clipFolder.
  destruct (List.length (imagesOf f) <=? 10); [reflexivity|].
  pose proof (@filter_selects_nothing Hno
                (template (or_else (clipQuery a) (sceneSummary a)))
                (imagesOf f)
                {| topK := Some 10; minSimilarity := Some 0%float |} w Hag)
    as Htop.
  destruct (filterImagesBySimilarity _ _ _ _ _ _ _) as [r w1].
  cbn [fst] in Htop. rewrite Htop. cbn [List.length Nat.ltb Nat.leb].
  rewrite andb_false_r. reflexivity.
Qed.

Lemma clipStage_unchanged_without_image_vectors :
  servesNoImage client ->
  forall env a fs w,
    cacheAgrees client w ->
    fst (clipStage clock client others env a fs w) = fs.
Proof.
  intros Hno env a fs w Hag. unfold clipStage.
  destruct (_ && _)%bool; [|reflexivity].
  revert w Hag. induction fs as [|f fs IH]; intros w Hag; [reflexivity|].
  cbn [clipFolders].
  pose proof (@clipFolder_unchanged Hno a f w Hag) as Hf.
  pose proof (@clipFolder_agrees clock client others others_agree a f w Hag)
    as Hag1.
  destruct (clipFolder clock client others a f w) as [f' w1].
  specialize (IH w1 Hag1).
  destruct (clipFolders clock client others a fs w1) as [fs' w2].
  cbn [fst snd] in *. congruence.
Qed.

End Agreement.

Lemma one_mismatched_vector_fails_the_whole_filter_witness :
  exists n,
    n <> 3
    /\ fst (filterImagesBySimilarity clock_zero client_text3 no_others
              (lit "walk in a park") images5
              {| topK := None; minSimilarity := None |} world_empty)
       = failed (Some (EmbeddingDimensionsMustMatch 3 n)).
Proof.
  apply (@one_mismatched_vector_fails_the_whole_filter
           clock_zero client_text3 no_others (fun n w H => H)
           (lit "walk in a park") images5
           {| topK := None; minSimilarity := None |} world_empty
           [1%float; 0%float; 0%float] (image_n 5) (List.repeat 117%N 5)
           [1%float; float_of_nat 5]).
  - constructor.
  - split; reflexivity.
  - left. reflexivity.
  - reflexivity.
  - split; reflexivity.
  - discriminate.
Defined.

Lemma openaiGetEmbedding_servesNoImage :
  forall textAnswer, servesNoImage (ClipClient.openaiGetEmbedding textAnswer).
Proof.
  intros textAnswer url e [Hs _]. discriminate Hs.
Qed.

(** X16: the OpenAI client refuses every image, so with that provider
    Stage 2.5 passes every folder on as it is, however many images it
    has. *)
Theorem openai_provider_never_narrows_a_folder :
  forall textAnswer clock others env a fs w,
    (forall n w',
        cacheAgrees (ClipClient.openaiGetEmbedding textAnswer) w' ->
        cacheAgrees (ClipClient.openaiGetEmbedding textAnswer) (others n w')) ->
    cacheAgrees (ClipClient.openaiGetEmbedding textAnswer) w ->
    fst (clipStage clock (ClipClient.openaiGetEmbedding textAnswer) others
           env a fs w) = fs.
Proof.
  intros textAnswer clock others env a fs w Hothers Hag.
  apply clipStage_unchanged_without_image_vectors;
    [exact Hothers | apply openaiGetEmbedding_servesNoImage | exact Hag].
Qed.

Lemma openai_provider_never_narrows_a_folder_witness :
  fst (clipStage clock_zero (ClipClient.openaiGetEmbedding textAnswer_unit)
         no_others env_default analysis_general [folder_of "A" images15]
         world_empty)
  = [folder_of "A" images15].
Proof.
  apply (@openai_provider_never_narrows_a_folder textAnswer_unit clock_zero
           no_others env_default analysis_general [folder_of "A" images15]
           world_empty).
  - intros n w' H. exact H.
  - constructor.
Defined.

End StageCMoreFacts.

(* ================================================================= *)
(** * Facts about the route as a whole *)

Module RouteFacts.

Import JsFacts Gallery ClipFilter UnifiedSelect SpecDefs MoreDefs.
Import StageBFacts StageDFacts StageCMoreFacts.

Lemma find_first :
  forall (A : Type) (p : A -> bool) (l : list A) (x : A),
    List.find p l = Some x <->
    exists pre post,
      l = pre ++ x :: post
      /\ forallb (fun y => negb (p y)) pre = true
      /\ p x = true.
Proof.
  intros A p. induction l as [|y l IH]; intros x.
  - cbn. split; [discriminate|]. intros (pre & post & E & _).
    destruct pre; discriminate.
  - cbn [List.find]. destruct (p y) eqn:Ey.
    + split.
      * intros H. inversion H; subst. exists [], l. auto.
      * intros (pre & post & E & Hpre & Hx). destruct pre as [|z pre].
        -- inversion E. reflexivity.
        -- inversion E; subst. cbn in Hpre. rewrite Ey in Hpre. discriminate.
    + rewrite IH. split.
      * intros (pre & post & -> & Hpre & Hx). exists (y :: pre), post.
        cbn. rewrite Ey. auto.
      * intros (pre & post & E & Hpre & Hx). destruct pre as [|z pre].
        -- inversion E; subst. congruence.
        -- inversion E; subst. cbn in Hpre. rewrite Ey in Hpre.
           exists pre, post. auto.
Qed.

Section Route.
Variable toLowerCase : jsstring -> jsstring.

Lemma matchFolders_unfold :
  forall cfs extracted,
    matchFolders toLowerCase cfs extracted
    = flat_map
        (fun f =>
           match List.find (nameMatches toLowerCase f) extracted with
           | Some c => if truthy (Some c)
                       then [{| folder := f; matchedCharacterName := c |}]
                       else []
           | None => []
           end)
        cfs.
Proof.
  intros cfs extracted. unfold matchFolders. apply flat_map_ext. intros f.
  cbv zeta.
  match goal with
  | |- context [List.find ?p extracted] =>
      change p with (nameMatches toLowerCase f)
  end.
  destruct (List.find (nameMatches toLowerCase f) extracted); reflexivity.
Qed.

Lemma matchFolders_find :
  forall cfs extracted m,
    In m (matchFolders toLowerCase cfs extracted) <->
    In (folder m) cfs
    /\ List.find (nameMatches toLowerCase (folder m)) extracted
       = Some (matchedCharacterName m)
    /\ matchedCharacterName m <> [].
Proof.
  intros cfs extracted m. rewrite matchFolders_unfold, in_flat_map. split.
  - intros (f & Hf & Hin).
    destruct (List.find (nameMatches toLowerCase f) extracted) as [c|] eqn:E;
      [|destruct Hin].
    destruct c as [|x c]; cbn in Hin; [destruct Hin|].
    destruct Hin as [<-|[]]. cbn. split; [assumption|].
    split; [assumption | discriminate].
  - intros (Hf & E & Hne). exists (folder m). split; [assumption|].
    rewrite E. destruct m as [f c]. cbn in *.
    destruct c as [|x c]; [congruence|]. left. reflexivity.
Qed.

(** X17: Stage 2-1 keeps a folder exactly when the first extracted
    character whose name matches the folder's name is not the empty
    string, and pairs the folder with that character; the folders keep
    their order and none is repeated.  The empty string matches every
    folder name, so when it is the first extracted character no folder is
    matched, whatever follows it. *)
Theorem matchFolders_pairs_each_folder_with_its_first_matching_character :
  forall cfs extracted,
    (forall m,
        In m (matchFolders toLowerCase cfs extracted) <->
        In (folder m) cfs
        /\ matchedCharacterName m <> []
        /\ exists pre post,
             extracted = pre ++ matchedCharacterName m :: post
             /\ forallb (fun c => negb (nameMatches toLowerCase (folder m) c))
                        pre = true
             /\ nameMatches toLowerCase (folder m) (matchedCharacterName m)
                = true)
    /\ List.map folder (matchFolders toLowerCase cfs extracted)
       = List.filter
           (fun f => truthy (List.find (nameMatches toLowerCase f) extracted))
           cfs
    /\ (toLowerCase [] = [] ->
        forall rest, matchFolders toLowerCase cfs ([] :: rest) = []).
Proof.
  intros cfs extracted. split; [|split].
  - intros m. rewrite matchFolders_find, find_first. tauto.
  - rewrite matchFolders_unfold.
    induction cfs as [|f cfs IH]; [reflexivity|].
    cbn [flat_map List.filter]. rewrite map_app, IH.
    destruct (List.find (nameMatches toLowerCase f) extracted) as [[|x c]|];
      reflexivity.
  - intros Hlow rest. rewrite matchFolders_unfold.
    induction cfs as [|f cfs IH]; [reflexivity|].
    cbn [flat_map List.find]. unfold nameMatches at 1. rewrite Hlow.
    replace (includes (toLowerCase (name f)) []) with true
      by (destruct (toLowerCase (name f)); reflexivity).
    rewrite orb_true_r. cbn [orb truthy app]. exact IH.
Qed.

End Route.

Lemma matchFolders_pairs_each_folder_with_its_first_matching_character_witness :
  matchFolders toLowerCase_latin [gallery_explicit_only] [[]; lit "A"] = [].
Proof.
  destruct (@matchFolders_pairs_each_folder_with_its_first_matching_character
              toLowerCase_latin [gallery_explicit_only] [[]; lit "A"])
    as (_ & _ & H).
  apply H. reflexivity.
Defined.

Lemma Forall2_length_eq :
  forall (A B : Type) (R : A -> B -> Prop) l l',
    Forall2 R l l' -> List.length l = List.length l'.
Proof. induction 1; cbn; congruence. Qed.

Lemma Forall2_In_r :
  forall (A B : Type) (R : A -> B -> Prop) l l' y,
    Forall2 R l l' -> In y l' -> exists x, In x l /\ R x y.
Proof.
  induction 1 as [|x y' l l' Hxy _ IH]; intros Hin; [destruct Hin|].
  destruct Hin as [->|Hin].
  - exists x. split; [now left | assumption].
  - destruct (IH Hin) as (x' & Hx' & HR). exists x'. split; [now right|auto].
Qed.

Lemma matchFolders_length :
  forall toLowerCase cfs extracted,
    List.length (matchFolders toLowerCase cfs extracted) <= List.length cfs.
Proof.
  intros toLowerCase cfs extracted. rewrite matchFolders_unfold.
  induction cfs as [|f cfs IH]; [apply Nat.le_refl|].
  cbn [flat_map]. rewrite length_app.
  set (n := List.length (flat_map _ cfs)) in *.
  destruct (List.find (nameMatches toLowerCase f) extracted) as [[|x c]|];
    simpl; lia.
Qed.

Lemma mapi_nth_error :
  forall (A B : Type) (f : A -> nat -> B) (l : list A) (k i : nat) (x : A),
    nth_error l i = Some x -> In (f x (k + i)) (mapi f l k).
Proof.
  intros A B f. induction l as [|y l IH]; intros k i x H.
  - destruct i; discriminate.
  - destruct i as [|i]; cbn in H.
    + inversion H; subst. rewrite Nat.add_0_r. left. reflexivity.
    + right. replace (k + S i) with (S k + i) by lia. now apply IH.
Qed.

Section Pipeline.
Variable toLowerCase : jsstring -> jsstring.
Variable clock : nat -> float.
Variable client : EmbeddingRequest -> EmbeddingResponse.
Variable others : nat -> World -> World.
Variable stage3 : jsstring -> Stage3Outcome.
Variable stage1 : jsstring -> Stage1Outcome.

(** X18: every folder offered to Stage 3 has the name of a folder of
    the request and a character of the analysis that matches that name,
    and each of its images is an image of that folder whose label is
    allowed at the determined level. There are never more folders
    offered than the request has. *)
Theorem selectFrom_offers_only_allowed_images_of_matched_folders :
  forall env characterFolders a w,
    let o := selectFrom toLowerCase clock client others stage3 env
                        characterFolders a w in
    Forall (offeredFrom toLowerCase characterFolders a) (stage3Folders o)
    /\ List.length (stage3Folders o) <= List.length characterFolders.
Proof.
  intros env characterFolders a w o.
  destruct (selectFrom_unfold toLowerCase clock client others stage3 env
              characterFolders a w) as (Hfs & _ & _).
  fold o in Hfs. rewrite Hfs.
  assert (Hsel :
            Forall2 selection
              (filterByNsfwLevel (determinedLevel a)
                 (matchFolders toLowerCase characterFolders
                    (extractedCharacters a)))
              (fst (clipStage clock client others env a
                      (filterByNsfwLevel (determinedLevel a)
                         (matchFolders toLowerCase characterFolders
                            (extractedCharacters a))) w))).
  { unfold clipStage.
    destruct (clipEnabled env
              && truthy (or_else (clipQuery a) (sceneSummary a)))%bool;
      [apply clipFolders_selection | apply Forall2_selection_refl]. }
  split.
  - apply Forall_forall. intros m' Hm'.
    destruct (@Forall2_In_r _ _ _ _ _ _ Hsel Hm') as (m1 & Hm1 & Hent & Hincl & _).
    unfold filterByNsfwLevel in Hm1. apply in_map_iff in Hm1.
    destruct Hm1 as (m0 & <- & Hm0).
    apply matchFolders_find in Hm0. destruct Hm0 as (Hf & Hfind & _).
    pose proof (find_some _ _ Hfind) as [Hin Hmatch].
    unfold entity in Hent. cbn [filterFolder withImages folder name
                               matchedCharacterName] in Hent.
    inversion Hent as [[Hc Hn]].
    exists (folder m0). split; [assumption|]. split; [assumption|].
    rewrite Hc. split; [assumption|]. split; [assumption|].
    apply Forall_forall. intros img Himg. apply Hincl in Himg.
    unfold filterFolder in Himg. rewrite imagesOf_withImages in Himg.
    apply filter_In in Himg. exact Himg.
  - apply (@Forall2_length_eq _ _ _ _ _) in Hsel. rewrite <- Hsel.
    unfold filterByNsfwLevel. rewrite length_map. apply matchFolders_length.
Qed.


End Pipeline.


Lemma occurs_trans :
  forall s t u : jsstring,
    (exists p q, s = p ++ t ++ q) ->
    (exists p q, t = p ++ u ++ q) ->
    exists p q, s = p ++ u ++ q.
Proof.
  intros s t u (p & q & ->) (p' & q' & ->).
  exists (p ++ p'), (q' ++ q). now rewrite <- !app_assoc.
Qed.

Lemma occurs_includes :
  forall s t : jsstring,
    (exists p q, s = p ++ t ++ q) -> includes s t = true.
Proof. intros s t (p & q & ->). apply includes_app. Qed.

Lemma prompt_folderText :
  forall fs a f,
    In f fs ->
    exists p q, buildUnifiedPrompt fs a = p ++ folderText f ++ q.
Proof.
  intros fs a f Hf. unfold buildUnifiedPrompt.
  destruct (@join_In (nl ++ nl) (List.map folderText fs) (folderText f))
    as (pre & post & ->); [now apply in_map|].
  exists (promptHead a ++ pre), (post ++ promptTail).
  now rewrite <- !app_assoc.
Qed.

(** X20: the Stage 3 prompt contains the text of every image of every
    folder it is built from, with the image's position counted from one
    and its identifier, and the number of images of every folder. *)
Theorem prompt_lists_every_candidate_image :
  forall fs a f i img,
    In f fs ->
    nth_error (imagesOf f) i = Some img ->
    includes (buildUnifiedPrompt fs a) (imageText img i) = true
    /\ includes (buildUnifiedPrompt fs a)
                (lit "Image " ++ Js.of_nat (i + 1) ++ lit " (ID: " ++ _id img
                 ++ lit "):") = true
    /\ includes (buildUnifiedPrompt fs a)
                (lit "Total Images: "
                 ++ Js.of_nat (List.length (imagesOf f)) ++ nl) = true.
Proof.
  intros fs a f i img Hf Hi.
  pose proof (prompt_folderText fs a f Hf) as Hprompt.
  assert (Himg : exists p q, folderText f = p ++ imageText img i ++ q).
  { destruct (@join_In (nl ++ nl) (mapi imageText (imagesOf f) 0)
                (imageText img i)) as (ipre & ipost & Hjoin).
    { apply (@mapi_nth_error _ _ imageText (imagesOf f) 0 i img Hi). }
    unfold folderText. cbv zeta. rewrite Hjoin.
    exists ((lit "Character: " ++ quoted (matchedCharacterName f)
             ++ lit " (Folder: " ++ quoted (name (folder f)) ++ lit ")" ++ nl
             ++ lit "  Total Images: "
             ++ Js.of_nat (List.length (imagesOf f)) ++ nl ++ nl) ++ ipre),
           ipost.
    rewrite <- !app_assoc. reflexivity. }
  assert (Hid : exists p q,
             imageText img i
             = p ++ (lit "Image " ++ Js.of_nat (i + 1) ++ lit " (ID: "
                     ++ _id img ++ lit "):") ++ q).
  { unfold imageText.
    change (lit "    Image ") with (lit "    " ++ lit "Image ").
    exists (lit "    "),
           (nl ++ lit "      Tags: "
            ++ join (lit ", ")
                 (List.map tagName
                    (match tags img with Some l => l | None => [] end))).
    rewrite <- !app_assoc. reflexivity. }
  assert (Htotal : exists p q,
             folderText f
             = p ++ (lit "Total Images: "
                     ++ Js.of_nat (List.length (imagesOf f)) ++ nl) ++ q).
  { unfold folderText. cbv zeta.
    change (lit "  Total Images: ") with (lit "  " ++ lit "Total Images: ").
    exists (lit "Character: " ++ quoted (matchedCharacterName f)
            ++ lit " (Folder: " ++ quoted (name (folder f)) ++ lit ")" ++ nl
            ++ lit "  "),
           (nl ++ join (nl ++ nl) (mapi imageText (imagesOf f) 0)).
    rewrite <- !app_assoc. reflexivity. }
  split; [|split]; apply occurs_includes.
  - exact (@occurs_trans _ _ _ Hprompt Himg).
  - exact (@occurs_trans _ _ _ Hprompt (@occurs_trans _ _ _ Himg Hid)).
  - exact (@occurs_trans _ _ _ Hprompt Htotal).
Qed.

Lemma prompt_lists_every_candidate_image_witness :
  includes (buildUnifiedPrompt [folder_of "A" images5] analysis_general)
           (lit "Image 2 (ID: 4):") = true.
Proof.
  destruct (@prompt_lists_every_candidate_image [folder_of "A" images5]
              analysis_general (folder_of "A" images5) 1 (image_n 4))
    as (_ & H & _).
  - left. reflexivity.
  - reflexivity.
  - exact H.
Defined.

End RouteFacts.

(* ================================================================= *)
(** * Facts about the provider clients *)

Module ClipClientFacts.

Import ClipClient MoreDefs.

Section Replicate.
Variable pollAnswer : nat -> PollAnswer.

Lemma pollFrom_polls :
  forall remaining attempt,
    snd (pollFrom pollAnswer attempt remaining) <= remaining.
Proof.
  induction remaining as [|r IH]; intros attempt; cbn [pollFrom];
    [apply Nat.le_refl|].
  destruct (pollAnswer attempt); cbn [snd]; try lia.
  specialize (IH (S attempt)).
  destruct (pollFrom pollAnswer (S attempt) r) as [res n]. cbn [snd] in *.
  lia.
Qed.

Lemma pollFrom_first_answer :
  forall n remaining attempt,
    n < remaining ->
    (forall i, i < n -> pollAnswer (attempt + i) = Pending) ->
    pollAnswer (attempt + n) <> Pending ->
    pollFrom pollAnswer attempt remaining
    = (endOf (pollAnswer (attempt + n)), S n).
Proof.
  induction n as [|n IH]; intros remaining attempt Hlt Hpend Hend;
    (destruct remaining as [|r]; [lia|]); cbn [pollFrom].
  - rewrite Nat.add_0_r in *.
    destruct (pollAnswer attempt); try reflexivity. congruence.
  - pose proof (Hpend 0 ltac:(lia)) as H0. rewrite Nat.add_0_r in H0.
    rewrite H0. rewrite (IH r (S attempt)).
    + replace (S attempt + n) with (attempt + S n) by lia. reflexivity.
    + lia.
    + intros i Hi. replace (S attempt + i) with (attempt + S i) by lia.
      apply Hpend. lia.
    + replace (S attempt + n) with (attempt + S n) by lia. exact Hend.
Qed.

Lemma pollFrom_all_pending :
  forall remaining attempt,
    (forall i, i < remaining -> pollAnswer (attempt + i) = Pending) ->
    pollFrom pollAnswer attempt remaining = (ThrowTimeout, remaining).
Proof.
  induction remaining as [|r IH]; intros attempt Hpend; cbn [pollFrom];
    [reflexivity|].
  pose proof (Hpend 0 ltac:(lia)) as H0. rewrite Nat.add_0_r in H0.
  rewrite H0, (IH (S attempt)); [reflexivity|].
  intros i Hi. replace (S attempt + i) with (attempt + S i) by lia.
  apply Hpend. lia.
Qed.

(** Either some answer among the first [remaining] is not pending, and
    then there is a first one, or all are pending. *)
Lemma first_answer_or_all_pending :
  forall remaining attempt,
    (exists n,
        n < remaining
        /\ (forall i, i < n -> pollAnswer (attempt + i) = Pending)
        /\ pollAnswer (attempt + n) <> Pending)
    \/ (forall i, i < remaining -> pollAnswer (attempt + i) = Pending).
Proof.
  induction remaining as [|r IH]; intros attempt; [right; intros; lia|].
  destruct (IH attempt) as [(n & Hn & Hp & He)|Hall].
  - left. exists n. split; [lia | auto].
  - destruct (pollAnswer (attempt + r)) eqn:E.
    1, 2, 4: (left; exists r; split; [lia|]; split; [exact Hall|];
              rewrite E; discriminate).
    right. intros i Hi. destruct (Nat.eq_dec i r) as [->|Hne];
      [exact E | apply Hall; lia].
Qed.

(** X21: [pollForResult] ends at the first answer that is not pending:
    it returns the output of a succeeded prediction and throws on a failed
    one or on a request that is rejected.  It makes at least one and at
    most thirty requests, and it throws the timeout error exactly when the
    first thirty answers are all pending. *)
Theorem pollForResult_ends_at_the_first_answer_that_is_not_pending :
  (forall n,
      n < 30 ->
      (forall i, i < n -> pollAnswer i = Pending) ->
      pollAnswer n <> Pending ->
      pollForResult pollAnswer = (endOf (pollAnswer n), S n))
  /\ ((forall i, i < 30 -> pollAnswer i = Pending) ->
      pollForResult pollAnswer = (ThrowTimeout, 30))
  /\ (fst (pollForResult pollAnswer) = ThrowTimeout ->
      forall i, i < 30 -> pollAnswer i = Pending)
  /\ 1 <= snd (pollForResult pollAnswer) <= 30.
Proof.
  unfold pollForResult, maxAttempts. split; [|split; [|split]].
  - intros n Hn Hp He.
    exact (@pollFrom_first_answer n 30 0 Hn Hp He).
  - intros Hall. exact (@pollFrom_all_pending 30 0 Hall).
  - intros Hto. destruct (first_answer_or_all_pending 30 0)
      as [(n & Hn & Hp & He)|Hall]; [|exact Hall].
    rewrite (@pollFrom_first_answer n 30 0 Hn Hp He) in Hto. cbn [fst] in Hto.
    cbn [Nat.add] in *. destruct (pollAnswer n); try discriminate.
    congruence.
  - split; [|apply pollFrom_polls].
    destruct (first_answer_or_all_pending 30 0)
      as [(n & Hn & Hp & He)|Hall].
    + rewrite (@pollFrom_first_answer n 30 0 Hn Hp He). cbn [snd]. lia.
    + rewrite (@pollFrom_all_pending 30 0 Hall). cbn [snd]. lia.
Qed.

(** X22: [ReplicateClipClient.getEmbedding] reports success with a
    vector exactly when the prediction was created and the first answer
    that is not pending, among the first thirty, is a succeeded one, whose
    output is that vector.  A response that reports failure carries no
    vector and an error message. *)
Theorem replicateGetEmbedding_succeeds_exactly_on_a_succeeded_prediction :
  forall create,
    let r := replicateGetEmbedding pollAnswer create in
    (forall e,
        (Types.success r = true /\ resp_embedding r = Some e) <->
        (create = CreateOk
         /\ exists n,
              n < 30
              /\ (forall i, i < n -> pollAnswer i = Pending)
              /\ pollAnswer n = Succeeded e))
    /\ (Types.success r = true -> resp_embedding r <> None)
    /\ (Types.success r = false ->
        resp_embedding r = None /\ Types.error r <> None).
Proof.
  intros create r. subst r. unfold replicateGetEmbedding.
  destruct create as [|status body|message].
  2, 3: (split; [intros e; split; [intros [H _]; discriminate
                                  | intros [H _]; discriminate]|];
         split; [discriminate | intros _; split; [reflexivity|discriminate]]).
  unfold pollForResult, maxAttempts.
  destruct (first_answer_or_all_pending 30 0) as [(n & Hn & Hp & He)|Hall].
  - rewrite (@pollFrom_first_answer n 30 0 Hn Hp He). cbn [fst Nat.add] in *.
    assert (Huniq : forall m,
               m < 30 -> (forall i, i < m -> pollAnswer i = Pending) ->
               pollAnswer m <> Pending -> m = n).
    { intros m Hm Hpm Hem.
      destruct (Nat.lt_trichotomy m n) as [Hlt|[Heq|Hgt]]; [|exact Heq|].
      - elim Hem. now apply Hp.
      - elim He. now apply Hpm. }
    destruct (pollAnswer n) as [output|error| |message] eqn:E;
      cbn [endOf]; [| |congruence|].
    + split; [|split; [discriminate | discriminate]].
      intros e. split.
      * intros [_ H]. inversion H; subst. split; [reflexivity|].
        exists n. auto.
      * intros [_ (m & Hm & Hpm & Hem)].
        assert (m = n) by (apply Huniq; auto; rewrite Hem; discriminate).
        subst m. rewrite E in Hem. inversion Hem. auto.
    + split; [|split; [discriminate
                      | intros _; split; [reflexivity | discriminate]]].
      intros e. split; [intros [H _]; discriminate|].
      intros [_ (m & Hm & Hpm & Hem)].
      assert (m = n) by (apply Huniq; auto; rewrite Hem; discriminate).
      subst m. congruence.
    + split; [|split; [discriminate
                      | intros _; split; [reflexivity | discriminate]]].
      intros e. split; [intros [H _]; discriminate|].
      intros [_ (m & Hm & Hpm & Hem)].
      assert (m = n) by (apply Huniq; auto; rewrite Hem; discriminate).
      subst m. congruence.
  - rewrite (@pollFrom_all_pending 30 0 Hall). cbn [fst].
    split; [|split; [discriminate
                    | intros _; split; [reflexivity | discriminate]]].
    intros e. split; [intros [H _]; discriminate|].
    intros [_ (m & Hm & _ & Hem)]. pose proof (Hall m Hm) as Hm'.
    cbn [Nat.add] in Hm'. congruence.
Qed.

End Replicate.

Lemma pollForResult_ends_at_the_first_answer_that_is_not_pending_witness :
  pollForResult poll_third = (Returned [1%float], 3)
  /\ pollForResult poll_never = (ThrowTimeout, 30).
Proof.
  split.
  - destruct (pollForResult_ends_at_the_first_answer_that_is_not_pending
                poll_third) as (H & _).
    apply (H 2).
    + lia.
    + intros i Hi. destruct i as [|[|i]]; [reflexivity | reflexivity | lia].
    + discriminate.
  - destruct (pollForResult_ends_at_the_first_answer_that_is_not_pending
                poll_never) as (_ & H & _).
    apply H. reflexivity.
Defined.

Lemma replicateGetEmbedding_succeeds_exactly_on_a_succeeded_prediction_witness :
  Types.success (replicateGetEmbedding poll_third CreateOk) = true
  /\ resp_embedding (replicateGetEmbedding poll_third CreateOk)
     = Some [1%float].
Proof.
  destruct (@replicateGetEmbedding_succeeds_exactly_on_a_succeeded_prediction
              poll_third CreateOk) as (H & _).
  apply (H [1%float]). split; [reflexivity|].
  exists 2. split; [lia|]. split; [|reflexivity].
  intros i Hi. destruct i as [|[|i]]; [reflexivity | reflexivity | lia].
Defined.

End ClipClientFacts.
